(** * BrainBuilder graph editor: the graph view model and its synchronisation

    A shallow embedding of [src/app/dashboard/graphs/[id]/graph.tsx].  The
    React component keeps three pieces of state ([nodes], [edges],
    [selectedNode]) and one timer reference; its callbacks talk to a remote
    row store.  Here the component state, the store and a trace of the
    requests form one [World]; every callback is a computation in a state
    monad over it.  A callback closes over the [nodes], [edges] and
    [selectedNode] of the render that created it, so those are explicit
    arguments of the embedded functions, while [setNodes (fun cur => ...)]
    style updates act on the current world. *)

From Stdlib Require Import ZArith.
From stdpp Require Import gmap strings list fin_maps pretty.

Open Scope string_scope.
Open Scope list_scope.
Open Scope stdpp_scope.

(** ** JavaScript values held in a node payload *)

Inductive JsVal :=
| VUndefined
| VNull
| VBool (b : bool)
| VNum (z : Z)
| VStr (s : string)
| VRef (tag : string)   (* an array or object, named by a tag *)
| VFun (tag : string).  (* a callback, named by a tag *)

#[global] Instance JsVal_eq_dec : EqDecision JsVal.
Proof. solve_decision. Defined.

(** JavaScript truthiness, as used by [||], [&&] and [!]. *)
Definition truthy (v : JsVal) : bool :=
  match v with
  | VUndefined | VNull => false
  | VBool b => b
  | VNum z => negb (z =? 0)%Z
  | VStr s => negb (String.eqb s "")
  | VRef _ | VFun _ => true
  end.

(** [a || b] *)
Definition js_or (a b : JsVal) : JsVal := if truthy a then a else b.

(** A payload is a JS object used as a map from property names to values. *)
Abbreviation Payload := (gmap string JsVal).

(** Property read [d.k]: a missing key reads as [undefined]. *)
Definition prop (d : Payload) (k : string) : JsVal := default VUndefined (d !! k).

(** Object spread [{ ...a, ...b }]: the keys of [b] win. *)
Definition spread (a b : Payload) : Payload := b ∪ a.

(** ** JSON, as the store holds it

    A request body is encoded as JSON and the [data] column is a JSON
    column: a key whose value is [undefined] or a function is left out of
    the encoding, so the store never holds either. *)
Inductive Json :=
| JNull
| JBool (b : bool)
| JNum (z : Z)
| JStr (s : string)
| JRef (tag : string).  (* an array or object *)

#[global] Instance Json_eq_dec : EqDecision Json.
Proof. solve_decision. Defined.

Abbreviation JsonPayload := (gmap string Json).

(** The encoding of one property value; [None] when the key is left out. *)
Definition json_of_value (v : JsVal) : option Json :=
  match v with
  | VUndefined | VFun _ => None
  | VNull => Some JNull
  | VBool b => Some (JBool b)
  | VNum z => Some (JNum z)
  | VStr s => Some (JStr s)
  | VRef t => Some (JRef t)
  end.

Definition value_of_json (j : Json) : JsVal :=
  match j with
  | JNull => VNull
  | JBool b => VBool b
  | JNum z => VNum z
  | JStr s => VStr s
  | JRef t => VRef t
  end.

(** [JSON.stringify] of an object, and the object a JSON value is read
    back as. *)
Definition encode (d : Payload) : JsonPayload := omap json_of_value d.
Definition decode (j : JsonPayload) : Payload := value_of_json <$> j.

(** A handle is [string | null | undefined]; [None] stands for both absent
    forms.  [h && ...] and [h || undefined] test its truthiness. *)
Definition handle_truthy (h : option string) : bool :=
  match h with
  | Some s => negb (String.eqb s "")
  | None => false
  end.

(** [h || undefined], and the key dropped by [...(h && { sourceHandle: h })] *)
Definition handle_or_undefined (h : option string) : option string :=
  if handle_truthy h then h else None.

(** ** Nodes, edges, connections and change records *)

Record XYPosition := { pos_x : Z; pos_y : Z }.

Record Node := {
  node_id : string;
  node_type : JsVal;
  node_position : XYPosition;
  node_data : Payload
}.

Record Edge := {
  edge_id : string;
  edge_source : string;
  edge_target : string;
  edge_sourceHandle : option string
}.

Record Connection := {
  conn_source : string;
  conn_target : string;
  conn_sourceHandle : option string
}.

#[global] Instance XYPosition_eq_dec : EqDecision XYPosition.
Proof. solve_decision. Defined.
#[global] Instance Edge_eq_dec : EqDecision Edge.
Proof. solve_decision. Defined.

(** The change records React Flow hands to [onNodesChange] and
    [onEdgesChange].  Only [remove] and [position] are inspected by the
    component; the remaining kinds (select, dimensions, ...) touch no field
    that is modelled here. *)
Inductive NodeChange :=
| NCRemove (i : string)
| NCPosition (i : string) (p : option XYPosition)
| NCOther (i : string).

Inductive EdgeChange :=
| ECRemove (i : string)
| ECOther (i : string).

Definition is_remove_n (c : NodeChange) : Prop :=
  match c with NCRemove _ => True | _ => False end.
Definition is_remove_e (c : EdgeChange) : Prop :=
  match c with ECRemove _ => True | _ => False end.
Definition nc_id (c : NodeChange) : string :=
  match c with NCRemove i | NCPosition i _ | NCOther i => i end.
Definition ec_id (c : EdgeChange) : string :=
  match c with ECRemove i | ECOther i => i end.

#[global] Instance is_remove_n_dec c : Decision (is_remove_n c).
Proof. destruct c; simpl; apply _. Defined.
#[global] Instance is_remove_e_dec c : Decision (is_remove_e c).
Proof. destruct c; simpl; apply _. Defined.

(** [change.type === "position" && change.position] *)
Definition is_position_change (c : NodeChange) : Prop :=
  match c with NCPosition _ (Some _) => True | _ => False end.
#[global] Instance is_position_change_dec c : Decision (is_position_change c).
Proof. destruct c as [| ? [] |]; simpl; apply _. Defined.

(** [Array.prototype.find] *)
Fixpoint js_find {A} (P : A → Prop) `{!∀ x, Decision (P x)} (l : list A) : option A :=
  match l with
  | [] => None
  | x :: l' => if decide (P x) then Some x else js_find P l'
  end.

(** [Array.prototype.some] *)
Definition js_some {A} (P : A → Prop) `{!∀ x, Decision (P x)} (l : list A) : bool :=
  bool_decide (Exists P l).

Definition set_node_data (n : Node) (d : Payload) : Node :=
  {| node_id := node_id n; node_type := node_type n;
     node_position := node_position n; node_data := d |}.

Definition set_node_position (n : Node) (p : XYPosition) : Node :=
  {| node_id := node_id n; node_type := node_type n;
     node_position := p; node_data := node_data n |}.

(** React Flow's [applyNodeChanges], on the fields modelled here: a
    [remove] drops the node, a [position] change carrying a position moves
    it, every other change leaves it as it is. *)
Definition applyNodeChange (c : NodeChange) (ns : list Node) : list Node :=
  match c with
  | NCRemove i => filter (λ n, node_id n ≠ i) ns
  | NCPosition i (Some p) =>
      (λ n, if decide (node_id n = i) then set_node_position n p else n) <$> ns
  | NCPosition _ None | NCOther _ => ns
  end.

Definition applyNodeChanges (cs : list NodeChange) (ns : list Node) : list Node :=
  fold_left (λ acc c, applyNodeChange c acc) cs ns.

(** React Flow's [applyEdgeChanges]: a [remove] drops the edge with that id. *)
Definition applyEdgeChange (c : EdgeChange) (es : list Edge) : list Edge :=
  match c with
  | ECRemove i => filter (λ e, edge_id e ≠ i) es
  | ECOther _ => es
  end.

Definition applyEdgeChanges (cs : list EdgeChange) (es : list Edge) : list Edge :=
  fold_left (λ acc c, applyEdgeChange c acc) cs es.

(** ** The remote row store *)

Record NodeRow := {
  row_graph_id : string;
  row_label : string;
  row_position_x : Z;
  row_position_y : Z;
  row_data : option JsonPayload  (* the JSON column; [None] is SQL NULL *)
}.

Record EdgeRow := {
  row_source_node_id : string;
  row_target_node_id : string
}.

(** What the network and the store answer to one request: an error, or
    success; a successful insert takes the id of the new row from the
    answer, since ids are assigned by the store. *)
Inductive Reply :=
| RErr
| ROk (newId : string).

Inductive Query :=
| QSelectNodeData (i : string)
| QUpdateNodeData (i : string) (d : Payload)
| QUpdateNodePosition (i : string) (x y : Z)
| QInsertNode (graph label : string) (x y : Z) (d : Payload)
| QDeleteNode (i : string)
| QInsertEdge (src tgt : string)
| QDeleteEdge (i : string).

Inductive Event :=
| EvRequest (q : Query) (ok : bool)
| EvUpdateStart   (* the [onUpdateStart] prop *)
| EvUpdateEnd.    (* the [onUpdateEnd] prop *)

(** ** The world: component state, timer, clock, store and trace *)

Record Timer := {
  timer_due : nat;             (* milliseconds on the virtual clock *)
  timer_nodes : list Node;     (* the [newNodes] the callback closes over *)
  timer_edges : list Edge
}.

Record World := {
  nodes : list Node;
  edges : list Edge;
  selectedNode : option Node;
  positionUpdateTimeoutRef : option Timer;
  clock : nat;
  db_nodes : gmap string NodeRow;
  db_edges : gmap string EdgeRow;
  requests : nat;              (* number of requests issued so far *)
  trace : list Event           (* oldest first *)
}.

Definition M (A : Type) : Type := World → A * World.

#[global] Instance M_ret : MRet M := λ A a w, (a, w).
#[global] Instance M_bind : MBind M := λ A B f m w, let '(a, w') := m w in f a w'.

Definition with_nodes (f : list Node → list Node) (w : World) : World :=
  {| nodes := f (nodes w); edges := edges w; selectedNode := selectedNode w;
     positionUpdateTimeoutRef := positionUpdateTimeoutRef w; clock := clock w;
     db_nodes := db_nodes w; db_edges := db_edges w;
     requests := requests w; trace := trace w |}.

Definition with_edges (f : list Edge → list Edge) (w : World) : World :=
  {| nodes := nodes w; edges := f (edges w); selectedNode := selectedNode w;
     positionUpdateTimeoutRef := positionUpdateTimeoutRef w; clock := clock w;
     db_nodes := db_nodes w; db_edges := db_edges w;
     requests := requests w; trace := trace w |}.

Definition with_selected (s : option Node) (w : World) : World :=
  {| nodes := nodes w; edges := edges w; selectedNode := s;
     positionUpdateTimeoutRef := positionUpdateTimeoutRef w; clock := clock w;
     db_nodes := db_nodes w; db_edges := db_edges w;
     requests := requests w; trace := trace w |}.

Definition with_timer (t : option Timer) (w : World) : World :=
  {| nodes := nodes w; edges := edges w; selectedNode := selectedNode w;
     positionUpdateTimeoutRef := t; clock := clock w;
     db_nodes := db_nodes w; db_edges := db_edges w;
     requests := requests w; trace := trace w |}.

Definition with_clock (c : nat) (w : World) : World :=
  {| nodes := nodes w; edges := edges w; selectedNode := selectedNode w;
     positionUpdateTimeoutRef := positionUpdateTimeoutRef w; clock := c;
     db_nodes := db_nodes w; db_edges := db_edges w;
     requests := requests w; trace := trace w |}.

Definition with_db_nodes (f : gmap string NodeRow → gmap string NodeRow) (w : World) : World :=
  {| nodes := nodes w; edges := edges w; selectedNode := selectedNode w;
     positionUpdateTimeoutRef := positionUpdateTimeoutRef w; clock := clock w;
     db_nodes := f (db_nodes w); db_edges := db_edges w;
     requests := requests w; trace := trace w |}.

Definition with_db_edges (f : gmap string EdgeRow → gmap string EdgeRow) (w : World) : World :=
  {| nodes := nodes w; edges := edges w; selectedNode := selectedNode w;
     positionUpdateTimeoutRef := positionUpdateTimeoutRef w; clock := clock w;
     db_nodes := db_nodes w; db_edges := f (db_edges w);
     requests := requests w; trace := trace w |}.

Definition log (e : Event) (w : World) : World :=
  {| nodes := nodes w; edges := edges w; selectedNode := selectedNode w;
     positionUpdateTimeoutRef := positionUpdateTimeoutRef w; clock := clock w;
     db_nodes := db_nodes w; db_edges := db_edges w;
     requests := requests w; trace := trace w ++ [e] |}.

Definition tick (w : World) : World :=
  {| nodes := nodes w; edges := edges w; selectedNode := selectedNode w;
     positionUpdateTimeoutRef := positionUpdateTimeoutRef w; clock := clock w;
     db_nodes := db_nodes w; db_edges := db_edges w;
     requests := S (requests w); trace := trace w |}.

(** [setNodes], [setEdges], [setSelectedNode] and the two optional props *)
Definition setNodes (f : list Node → list Node) : M unit := λ w, (tt, with_nodes f w).
Definition setEdges (f : list Edge → list Edge) : M unit := λ w, (tt, with_edges f w).
Definition setSelectedNode (s : option Node) : M unit := λ w, (tt, with_selected s w).
Definition set_timer (t : option Timer) : M unit := λ w, (tt, with_timer t w).
Definition onUpdateStart : M unit := λ w, (tt, log EvUpdateStart w).
Definition onUpdateEnd : M unit := λ w, (tt, log EvUpdateEnd w).

(** [for (const x of l) { await f(x) }] *)
Fixpoint for_of {A} (l : list A) (f : A → M unit) : M unit :=
  match l with
  | [] => mret tt
  | x :: l' => f x ;; for_of l' f
  end.

Section Component.

(** The behaviour of the network and the store is not under the component's
    control: [net k] is the answer to the [k]-th request.  [graphId] is the
    component's prop. *)
Variable net : nat → Reply.
Variable graphId : string.

(** *** Requests to the store

    Each request consumes one answer and is recorded in the trace with its
    outcome.  On success the store applies the request to its tables. *)

Definition request : M Reply := λ w, (net (requests w), tick w).

Definition record (q : Query) (ok : bool) : M unit := λ w, (tt, log (EvRequest q ok) w).

Definition get_world : M World := λ w, (w, w).
Definition store_nodes (f : gmap string NodeRow → gmap string NodeRow) : M unit :=
  λ w, (tt, with_db_nodes f w).
Definition store_edges (f : gmap string EdgeRow → gmap string EdgeRow) : M unit :=
  λ w, (tt, with_db_edges f w).

(** [from("nodes").select("data").eq("id", i).single()]: fails when the
    request fails or when no row has that id.  An insert fails when the
    request fails or when the id the store would assign is already taken. *)
Definition db_select_node_data (i : string) : M (option (option Payload)) :=
  r ← request;
  w ← get_world;
  match r, db_nodes w !! i with
  | ROk _, Some row =>
      record (QSelectNodeData i) true ;; mret (Some (decode <$> row_data row))
  | _, _ => record (QSelectNodeData i) false ;; mret None
  end.

Definition set_row_data (d : JsonPayload) (r : NodeRow) : NodeRow :=
  {| row_graph_id := row_graph_id r; row_label := row_label r;
     row_position_x := row_position_x r; row_position_y := row_position_y r;
     row_data := Some d |}.

Definition set_row_position (x y : Z) (r : NodeRow) : NodeRow :=
  {| row_graph_id := row_graph_id r; row_label := row_label r;
     row_position_x := x; row_position_y := y;
     row_data := row_data r |}.

(** [from("nodes").update({ data: d }).eq("id", i)].  The request is
    recorded with the object [d] the code hands over; what the row then
    holds is its JSON encoding. *)
Definition db_update_node_data (i : string) (d : Payload) : M bool :=
  r ← request;
  match r with
  | ROk _ => store_nodes (alter (set_row_data (encode d)) i) ;;
             record (QUpdateNodeData i d) true ;; mret true
  | RErr => record (QUpdateNodeData i d) false ;; mret false
  end.

(** [from("nodes").update({ position_x, position_y }).eq("id", i)] *)
Definition db_update_node_position (i : string) (x y : Z) : M bool :=
  r ← request;
  match r with
  | ROk _ => store_nodes (alter (set_row_position x y) i) ;;
             record (QUpdateNodePosition i x y) true ;; mret true
  | RErr => record (QUpdateNodePosition i x y) false ;; mret false
  end.

(** [from("nodes").insert({...}).select().single()]: the id of the new row *)
Definition db_insert_node (label : string) (x y : Z) (d : Payload) : M (option string) :=
  r ← request;
  w ← get_world;
  let q := QInsertNode graphId label x y d in
  match r with
  | ROk i =>
      match db_nodes w !! i with
      | None =>
          let row := {| row_graph_id := graphId; row_label := label;
                        row_position_x := x; row_position_y := y;
                        row_data := Some (encode d) |} in
          store_nodes (insert i row) ;; record q true ;; mret (Some i)
      | Some _ => record q false ;; mret None
      end
  | RErr => record q false ;; mret None
  end.

(** [from("nodes").delete().eq("id", i)] *)
Definition db_delete_node (i : string) : M bool :=
  r ← request;
  match r with
  | ROk _ => store_nodes (delete i) ;; record (QDeleteNode i) true ;; mret true
  | RErr => record (QDeleteNode i) false ;; mret false
  end.

(** [from("edges").insert({ source_node_id, target_node_id }).select().single()] *)
Definition db_insert_edge (src tgt : string) : M (option string) :=
  r ← request;
  w ← get_world;
  let q := QInsertEdge src tgt in
  match r with
  | ROk i =>
      match db_edges w !! i with
      | None =>
          let row := {| row_source_node_id := src; row_target_node_id := tgt |} in
          store_edges (insert i row) ;; record q true ;; mret (Some i)
      | Some _ => record q false ;; mret None
      end
  | RErr => record q false ;; mret None
  end.

(** [from("edges").delete().eq("id", i)] *)
Definition db_delete_edge (i : string) : M bool :=
  r ← request;
  match r with
  | ROk _ => store_edges (delete i) ;; record (QDeleteEdge i) true ;; mret true
  | RErr => record (QDeleteEdge i) false ;; mret false
  end.

(** *** The component's callbacks *)

Definition updateNodeData (nodeId : string) (newData : Payload) : M bool :=
  setNodes (λ currentNodes,
    (λ node, if decide (node_id node = nodeId)
             then set_node_data node (spread (node_data node) newData)
             else node) <$> currentNodes) ;;
  currentNode ← db_select_node_data nodeId;
  match currentNode with
  | None => mret false
  | Some data =>
      let mergedData := spread (default ∅ data) newData in
      db_update_node_data nodeId mergedData
  end.

Definition createEdge (sourceId targetId : string) (sourceHandle : option string)
  : M (option Edge) :=
  newEdge ← db_insert_edge sourceId targetId;
  match newEdge with
  | None => mret None
  | Some i =>
      mret (Some {| edge_id := i; edge_source := sourceId; edge_target := targetId;
                    edge_sourceHandle := handle_or_undefined sourceHandle |})
  end.

Definition deleteEdge (edgeId : string) : M bool := db_delete_edge edgeId.

(** [isRemove ? undefined : targetNode.id] *)
Definition child_value (targetNode : Node) (isRemove : bool) : JsVal :=
  if isRemove then VUndefined else VStr (node_id targetNode).

(** Both arguments are nodes the callers have already found, so the
    leading [if (!sourceNode || !targetNode) return] never fires. *)
Definition updateNodeRelationships (sourceNode targetNode : Node)
    (sourceHandle : option string) (isRemove : bool) : M unit :=
  let nodeType := node_type sourceNode in
  if decide (nodeType = VStr "analysis") then
    updateNodeData (node_id sourceNode)
      {[ "childId" := child_value targetNode isRemove ]} ;; mret tt
  else if decide (nodeType = VStr "conditional") then
    if decide (sourceHandle = Some "true") then
      updateNodeData (node_id sourceNode)
        {[ "trueChildId" := child_value targetNode isRemove ]} ;; mret tt
    else if decide (sourceHandle = Some "false") then
      updateNodeData (node_id sourceNode)
        {[ "falseChildId" := child_value targetNode isRemove ]} ;; mret tt
    else mret tt
  else mret tt.

(** The renderer-facing node built from a fetched row ([flowNodes] in
    [fetchGraph]).  The [onPromptChange] callback is a closure; only its
    presence is recorded. *)
Definition flowNode (i : string) (node : NodeRow) : Node :=
  let nodeData : Payload := decode (default ∅ (row_data node)) in
  let nodeType := js_or (prop nodeData "type") (VStr "prompt") in
  let baseNodeData : Payload :=
    {[ "label" := VStr (row_label node); "type" := nodeType ]} in
  let fullNodeData : Payload :=
    if decide (nodeType = VStr "prompt") then
      spread baseNodeData
        {[ "prompt" := js_or (prop nodeData "prompt") (VStr "");
           "onPromptChange" := VFun "onPromptChange" ]}
    else if decide (nodeType = VStr "analysis") then
      spread baseNodeData {[ "childId" := prop nodeData "childId" ]}
    else if decide (nodeType = VStr "conditional") then
      spread baseNodeData
        {[ "trueChildId" := prop nodeData "trueChildId";
           "falseChildId" := prop nodeData "falseChildId" ]}
    else baseNodeData in
  {| node_id := i;
     node_position := {| pos_x := row_position_x node; pos_y := row_position_y node |};
     node_type := nodeType;
     node_data := fullNodeData |}.

Definition flowNodes (nodesData : list (string * NodeRow)) : list Node :=
  (λ r, flowNode r.1 r.2) <$> nodesData.

(** The edge built from a fetched row ([flowEdges] in [fetchGraph]): the
    handle of an edge leaving a conditional node is recomputed from the
    stored child ids. *)
Definition flowEdge (nodesData : list (string * NodeRow)) (i : string) (edge : EdgeRow) : Edge :=
  let sourceNode := js_find (λ n, n.1 = row_source_node_id edge) nodesData in
  let sourceData : Payload :=
    match sourceNode with
    | Some n => decode (default ∅ (row_data n.2))
    | None => ∅
    end in
  let sourceHandle :=
    if decide (prop sourceData "type" = VStr "conditional") then
      let trueChildId := prop sourceData "trueChildId" in
      let falseChildId := prop sourceData "falseChildId" in
      if truthy trueChildId && bool_decide (trueChildId = VStr (row_target_node_id edge))
      then Some "true"
      else if truthy falseChildId && bool_decide (falseChildId = VStr (row_target_node_id edge))
      then Some "false"
      else None
    else None in
  {| edge_id := i; edge_source := row_source_node_id edge;
     edge_target := row_target_node_id edge; edge_sourceHandle := sourceHandle |}.

(** One batch of position writes, bracketed by the two optional props.  A
    failed write is logged and the loop goes on. *)
Definition updateGraphData (newNodes : list Node) (newEdges : list Edge) : M bool :=
  onUpdateStart ;;
  for_of newNodes (λ node,
    db_update_node_position (node_id node)
      (pos_x (node_position node)) (pos_y (node_position node)) ;; mret tt) ;;
  onUpdateEnd ;;
  mret true.

(** [clearTimeout] of the pending timer, if any, and [setTimeout(..., 500)]:
    the reference holds one timer, so arming it replaces the pending one. *)
Definition debouncedUpdatePositions (newNodes : list Node) (newEdges : list Edge) : M unit :=
  w ← get_world;
  set_timer (Some {| timer_due := clock w + 500;
                     timer_nodes := newNodes;
                     timer_edges := newEdges |}).

(** The body of the timer callback. *)
Definition timer_callback (t : Timer) : M unit :=
  updateGraphData (timer_nodes t) (timer_edges t) ;;
  set_timer None.

Definition onEdgesChangeCallback (nodes : list Node) (edges : list Edge)
    (changes : list EdgeChange) : M unit :=
  let newEdges := applyEdgeChanges changes edges in
  setEdges (λ _, newEdges) ;;
  let removedEdges := filter is_remove_e changes in
  for_of removedEdges (λ change,
    let edgeId := ec_id change in
    match js_find (λ e, edge_id e = edgeId) edges with
    | Some edge =>
        deleteEdge edgeId ;;
        match js_find (λ n, node_id n = edge_source edge) nodes,
              js_find (λ n, node_id n = edge_target edge) nodes with
        | Some sourceNode, Some targetNode =>
            updateNodeRelationships sourceNode targetNode
              (handle_or_undefined (edge_sourceHandle edge)) true
        | _, _ => mret tt
        end
    | None => mret tt
    end).

(** [{ id: nodeId } as Node]: only the id of the target is ever read. *)
Definition dummyTargetNode (nodeId : string) : Node :=
  {| node_id := nodeId; node_type := VUndefined;
     node_position := {| pos_x := 0; pos_y := 0 |}; node_data := ∅ |}.

Definition deleteNode (nodes : list Node) (edges : list Edge) (selectedNode : option Node)
    (nodeId : string) : M bool :=
  setEdges (λ _, filter (λ edge, edge_source edge ≠ nodeId ∧ edge_target edge ≠ nodeId) edges) ;;
  setNodes (λ _, filter (λ node, node_id node ≠ nodeId) nodes) ;;
  (if decide (node_id <$> selectedNode = Some nodeId)
   then setSelectedNode None else mret tt) ;;
  let connectedEdges :=
    filter (λ edge, edge_source edge = nodeId ∨ edge_target edge = nodeId) edges in
  for_of connectedEdges (λ edge,
    deleteEdge (edge_id edge) ;;
    if decide (edge_target edge = nodeId) then
      match js_find (λ n, node_id n = edge_source edge) nodes with
      | Some sourceNode =>
          updateNodeRelationships sourceNode (dummyTargetNode nodeId)
            (handle_or_undefined (edge_sourceHandle edge)) true
      | None => mret tt
      end
    else mret tt) ;;
  db_delete_node nodeId.

Definition onNodesChangeCallback (nodes : list Node) (edges : list Edge)
    (selectedNode : option Node) (changes : list NodeChange) : M unit :=
  let deletionChanges := filter is_remove_n changes in
  let otherChanges := filter (λ c, ¬ is_remove_n c) changes in
  for_of deletionChanges (λ change,
    deleteNode nodes edges selectedNode (nc_id change) ;; mret tt) ;;
  let newNodes := applyNodeChanges otherChanges nodes in
  setNodes (λ _, newNodes) ;;
  let positionChanges := filter is_position_change otherChanges in
  if decide (0 < length positionChanges)%nat
  then debouncedUpdatePositions newNodes edges
  else mret tt.

(** The filter of the final [setEdges] in [onConnect]. *)
Definition connect_keeps (sourceNode : Node) (params : Connection) (edge : Edge) : Prop :=
  if decide (node_type sourceNode = VStr "analysis")
  then edge_source edge ≠ node_id sourceNode
  else if decide (node_type sourceNode = VStr "conditional"
                  ∧ handle_truthy (conn_sourceHandle params) = true)
  then ¬ (edge_source edge = node_id sourceNode
          ∧ edge_sourceHandle edge = conn_sourceHandle params)
  else True.

#[global] Instance connect_keeps_dec sourceNode params edge :
  Decision (connect_keeps sourceNode params edge).
Proof. unfold connect_keeps. repeat case_decide; apply _. Defined.

Definition onConnect (nodes : list Node) (edges : list Edge) (params : Connection) : M unit :=
  match js_find (λ node, node_id node = conn_source params) nodes,
        js_find (λ node, node_id node = conn_target params) nodes with
  | Some sourceNode, Some targetNode =>
      if decide (node_type sourceNode = VStr "prompt") then mret tt else
      (if decide (node_type sourceNode = VStr "analysis") then
         let existingEdges := filter (λ edge, edge_source edge = node_id sourceNode) edges in
         for_of existingEdges (λ edge, deleteEdge (edge_id edge) ;; mret tt)
       else mret tt) ;;
      (if decide (node_type sourceNode = VStr "conditional"
                  ∧ handle_truthy (conn_sourceHandle params) = true) then
         let existingConnections :=
           filter (λ edge, edge_source edge = conn_source params
                           ∧ edge_sourceHandle edge = conn_sourceHandle params) edges in
         for_of existingConnections (λ edge, deleteEdge (edge_id edge) ;; mret tt)
       else mret tt) ;;
      newEdgeObj ← createEdge (node_id sourceNode) (node_id targetNode)
                     (conn_sourceHandle params);
      match newEdgeObj with
      | Some newEdgeObj =>
          updateNodeRelationships sourceNode targetNode (conn_sourceHandle params) false ;;
          setEdges (λ currentEdges,
            let filteredEdges := filter (connect_keeps sourceNode params) currentEdges in
            filteredEdges ++ [newEdgeObj])
      | None => mret tt
      end
  | _, _ => mret tt
  end.

Definition onNodeClick (node : Node) : M unit := setSelectedNode (Some node).

Definition center : XYPosition := {| pos_x := 500; pos_y := 300 |}.

Definition handleAddNode (nodes : list Node) (edges : list Edge) (selectedNode : option Node)
    (type label : string) : M unit :=
  if decide (graphId = "" ∨ label = "" ∨ type = "") then mret tt else
  let nodeData : Payload :=
    if decide (type = "prompt")
    then {[ "type" := VStr type; "prompt" := VStr "" ]}
    else {[ "type" := VStr type ]} in
  createdNode ← db_insert_node label (pos_x center) (pos_y center) nodeData;
  match createdNode with
  | None => mret tt
  | Some newNodeId =>
      let newNode :=
        {| node_id := newNodeId; node_position := center; node_type := VStr type;
           node_data :=
             if decide (type = "prompt")
             then {[ "label" := VStr label; "type" := VStr type;
                     "prompt" := VStr ""; "onPromptChange" := VFun "onPromptChange" ]}
             else {[ "label" := VStr label; "type" := VStr type ]} |} in
      setNodes (λ _, nodes ++ [newNode]) ;;
      match selectedNode with
      | None => mret tt
      | Some selectedNode =>
          if decide (node_type selectedNode = VStr "prompt") then mret tt else
          let sourceHandle : option string :=
            if decide (node_type selectedNode = VStr "conditional") then
              let hasTrueConnection :=
                js_some (λ e, edge_source e = node_id selectedNode
                              ∧ edge_sourceHandle e = Some "true") edges in
              if negb hasTrueConnection then Some "true"
              else
                let hasFalseConnection :=
                  js_some (λ e, edge_source e = node_id selectedNode
                                ∧ edge_sourceHandle e = Some "false") edges in
                if negb hasFalseConnection then Some "false" else None
            else None in
          newEdge ← createEdge (node_id selectedNode) newNodeId sourceHandle;
          match newEdge with
          | Some newEdge =>
              updateNodeRelationships selectedNode newNode sourceHandle false ;;
              setEdges (λ prev, prev ++ [newEdge])
          | None => mret tt
          end
      end
  end.

(** *** The event loop

    A handler runs to completion before the next event is taken, and it is
    the handler of the latest render: it closes over the current state.
    Time is a virtual clock in milliseconds; a pending timer fires, at its
    due time, before any event that arrives at or after that time. *)

Inductive UiEvent :=
| EConnect (params : Connection)
| ENodesChange (changes : list NodeChange)
| EEdgesChange (changes : list EdgeChange)
| EAddNode (type label : string)
| ENodeClick (node : Node).

Definition dispatch (ev : UiEvent) : M unit :=
  w ← get_world;
  match ev with
  | EConnect params => onConnect (nodes w) (edges w) params
  | ENodesChange changes =>
      onNodesChangeCallback (nodes w) (edges w) (selectedNode w) changes
  | EEdgesChange changes => onEdgesChangeCallback (nodes w) (edges w) changes
  | EAddNode type label => handleAddNode (nodes w) (edges w) (selectedNode w) type label
  | ENodeClick node => onNodeClick node
  end.

Definition set_clock (t : nat) : M unit := λ w, (tt, with_clock (clock w `max` t) w).

Definition elapse_to (t : nat) : M unit :=
  w ← get_world;
  match positionUpdateTimeoutRef w with
  | Some tm =>
      if decide (timer_due tm ≤ t)%nat
      then set_clock (timer_due tm) ;; timer_callback tm ;; set_clock t
      else set_clock t
  | None => set_clock t
  end.

Definition step (tev : nat * UiEvent) : M unit :=
  elapse_to tev.1 ;; dispatch tev.2.

Definition run (evs : list (nat * UiEvent)) : M unit := for_of evs step.

End Component.

(** ** The rest of the component and the node renderers *)

Section Rest.
Variable net : nat → Reply.
Variable graphId : string.

(** *** Loading ([fetchGraph])

    The [graphs] relation is not part of the world: whether the record
    exists and belongs to the user is the store's answer.  The three reads
    of a load each consume an answer; the trace keeps to the requests of
    the editing callbacks. *)

(** [from("graphs").select("*").eq("id", graphId).eq("user_id", user.id).single()] *)
Definition db_select_graph (userId : string) : M bool :=
  r ← request net;
  mret (match r with ROk _ => true | RErr => false end).

(** [from("nodes").select("*").eq("graph_id", graphId)] *)
Definition db_select_nodes : M (option (list (string * NodeRow))) :=
  r ← request net;
  w ← get_world;
  match r with
  | ROk _ => mret (Some (filter (λ r, row_graph_id r.2 = graphId)
                           (map_to_list (db_nodes w))))
  | RErr => mret None
  end.

(** [from("edges").select("*").in("source_node_id", ids)] *)
Definition db_select_edges (ids : list string) : M (option (list (string * EdgeRow))) :=
  r ← request net;
  w ← get_world;
  match r with
  | ROk _ => mret (Some (filter (λ r, row_source_node_id r.2 ∈ ids)
                           (map_to_list (db_edges w))))
  | RErr => mret None
  end.

Definition flowEdges (nodesData : list (string * NodeRow))
    (edgesData : list (string * EdgeRow)) : list Edge :=
  (λ r, flowEdge nodesData r.1 r.2) <$> edgesData.

(** [fetchGraph], given the current user and the current value of
    [isLoading]; the result is the value of [isLoading] it leaves.  An
    early [return] inside the [try] comes after [setIsLoading(true)] and
    never reaches [setIsLoading(false)]. *)
Definition fetchGraph (user : option string) (isLoading : bool) : M bool :=
  match user with
  | None => mret isLoading
  | Some userId =>
      if decide (graphId = "") then mret isLoading else
      graphData ← db_select_graph userId;
      if negb graphData then mret true else
      nodesData ← db_select_nodes;
      match nodesData with
      | None => mret true
      | Some nodesData =>
          edgesData ← db_select_edges (fst <$> nodesData);
          match edgesData with
          | None => mret true
          | Some edgesData =>
              setNodes (λ _, flowNodes nodesData) ;;
              setEdges (λ _, flowEdges nodesData edgesData) ;;
              mret false
          end
      end
  end.

(** *** Unmounting

    The cleanup effect clears the pending timeout.  The reference is the
    pending callback here, so cancelling it empties the reference. *)
Definition unmount : M unit :=
  w ← get_world;
  match positionUpdateTimeoutRef w with
  | Some _ => set_timer None
  | None => mret tt
  end.

(** *** [Flow]: the keyboard handler

    [Flow] is handed the [selectedNode] and the [onNodesChangeCallback] of
    the same render. *)
Definition onKeyDown (nodes : list Node) (edges : list Edge) (selectedNode : option Node)
    (key : string) : M unit :=
  match selectedNode with
  | Some sel =>
      if decide (key = "Delete" ∨ key = "Backspace")
      then onNodesChangeCallback net nodes edges selectedNode [NCRemove (node_id sel)]
      else mret tt
  | None => mret tt
  end.

(** *** The node renderers ([nodes.tsx])

    A renderer receives the [data] of its node and reports an edit through
    an optional callback found in that [data].  The one callback the graph
    ever stores is the [onPromptChange] closure built in [fetchGraph] and
    in [handleAddNode]. *)
Definition onPromptChange (nodeId : string) (newData : Payload) : M unit :=
  updateNodeData net nodeId {[ "prompt" := prop newData "prompt" ]} ;; mret tt.

(** [f?.(...)]: a nullish [f] skips the call. *)
Definition nullish (v : JsVal) : bool :=
  match v with VUndefined | VNull => true | _ => false end.

(** [handlePromptChange] of [PromptNode] and of [AnalysisNode], for the
    text [value] of the textarea. *)
Definition handlePromptChange (data : Payload) (id value : string) : M unit :=
  let newData := spread data {[ "prompt" := VStr value ]} in
  if nullish (prop data "onPromptChange") then mret tt
  else onPromptChange id newData.

(** The callbacks no code of the graph defines are whatever a parent would
    supply. *)
Variable onLabelChange : string → string → M unit.
Variable onStatesChange : string → list string → M unit.
Variable onConditionalChange : string → Payload → M unit.

(** The report of [handleLabelChange] (all three renderers); the width it
    then measures is state of the renderer alone. *)
Definition handleLabelChange (data : Payload) (id newLabel : string) : M unit :=
  if nullish (prop data "onLabelChange") then mret tt
  else onLabelChange id newLabel.

(** [handleStatesChange] of [AnalysisNode] *)
Definition handleStatesChange (data : Payload) (id : string) (stateIds : list string)
  : M unit :=
  if nullish (prop data "onStatesChange") then mret tt
  else onStatesChange id stateIds.

(** [handleConditionalChange] of [ConditionalNode] *)
Definition handleConditionalChange (data : Payload) (id : string) (newData : Payload)
  : M unit :=
  if nullish (prop data "onConditionalChange") then mret tt
  else onConditionalChange id newData.

End Rest.

(** * Specification vocabulary *)

(** ** What a callback does to the rendered state *)

(** The part of the world the component renders and its timer: the store
    primitives never touch it. *)
Definition view (w : World) :=
  (nodes w, edges w, selectedNode w, positionUpdateTimeoutRef w, clock w).

(** The local update of [updateNodeData]. *)
Definition patch_node (i : string) (d : Payload) (node : Node) : Node :=
  if decide (node_id node = i)
  then set_node_data node (spread (node_data node) d)
  else node.

(** The payload field [updateNodeRelationships] writes for an edge leaving
    [sourceNode] on [sourceHandle], if any. *)
Definition relationship_field (sourceNode : Node) (sourceHandle : option string)
  : option string :=
  if decide (node_type sourceNode = VStr "analysis") then Some "childId"
  else if decide (node_type sourceNode = VStr "conditional") then
    if decide (sourceHandle = Some "true") then Some "trueChildId"
    else if decide (sourceHandle = Some "false") then Some "falseChildId"
    else None
  else None.

Definition relate_nodes (s t : Node) (h : option string) (isRemove : bool)
  : list Node → list Node :=
  match relationship_field s h with
  | Some k => fmap (patch_node (node_id s) {[ k := child_value t isRemove ]})
  | None => λ ns, ns
  end.

Definition new_edge (i : string) (s t : Node) (h : option string) : Edge :=
  {| edge_id := i; edge_source := node_id s; edge_target := node_id t;
     edge_sourceHandle := handle_or_undefined h |}.

(** ** Payload fields that mirror the edges *)

(** The edges leaving node [a]. *)
Definition outgoing (a : string) (es : list Edge) : list Edge :=
  filter (λ e, edge_source e = a) es.

(** Payload field [k] of [n] mirrors the edge list [es]: there is at most
    one edge; the field holds its target, or reads [undefined] when there
    is none. *)
Definition mirrors (k : string) (n : Node) (es : list Edge) : Prop :=
  match es with
  | [] => prop (node_data n) k = VUndefined
  | [e] => prop (node_data n) k = VStr (edge_target e)
  | _ => False
  end.

Definition analysis_inv_on (a : string) (ns : list Node) (es : list Edge) : Prop :=
  ∀ n, js_find (λ n, node_id n = a) ns = Some n →
       node_type n = VStr "analysis" →
       mirrors "childId" n (outgoing a es).

Definition analysis_inv (a : string) (w : World) : Prop :=
  analysis_inv_on a (nodes w) (edges w).

(** The edges leaving node [d] on handle [h]. *)
Definition handle_edges (d h : string) (es : list Edge) : list Edge :=
  filter (λ e, edge_source e = d ∧ edge_sourceHandle e = Some h) es.

Definition conditional_inv_on (d : string) (ns : list Node) (es : list Edge) : Prop :=
  ∀ n, js_find (λ n, node_id n = d) ns = Some n →
       node_type n = VStr "conditional" →
       mirrors "trueChildId" n (handle_edges d "true" es) ∧
       mirrors "falseChildId" n (handle_edges d "false" es).

Definition conditional_inv (d : string) (w : World) : Prop :=
  conditional_inv_on d (nodes w) (edges w).

Definition is_connect (tev : nat * UiEvent) : Prop :=
  match tev.2 with EConnect _ => True | _ => False end.

#[global] Instance is_connect_dec tev : Decision (is_connect tev).
Proof. unfold is_connect. destruct (tev.2); apply _. Defined.

(** Some edge leaves [a] on handle [h]. *)
Definition has_handle_edge (a h : string) (es : list Edge) : Prop :=
  Exists (λ e, edge_source e = a ∧ edge_sourceHandle e = Some h) es.

(** ** Cleared relationship fields *)

(** Every node with id [a] reads [undefined] in field [k]. *)
Definition cleared (a k : string) (ns : list Node) : Prop :=
  ∀ n, n ∈ ns → node_id n = a → prop (node_data n) k = VUndefined.

Definition present (a : string) (ns : list Node) : Prop :=
  ∃ n, n ∈ ns ∧ node_id n = a.

(** A step that keeps the edges and either keeps the nodes or clears one
    relationship field, on a node whose id is in [S]. *)
Definition clearing_step (S : string → Prop) (f : World → World) : Prop :=
  ∀ w, edges (f w) = edges w ∧ selectedNode (f w) = selectedNode w ∧
       (nodes (f w) = nodes w ∨
        ∃ s t h, S (node_id s) ∧ nodes (f w) = relate_nodes s t h true (nodes w)).

Definition relationship_keys : list string := ["childId"; "trueChildId"; "falseChildId"].

(** [n'] is [n] up to its relationship fields. *)
Definition same_but_children (n n' : Node) : Prop :=
  node_id n' = node_id n ∧ node_type n' = node_type n ∧
  node_position n' = node_position n ∧
  ∀ k, k ∉ relationship_keys → node_data n' !! k = node_data n !! k.

(** [n'] is [n] up to its relationship fields, and [n] itself unless its
    id is in [S]. *)
Definition kept_up_to (S : string → Prop) (n n' : Node) : Prop :=
  same_but_children n n' ∧ (¬ S (node_id n) → n' = n).

(** Node [a] is the source of an edge of [es] that points to [nodeId]. *)
Definition counterpart (nodeId : string) (es : list Edge) (a : string) : Prop :=
  ∃ e, e ∈ es ∧ edge_target e = nodeId ∧ edge_source e = a.

(** ** Position writes and the debounce timer *)

#[global] Instance Query_eq_dec : EqDecision Query.
Proof. solve_decision. Defined.
#[global] Instance Event_eq_dec : EqDecision Event.
Proof. solve_decision. Defined.

(** A position-change event: a nodes-change event that removes nothing and
    carries at least one position. *)
Definition is_move_event (tev : nat * UiEvent) : Prop :=
  match tev.2 with
  | ENodesChange cs => Forall (λ c, ¬ is_remove_n c) cs ∧ Exists is_position_change cs
  | _ => False
  end.

(** Each event comes less than 500ms after the one before it, the first
    one after time [last]. *)
Fixpoint rapid (last : nat) (evs : list (nat * UiEvent)) : Prop :=
  match evs with
  | [] => True
  | tev :: evs' => (last ≤ tev.1 ∧ tev.1 < last + 500)%nat ∧ rapid tev.1 evs'
  end.

Fixpoint last_time (t : nat) (evs : list (nat * UiEvent)) : nat :=
  match evs with
  | [] => t
  | tev :: evs' => last_time tev.1 evs'
  end.

Definition position_write (n : Node) (ok : bool) : Event :=
  EvRequest (QUpdateNodePosition (node_id n) (pos_x (node_position n))
               (pos_y (node_position n))) ok.

(** Whether the store accepted a request, and the outcomes of [n]
    consecutive requests from request number [r] on. *)
Definition accepted (r : Reply) : bool :=
  match r with ROk _ => true | RErr => false end.

Fixpoint answered (net : nat → Reply) (r n : nat) : list bool :=
  match n with
  | O => []
  | S n' => accepted (net r) :: answered net (S r) n'
  end.

(** The trace of one batch written by [updateGraphData]: one position
    write per node, each with its own outcome. *)
Definition batch (ns : list Node) (oks : list bool) : list Event :=
  [EvUpdateStart] ++ zip_with position_write ns oks ++ [EvUpdateEnd].

Definition batches (tr : list Event) : nat :=
  length (filter (λ e, e = EvUpdateStart) tr).

(** The timer is armed for [t + 500] with the current nodes, at time [t]. *)
Definition armed (t : nat) (w : World) : Prop :=
  ∃ tm, positionUpdateTimeoutRef w = Some tm ∧ timer_due tm = (t + 500)%nat ∧
        timer_nodes tm = nodes w ∧ clock w = t.

(** No timer is due at time [t], and the clock has not passed [t]. *)
Definition quiet (t : nat) (w : World) : Prop :=
  (clock w ≤ t)%nat ∧
  match positionUpdateTimeoutRef w with
  | Some tm => (t < timer_due tm)%nat
  | None => True
  end.

(** What a run leaves outside the view. *)
Definition outside (w : World) := (db_nodes w, db_edges w, requests w, trace w).

(** * Example worlds *)

Module Examples.

Definition origin : XYPosition := {| pos_x := 0; pos_y := 0 |}.

Definition mk_node (i t : string) : Node :=
  {| node_id := i; node_type := VStr t; node_position := origin;
     node_data := {[ "label" := VStr i; "type" := VStr t ]} |}.

Definition mk_row (t : string) : NodeRow :=
  {| row_graph_id := "g"; row_label := "n"; row_position_x := 0;
     row_position_y := 0; row_data := Some {[ "type" := JStr t ]} |}.

Definition mk_world (ns : list Node) (es : list Edge) (sel : option Node) : World :=
  {| nodes := ns; edges := es; selectedNode := sel;
     positionUpdateTimeoutRef := None; clock := 0;
     db_nodes := list_to_map ((λ n, (node_id n,
                    {| row_graph_id := "g"; row_label := node_id n;
                       row_position_x := pos_x (node_position n);
                       row_position_y := pos_y (node_position n);
                       row_data := Some (encode {[ "type" := node_type n ]}) |})) <$> ns);
     db_edges := list_to_map ((λ e, (edge_id e,
                    {| row_source_node_id := edge_source e;
                       row_target_node_id := edge_target e |})) <$> es);
     requests := 0; trace := [] |}.

(** A store that always succeeds and hands out the ids [n0], [n1], ... *)
Definition net_up (k : nat) : Reply := ROk ("n" +:+ pretty k).

(** A store that is unreachable. *)
Definition net_down (k : nat) : Reply := RErr.

Definition connect (s t : string) (h : option string) : UiEvent :=
  EConnect {| conn_source := s; conn_target := t; conn_sourceHandle := h |}.

(** Nodes A ([analysis]), B and C ([prompt]); no edges. *)
Definition w_abc : World :=
  mk_world [mk_node "A" "analysis"; mk_node "B" "prompt"; mk_node "C" "prompt"] [] None.

(** Nodes D ([conditional]), E and F ([prompt]); no edges. *)
Definition w_def : World :=
  mk_world [mk_node "D" "conditional"; mk_node "E" "prompt"; mk_node "F" "prompt"] [] None.

End Examples.

Module AddNode.

(** A (analysis) already has the edge A→B, its [childId] is B, and A is
    selected. *)
Definition a_node : Node :=
  {| node_id := "A"; node_type := VStr "analysis"; node_position := Examples.origin;
     node_data := {[ "label" := VStr "A"; "type" := VStr "analysis";
                     "childId" := VStr "B" ]} |}.

Definition e_ab : Edge :=
  {| edge_id := "e1"; edge_source := "A"; edge_target := "B"; edge_sourceHandle := None |}.

Definition w_selected_analysis : World :=
  Examples.mk_world [a_node; Examples.mk_node "B" "prompt"] [e_ab] (Some a_node).

(** D (conditional) already has the edge D→E on handle [true], and D is
    selected. *)
Definition d_node : Node :=
  {| node_id := "D"; node_type := VStr "conditional"; node_position := Examples.origin;
     node_data := {[ "label" := VStr "D"; "type" := VStr "conditional";
                     "trueChildId" := VStr "E" ]} |}.

Definition e_de : Edge :=
  {| edge_id := "e1"; edge_source := "D"; edge_target := "E";
     edge_sourceHandle := Some "true" |}.

Definition w_selected_conditional : World :=
  Examples.mk_world [d_node; Examples.mk_node "E" "prompt"] [e_de] (Some d_node).

End AddNode.

Module Deletion.

(** A (analysis, child B), D (conditional, true child B), B and C
    (prompt), with edges A→B, D→B on handle [true] and D→C on handle
    [false]; B is selected. *)
Definition d_node : Node :=
  {| node_id := "D"; node_type := VStr "conditional"; node_position := Examples.origin;
     node_data := {[ "label" := VStr "D"; "type" := VStr "conditional";
                     "trueChildId" := VStr "B"; "falseChildId" := VStr "C" ]} |}.

Definition e_db : Edge :=
  {| edge_id := "e2"; edge_source := "D"; edge_target := "B";
     edge_sourceHandle := Some "true" |}.

Definition e_dc : Edge :=
  {| edge_id := "e3"; edge_source := "D"; edge_target := "C";
     edge_sourceHandle := Some "false" |}.

Definition b_node : Node := Examples.mk_node "B" "prompt".

Definition w_graph : World :=
  Examples.mk_world [AddNode.a_node; d_node; b_node; Examples.mk_node "C" "prompt"]
    [AddNode.e_ab; e_db; e_dc] (Some b_node).

End Deletion.

Module Dragging.

Definition move (i : string) (x y : Z) : NodeChange :=
  NCPosition i (Some {| pos_x := x; pos_y := y |}).

(** Node A is dragged at 0ms, 100ms and 400ms; B moves with it at 400ms. *)
Definition drag : list (nat * UiEvent) :=
  [(100, ENodesChange [move "A" 20 20]);
   (400, ENodesChange [move "A" 30 35; move "B" 7 8])].

End Dragging.

(** * Two claims as they are written *)

(** The [type] stored in the payload of a fetched row. *)
Definition stored_type (row : NodeRow) : JsVal :=
  prop (decode (default ∅ (row_data row))) "type".

Definition recognised_type (v : JsVal) : Prop :=
  v = VStr "prompt" ∨ v = VStr "analysis" ∨ v = VStr "conditional".

(** The claim as it is written: an absent or unrecognised stored type
    yields a [prompt] node. *)
Definition unrecognised_type_defaults_to_prompt : Prop :=
  ∀ (i : string) (row : NodeRow),
    ¬ recognised_type (stored_type row) →
    node_type (flowNode i row) = VStr "prompt".

(** The claim as it is written: the field is cleared only when the remote
    delete of the edge succeeded. *)
Definition field_cleared_only_after_delete_succeeds : Prop :=
  ∀ (net : nat → Reply) (graphId : string) (w : World) (i : string)
    (edge : Edge) (s t : Node) (k : string),
    js_find (λ e, edge_id e = i) (edges w) = Some edge →
    js_find (λ n, node_id n = edge_source edge) (nodes w) = Some s →
    js_find (λ n, node_id n = edge_target edge) (nodes w) = Some t →
    relationship_field s (handle_or_undefined (edge_sourceHandle edge)) = Some k →
    prop (node_data s) k ≠ VUndefined →
    let w' := (dispatch net graphId (EEdgesChange [ECRemove i]) w).2 in
    present (node_id s) (nodes w') →
    cleared (node_id s) k (nodes w') →
    EvRequest (QDeleteEdge i) true ∈ trace w'.

(** * Vocabulary for the rest of the component *)

(** The node [handleAddNode] adds to the view for the row the store
    created under [nid]. *)
Definition added_node (type label nid : string) : Node :=
  {| node_id := nid; node_position := center; node_type := VStr type;
     node_data :=
       if decide (type = "prompt")
       then {[ "label" := VStr label; "type" := VStr type;
               "prompt" := VStr ""; "onPromptChange" := VFun "onPromptChange" ]}
       else {[ "label" := VStr label; "type" := VStr type ]} |}.

(** The store answers every request, never with an error. *)
Definition store_up (net : nat → Reply) : Prop := ∀ k, net k ≠ RErr.

(** The tables of the store. *)
Definition tables (w : World) := (db_nodes w, db_edges w).

(** The rows a load reads: the node rows of the graph, and the edge rows
    whose source is one of them. *)
Definition graph_rows (graphId : string) (w : World) : list (string * NodeRow) :=
  filter (λ r, row_graph_id r.2 = graphId) (map_to_list (db_nodes w)).

Definition graph_edge_rows (graphId : string) (w : World) : list (string * EdgeRow) :=
  filter (λ r, row_source_node_id r.2 ∈ (graph_rows graphId w).*1)
    (map_to_list (db_edges w)).

(** A node whose payload carries none of the callbacks the graph never
    builds, and carries [onPromptChange] only if it is a [prompt] node. *)
Definition inert (n : Node) : Prop :=
  prop (node_data n) "onLabelChange" = VUndefined ∧
  prop (node_data n) "onStatesChange" = VUndefined ∧
  prop (node_data n) "onConditionalChange" = VUndefined ∧
  (node_type n ≠ VStr "prompt" → prop (node_data n) "onPromptChange" = VUndefined).

Definition callback_keys : list string :=
  ["onLabelChange"; "onStatesChange"; "onConditionalChange"; "onPromptChange"].

#[global] Instance EdgeChange_eq_dec : EqDecision EdgeChange.
Proof. solve_decision. Defined.

(** What one turn of the loop of [onEdgesChangeCallback] does to the node
    list [cur]: the edge and its endpoints are looked up in the lists the
    callback closed over. *)
Definition unrelate (ns : list Node) (es : list Edge) (cur : list Node) (c : EdgeChange)
  : list Node :=
  match js_find (λ e, edge_id e = ec_id c) es with
  | Some edge =>
      match js_find (λ n, node_id n = edge_source edge) ns,
            js_find (λ n, node_id n = edge_target edge) ns with
      | Some s, Some t =>
          relate_nodes s t (handle_or_undefined (edge_sourceHandle edge)) true cur
      | _, _ => cur
      end
  | None => cur
  end.

(** The turn for change [c] writes field [k] of the node with id [a]. *)
Definition clears_field (ns : list Node) (es : list Edge) (c : EdgeChange) (a k : string)
  : Prop :=
  ∃ edge s t,
    js_find (λ e, edge_id e = ec_id c) es = Some edge ∧
    js_find (λ n, node_id n = edge_source edge) ns = Some s ∧
    js_find (λ n, node_id n = edge_target edge) ns = Some t ∧
    node_id s = a ∧
    relationship_field s (handle_or_undefined (edge_sourceHandle edge)) = Some k.

(** Node [n'] is node [n] after the turns for the changes [l]: the fields
    the turns write read [undefined], the others are as in [n]. *)
Definition after_turns (ns : list Node) (es : list Edge) (l : list EdgeChange)
    (a : string) (n n' : Node) : Prop :=
  node_id n' = node_id n ∧ node_type n' = node_type n ∧
  ∀ k, ((∃ c, c ∈ l ∧ clears_field ns es c a k) → prop (node_data n') k = VUndefined) ∧
       ((¬ ∃ c, c ∈ l ∧ clears_field ns es c a k) →
        prop (node_data n') k = prop (node_data n) k) ∧
       (prop (node_data n') k = VUndefined ∨
        prop (node_data n') k = prop (node_data n) k).

(** The row a position write leaves behind, by the answer of the store. *)
Definition written (r : Reply) (x y : Z) (row : NodeRow) : NodeRow :=
  match r with ROk _ => set_row_position x y row | RErr => row end.

(** ** More example worlds *)

Module ThirdChild.

(** D (conditional) with both handles taken; D is selected. *)
Definition e_df : Edge :=
  {| edge_id := "e2"; edge_source := "D"; edge_target := "F";
     edge_sourceHandle := Some "false" |}.

Definition w_full : World :=
  Examples.mk_world
    [Deletion.d_node; Examples.mk_node "E" "prompt"; Examples.mk_node "F" "prompt"]
    [AddNode.e_de; e_df] (Some Deletion.d_node).

End ThirdChild.

Module FailedCreate.

(** The store accepts the first request and refuses every later one. *)
Definition net_once (k : nat) : Reply :=
  match k with 0%nat => ROk "x" | _ => RErr end.

End FailedCreate.

Module PartialBatch.

(** The store refuses the first request and accepts the later ones. *)
Definition net_late (k : nat) : Reply :=
  match k with 0%nat => RErr | _ => ROk "x" end.

Definition moved : list Node :=
  [set_node_position (Examples.mk_node "A" "analysis") {| pos_x := 3; pos_y := 4 |};
   set_node_position (Examples.mk_node "B" "prompt") {| pos_x := 5; pos_y := 6 |}].

End PartialBatch.

Module Loading.

(** The store of a graph ["g"] with the conditional node D and its two
    children, as [Deletion.d_node] and the edges D→B, D→C describe it. *)
Definition d_row : NodeRow :=
  {| row_graph_id := "g"; row_label := "D"; row_position_x := 1; row_position_y := 2;
     row_data := Some {[ "type" := JStr "conditional"; "trueChildId" := JStr "B";
                         "falseChildId" := JStr "C" ]} |}.

Definition w_stored : World :=
  {| nodes := []; edges := []; selectedNode := None;
     positionUpdateTimeoutRef := None; clock := 0;
     db_nodes := {[ "D" := d_row; "B" := Examples.mk_row "prompt";
                    "C" := Examples.mk_row "prompt" ]};
     db_edges := {[ "e2" := {| row_source_node_id := "D"; row_target_node_id := "B" |};
                    "e3" := {| row_source_node_id := "D"; row_target_node_id := "C" |} ]};
     requests := 0; trace := [] |}.

(** The store answers the first two reads and fails the third. *)
Definition net_two (k : nat) : Reply :=
  match k with 0%nat | 1%nat => ROk "x" | _ => RErr end.

End Loading.

(** * Properties *)

(** ** Running monadic code *)

Lemma bind_run {A B} (m : M A) (f : A → M B) (w : World) :
  (m ≫= f) w = f (m w).1 (m w).2.
Proof. unfold mbind, M_bind. by destruct (m w). Qed.

Lemma ret_run {A} (a : A) (w : World) : (mret a : M A) w = (a, w).
Proof. done. Qed.

Ltac run_step := rewrite ?bind_run, ?ret_run; simpl.

Lemma view_nodes w w' : view w' = view w → nodes w' = nodes w.
Proof. unfold view. congruence. Qed.
Lemma view_edges w w' : view w' = view w → edges w' = edges w.
Proof. unfold view. congruence. Qed.
Lemma view_selected w w' : view w' = view w → selectedNode w' = selectedNode w.
Proof. unfold view. congruence. Qed.
Lemma view_timer w w' :
  view w' = view w → positionUpdateTimeoutRef w' = positionUpdateTimeoutRef w.
Proof. unfold view. congruence. Qed.
Lemma view_clock w w' : view w' = view w → clock w' = clock w.
Proof. unfold view. congruence. Qed.

Lemma view_with_nodes f w w' :
  view w' = view w → view (with_nodes f w') = view (with_nodes f w).
Proof. unfold view. simpl. congruence. Qed.
Lemma view_with_edges f w w' :
  view w' = view w → view (with_edges f w') = view (with_edges f w).
Proof. unfold view. simpl. congruence. Qed.

Lemma for_of_view {A} (l : list A) (f : A → M unit) :
  (∀ x w, view (f x w).2 = view w) → ∀ w, view (for_of l f w).2 = view w.
Proof.
  intros Hf. induction l as [|x l IH]; intros w; simpl; [done|].
  run_step. by rewrite IH, Hf.
Qed.

Section Frames.
Variable net : nat → Reply.
Variable graphId : string.

Lemma db_select_node_data_view i w : view (db_select_node_data net i w).2 = view w.
Proof.
  unfold db_select_node_data, request, get_world. run_step.
  destruct (net (requests w)); [done|]. by destruct (db_nodes w !! i).
Qed.

Lemma db_update_node_data_view i d w : view (db_update_node_data net i d w).2 = view w.
Proof. unfold db_update_node_data, request. run_step. by destruct (net (requests w)). Qed.

Lemma db_update_node_position_view i x y w :
  view (db_update_node_position net i x y w).2 = view w.
Proof. unfold db_update_node_position, request. run_step. by destruct (net (requests w)). Qed.

Lemma db_delete_node_view i w : view (db_delete_node net i w).2 = view w.
Proof. unfold db_delete_node, request. run_step. by destruct (net (requests w)). Qed.

Lemma deleteEdge_view i w : view (deleteEdge net i w).2 = view w.
Proof.
  unfold deleteEdge, db_delete_edge, request. run_step. by destruct (net (requests w)).
Qed.

Lemma db_insert_node_view l x y d w :
  view (db_insert_node net graphId l x y d w).2 = view w.
Proof.
  unfold db_insert_node, request, get_world. run_step.
  destruct (net (requests w)); [done|]. by destruct (db_nodes w !! newId).
Qed.

Lemma createEdge_view s t h w : view (createEdge net s t h w).2 = view w.
Proof.
  unfold createEdge, db_insert_edge, request, get_world. run_step.
  destruct (net (requests w)); [done|]. by destruct (db_edges w !! newId).
Qed.

End Frames.

(** ** What the callbacks do to the rendered state *)

Section Local.
Variable net : nat → Reply.
Variable graphId : string.

Lemma updateNodeData_view i d w :
  view (updateNodeData net i d w).2 = view (with_nodes (fmap (patch_node i d)) w).
Proof.
  unfold updateNodeData, setNodes. run_step.
  set (w1 := with_nodes _ w).
  pose proof (db_select_node_data_view net i w1) as Hsel.
  destruct (db_select_node_data net i w1) as [[data|] w2]; simpl in *; [|done].
  by rewrite db_update_node_data_view.
Qed.

Lemma updateNodeRelationships_view s t h r w :
  view (updateNodeRelationships net s t h r w).2 = view (with_nodes (relate_nodes s t h r) w).
Proof.
  unfold updateNodeRelationships, relate_nodes, relationship_field.
  repeat case_decide; run_step; rewrite ?updateNodeData_view; try done.
  all: by destruct w.
Qed.

Lemma createEdge_result s t h w :
  (createEdge net s t h w).1 = None ∨
  ∃ i, (createEdge net s t h w).1
       = Some {| edge_id := i; edge_source := s; edge_target := t;
                 edge_sourceHandle := handle_or_undefined h |}.
Proof.
  unfold createEdge, db_insert_edge, request, get_world. run_step.
  destruct (net (requests w)) as [|i]; simpl; [by left|].
  destruct (db_edges w !! i); simpl; [by left|]. right. by exists i.
Qed.

(** [onConnect] either leaves the rendered state alone, or patches the
    source node and replaces the edges its filter rejects by the new edge. *)
Lemma onConnect_view ns es p w :
  view (onConnect net ns es p w).2 = view w ∨
  ∃ s t i,
    js_find (λ n, node_id n = conn_source p) ns = Some s ∧
    js_find (λ n, node_id n = conn_target p) ns = Some t ∧
    node_type s ≠ VStr "prompt" ∧
    view (onConnect net ns es p w).2 =
    view (with_edges (λ cur, filter (connect_keeps s p) cur
                             ++ [new_edge i s t (conn_sourceHandle p)])
            (with_nodes (relate_nodes s t (conn_sourceHandle p) false) w)).
Proof.
  unfold onConnect.
  destruct (js_find _ ns) as [s|] eqn:Hs; [|by left].
  destruct (js_find (λ n, node_id n = conn_target p) ns) as [t|] eqn:Ht; [|by left].
  case_decide as Hprompt; [by left|].
  run_step.
  set (m1 := if decide (node_type s = VStr "analysis") then _ else _).
  assert (Hm1 : ∀ w0, view (m1 w0).2 = view w0).
  { intros w0. subst m1. case_decide; [|done].
    apply for_of_view. intros x w1. run_step. apply deleteEdge_view. }
  set (m2 := if decide (node_type s = VStr "conditional" ∧ _) then _ else _).
  assert (Hm2 : ∀ w0, view (m2 w0).2 = view w0).
  { intros w0. subst m2. case_decide; [|done].
    apply for_of_view. intros x w1. run_step. apply deleteEdge_view. }
  set (w2 := (m2 (m1 w).2).2).
  assert (Hw2 : view w2 = view w) by (subst w2; by rewrite Hm2, Hm1).
  pose proof (createEdge_view net (node_id s) (node_id t) (conn_sourceHandle p) w2) as Hcv.
  destruct (createEdge_result (node_id s) (node_id t) (conn_sourceHandle p) w2)
    as [Hnone|[i Hsome]].
  - left. destruct (createEdge _ _ _ _ w2) as [r w3]. simpl in *. subst r.
    simpl. congruence.
  - right. exists s, t, i. split_and!; try done.
    destruct (createEdge _ _ _ _ w2) as [r w3]. simpl in *. subst r.
    run_step. unfold setEdges. simpl.
    apply view_with_edges. rewrite updateNodeRelationships_view.
    apply view_with_nodes. congruence.
Qed.

End Local.

(** ** Lists: [find] and [filter] *)

Lemma js_find_Some {A} (P : A → Prop) `{!∀ x, Decision (P x)} (l : list A) x :
  js_find P l = Some x → P x ∧ x ∈ l.
Proof.
  induction l as [|y l IH]; simpl; [done|].
  case_decide; intros Hx.
  - simplify_eq. split; [done|]. apply list_elem_of_here.
  - destruct (IH Hx). split; [done|]. by apply list_elem_of_further.
Qed.

Lemma js_find_is_Some {A} (P : A → Prop) `{!∀ x, Decision (P x)} (l : list A) x :
  x ∈ l → P x → is_Some (js_find P l).
Proof.
  induction 1 as [y l|y z l Hin IH]; intros HP; simpl; case_decide; eauto; done.
Qed.

Lemma js_find_fmap {A} (P : A → Prop) `{!∀ x, Decision (P x)} (f : A → A) (l : list A) :
  (∀ x, P (f x) ↔ P x) → js_find P (f <$> l) = f <$> js_find P l.
Proof.
  intros Hf. induction l as [|y l IH]; simpl; [done|].
  destruct (decide (P y)) as [Hy|Hy].
  - rewrite decide_True; [done|]. by apply Hf.
  - rewrite decide_False; [done|]. by rewrite Hf.
Qed.

Lemma js_find_filter_ne {A} (P Q : A → Prop) `{!∀ x, Decision (P x)}
    `{!∀ x, Decision (Q x)} (l : list A) :
  (∀ x, P x → Q x) → js_find P (filter Q l) = js_find P l.
Proof.
  intros HPQ. induction l as [|y l IH]; simpl; [done|].
  destruct (decide (Q y)) as [HQ|HQ].
  - rewrite filter_cons_True by done. simpl. by rewrite IH.
  - rewrite filter_cons_False by done. rewrite IH.
    rewrite decide_False; [done|]. intros HP. by apply HQ, HPQ.
Qed.

Lemma filter_absorb {A} (P Q : A → Prop) `{!∀ x, Decision (P x)}
    `{!∀ x, Decision (Q x)} (l : list A) :
  (∀ x, P x → Q x) → filter P (filter Q l) = filter P l.
Proof.
  intros HPQ. rewrite list_filter_filter. apply list_filter_iff.
  intros x. split; [by intros [? _]|]. intros HP. split; [done|]. by apply HPQ.
Qed.

Lemma filter_none {A} (P : A → Prop) `{!∀ x, Decision (P x)} (l : list A) :
  (∀ x, x ∈ l → ¬ P x) → filter P l = [].
Proof.
  induction l as [|y l IH]; intros Hl; [done|].
  rewrite filter_cons_False by (apply Hl, list_elem_of_here).
  apply IH. intros x Hx. by apply Hl, list_elem_of_further.
Qed.

Lemma filter_exclusive {A} (P Q : A → Prop) `{!∀ x, Decision (P x)}
    `{!∀ x, Decision (Q x)} (l : list A) :
  (∀ x, P x → ¬ Q x) → filter P (filter Q l) = [].
Proof.
  intros HPQ. apply filter_none. intros x [HQ _]%list_elem_of_filter HP.
  by apply (HPQ x).
Qed.

Lemma filter_single_out {A} (P : A → Prop) `{!∀ x, Decision (P x)} (x : A) :
  ¬ P x → filter P [x] = [].
Proof. intros Hx. by rewrite filter_cons_False. Qed.

Lemma filter_single_in {A} (P : A → Prop) `{!∀ x, Decision (P x)} (x : A) :
  P x → filter P [x] = [x].
Proof. intros Hx. by rewrite filter_cons_True. Qed.

(** ** JSON encoding *)

Lemma lookup_encode (d : Payload) k : encode d !! k = d !! k ≫= json_of_value.
Proof. unfold encode. apply lookup_omap. Qed.

Lemma lookup_decode (j : JsonPayload) k : decode j !! k = value_of_json <$> j !! k.
Proof. unfold decode. apply lookup_fmap. Qed.

Lemma json_of_value_of_json j : json_of_value (value_of_json j) = Some j.
Proof. by destruct j. Qed.

Lemma encode_decode (j : JsonPayload) : encode (decode j) = j.
Proof.
  apply map_eq. intros k. rewrite lookup_encode, lookup_decode.
  destruct (j !! k) as [x|]; simpl; [apply json_of_value_of_json|done].
Qed.

(** Encoding a merge: a key the new object does not mention is stored as
    it was, a key it mentions is stored as the encoding of the new value. *)
Lemma lookup_encode_spread_None (j : JsonPayload) (d : Payload) k :
  d !! k = None → encode (spread (decode j) d) !! k = j !! k.
Proof.
  intros Hk. rewrite lookup_encode. unfold spread.
  rewrite lookup_union_r by done. rewrite lookup_decode.
  destruct (j !! k) as [x|]; simpl; [apply json_of_value_of_json|done].
Qed.

Lemma lookup_encode_spread_Some (a d : Payload) k v :
  d !! k = Some v → encode (spread a d) !! k = json_of_value v.
Proof.
  intros Hk. rewrite lookup_encode. unfold spread.
  by erewrite lookup_union_Some_l.
Qed.

(** What [{ ...currentNode.data }] spreads: a [null] column spreads nothing. *)
Lemma default_decode (o : option JsonPayload) :
  default ∅ (decode <$> o) = decode (default ∅ o).
Proof. destruct o; simpl; [done|]. unfold decode. by rewrite fmap_empty. Qed.

Lemma prop_decode (j : JsonPayload) k :
  prop (decode j) k = from_option value_of_json VUndefined (j !! k).
Proof. unfold prop. rewrite lookup_decode. by destruct (j !! k). Qed.

(** Reading back a merge with one key: the other keys read as before, and
    a string written under the key reads as that string. *)
Lemma prop_stored_merge_ne (j : JsonPayload) f v k :
  f ≠ k → prop (decode (encode (spread (decode j) {[ f := v ]}))) k = prop (decode j) k.
Proof.
  intros Hne. rewrite !prop_decode, lookup_encode_spread_None; [done|].
  by apply lookup_singleton_ne.
Qed.

Lemma prop_stored_merge_str (a : Payload) f x :
  prop (decode (encode (spread a {[ f := VStr x ]}))) f = VStr x.
Proof.
  rewrite prop_decode. erewrite lookup_encode_spread_Some; [|apply lookup_singleton_eq].
  done.
Qed.

(** ** Payload reads after a patch *)

Lemma prop_spread_singleton d k v : prop (spread d {[ k := v ]}) k = v.
Proof.
  unfold prop, spread. erewrite lookup_union_Some_l; [done|].
  apply lookup_singleton_eq.
Qed.

Lemma lookup_spread_singleton_ne (d : Payload) k k' (v : JsVal) :
  k ≠ k' → spread d {[ k := v ]} !! k' = d !! k'.
Proof.
  intros Hne. unfold spread.
  rewrite lookup_union_r; [done|]. by rewrite lookup_singleton_ne.
Qed.

Lemma prop_spread_singleton_ne d k k' v :
  k ≠ k' → prop (spread d {[ k := v ]}) k' = prop d k'.
Proof. intros Hne. unfold prop. by rewrite lookup_spread_singleton_ne. Qed.

Lemma patch_node_id i d n : node_id (patch_node i d n) = node_id n.
Proof. unfold patch_node. by case_decide. Qed.

Lemma patch_node_type i d n : node_type (patch_node i d n) = node_type n.
Proof. unfold patch_node. by case_decide. Qed.

Lemma patch_node_position i d n : node_position (patch_node i d n) = node_position n.
Proof. unfold patch_node. by case_decide. Qed.

Lemma patch_node_other i d n : node_id n ≠ i → patch_node i d n = n.
Proof. unfold patch_node. by case_decide. Qed.

Lemma patch_node_prop i k v n :
  node_id n = i → prop (node_data (patch_node i {[ k := v ]} n)) k = v.
Proof.
  intros Hi. unfold patch_node. rewrite decide_True by done. simpl.
  apply prop_spread_singleton.
Qed.

Lemma patch_node_prop_ne i k k' v n :
  k ≠ k' → prop (node_data (patch_node i {[ k := v ]} n)) k' = prop (node_data n) k'.
Proof.
  intros Hne. unfold patch_node. case_decide; [|done]. simpl.
  by apply prop_spread_singleton_ne.
Qed.

(** The node found under an id after [relate_nodes] is the old one, patched. *)
Lemma js_find_relate_nodes s t h r a ns :
  js_find (λ n, node_id n = a) (relate_nodes s t h r ns)
  = match relationship_field s h with
    | Some k => patch_node (node_id s) {[ k := child_value t r ]}
                  <$> js_find (λ n, node_id n = a) ns
    | None => js_find (λ n, node_id n = a) ns
    end.
Proof.
  unfold relate_nodes. destruct (relationship_field s h) as [k|]; [|done].
  apply (js_find_fmap (λ n, node_id n = a)). intros x. by rewrite patch_node_id.
Qed.

(** ** The single-child invariant of an [analysis] node *)

Lemma connect_keeps_other s p e :
  edge_source e ≠ node_id s → connect_keeps s p e.
Proof. unfold connect_keeps. intros Hne. repeat case_decide; tauto. Qed.

(** Edges leaving another node survive the filter of [onConnect], and the
    new edge does not leave that node. *)
Lemma outgoing_connect_other a s t i p es :
  a ≠ node_id s →
  outgoing a (filter (connect_keeps s p) es ++ [new_edge i s t (conn_sourceHandle p)])
  = outgoing a es.
Proof.
  intros Hne. unfold outgoing. rewrite filter_app.
  rewrite filter_absorb by (intros x Hx; apply connect_keeps_other; congruence).
  rewrite filter_single_out by (simpl; congruence).
  apply app_nil_r.
Qed.

Lemma relationship_field_analysis s h :
  node_type s = VStr "analysis" → relationship_field s h = Some "childId".
Proof. intros Hs. unfold relationship_field. by rewrite decide_True. Qed.

Lemma analysis_inv_connect a s t i p ns es :
  js_find (λ n, node_id n = conn_source p) ns = Some s →
  analysis_inv_on a ns es →
  analysis_inv_on a (relate_nodes s t (conn_sourceHandle p) false ns)
    (filter (connect_keeps s p) es ++ [new_edge i s t (conn_sourceHandle p)]).
Proof.
  intros Hs Hinv n' Hn' Htype.
  rewrite js_find_relate_nodes in Hn'.
  destruct (js_find_Some _ _ _ Hs) as [Hsid _].
  destruct (decide (a = node_id s)) as [->|Hne].
  - (* the source of the connection is the node itself *)
    rewrite Hsid in Hn'. rewrite Hs in Hn'.
    assert (node_type s = VStr "analysis") as Hsa.
    { destruct (relationship_field s _); simpl in Hn'; simplify_eq;
        by rewrite ?patch_node_type in Htype. }
    rewrite (relationship_field_analysis _ _ Hsa) in Hn'. simpl in Hn'.
    simplify_eq.
    unfold outgoing. rewrite filter_app.
    rewrite filter_exclusive.
    2:{ intros x Hx. unfold connect_keeps. rewrite decide_True by done. tauto. }
    rewrite filter_single_in by done. simpl.
    by apply patch_node_prop.
  - rewrite outgoing_connect_other by done.
    assert (∃ n, js_find (λ n, node_id n = a) ns = Some n ∧ n' = n) as (n & Hn & ->).
    { destruct (relationship_field s _) as [k|]; [|by eauto].
      destruct (js_find (λ n, node_id n = a) ns) as [n|] eqn:Hn; [|done].
      simpl in Hn'. simplify_eq. exists n. split; [done|].
      apply patch_node_other. destruct (js_find_Some _ _ _ Hn). congruence. }
    by apply Hinv.
Qed.

Section Analysis.
Variable net : nat → Reply.
Variable graphId : string.

Lemma onConnect_analysis_inv a p w :
  analysis_inv a w → analysis_inv a (onConnect net (nodes w) (edges w) p w).2.
Proof.
  intros Hinv. unfold analysis_inv.
  destruct (onConnect_view net (nodes w) (edges w) p w)
    as [Hv|(s & t & i & Hs & Ht & Hp & Hv)].
  - by rewrite (view_nodes _ _ Hv), (view_edges _ _ Hv).
  - rewrite (view_nodes _ _ Hv), (view_edges _ _ Hv). simpl.
    by apply analysis_inv_connect.
Qed.

End Analysis.

(** ** Timers leave the graph alone *)

Section Timers.
Variable net : nat → Reply.
Variable graphId : string.

Lemma updateGraphData_view ns es w : view (updateGraphData net ns es w).2 = view w.
Proof.
  unfold updateGraphData, onUpdateStart, onUpdateEnd. run_step.
  set (w1 := (for_of _ _ _).2). change (view w1 = view (log EvUpdateStart w)).
  subst w1. apply for_of_view.
  intros x w1. run_step. apply db_update_node_position_view.
Qed.

Lemma timer_callback_graph tm w :
  nodes (timer_callback net tm w).2 = nodes w ∧
  edges (timer_callback net tm w).2 = edges w.
Proof.
  unfold timer_callback, set_timer. run_step.
  pose proof (updateGraphData_view (timer_nodes tm) (timer_edges tm) w) as Hv.
  by rewrite (view_nodes _ _ Hv), (view_edges _ _ Hv).
Qed.

Lemma elapse_to_graph t w :
  nodes (elapse_to net t w).2 = nodes w ∧ edges (elapse_to net t w).2 = edges w.
Proof.
  unfold elapse_to, get_world, set_clock. run_step.
  destruct (positionUpdateTimeoutRef w) as [tm|]; [|done].
  case_decide; [|done]. run_step.
  apply (timer_callback_graph tm (with_clock _ w)).
Qed.

Lemma elapse_to_selected t w : selectedNode (elapse_to net t w).2 = selectedNode w.
Proof.
  unfold elapse_to, get_world, set_clock. run_step.
  destruct (positionUpdateTimeoutRef w) as [tm|]; [|done].
  case_decide; [|done]. run_step.
  unfold timer_callback, set_timer. run_step.
  by rewrite (view_selected _ _ (updateGraphData_view _ _ _)).
Qed.

(** A run of connect events keeps whatever each connect keeps. *)
Lemma run_connects_invariant (I : list Node → list Edge → Prop) :
  (∀ p w, I (nodes w) (edges w) →
          I (nodes (onConnect net (nodes w) (edges w) p w).2)
            (edges (onConnect net (nodes w) (edges w) p w).2)) →
  ∀ evs w, Forall is_connect evs → I (nodes w) (edges w) →
           I (nodes (run net graphId evs w).2) (edges (run net graphId evs w).2).
Proof.
  intros Hstep evs. induction evs as [|[t ev] evs IH]; intros w Hall HI; [done|].
  apply Forall_cons in Hall as [Hev Hall].
  unfold run. simpl. run_step. fold (run net graphId evs).
  apply IH; [done|].
  unfold step. simpl. run_step.
  destruct ev; try done. unfold dispatch, get_world. run_step.
  set (w1 := (elapse_to net t w).2).
  apply Hstep. subst w1.
  destruct (elapse_to_graph t w) as [-> ->]. done.
Qed.

End Timers.

(** C1. For every sequence of connect operations, after each operation the
    edge list holds at most one edge leaving an [analysis] node, and the
    node's [childId] is the target of that edge, or reads [undefined] when
    there is none.  The operations may connect from any node, at any times,
    and every request may succeed or fail; the invariant is assumed of the
    state the sequence starts in. *)
Theorem analysis_single_child_invariant (net : nat → Reply) (graphId a : string)
    (evs : list (nat * UiEvent)) (w : World) :
  Forall is_connect evs →
  analysis_inv a w →
  ∀ k, analysis_inv a (run net graphId (take k evs) w).2.
Proof.
  intros Hall Hinv k. unfold analysis_inv.
  apply (run_connects_invariant net graphId (analysis_inv_on a)); [| |done].
  - intros p w0. apply onConnect_analysis_inv.
  - by apply Forall_take.
Qed.

Lemma analysis_single_child_invariant_witness :
  let w' := (run Examples.net_up "g"
               (take 2 [(0, Examples.connect "A" "B" None);
                        (10, Examples.connect "A" "C" None)]) Examples.w_abc).2 in
  analysis_inv "A" w' ∧
  edges w' = [{| edge_id := "n4"; edge_source := "A"; edge_target := "C";
                 edge_sourceHandle := None |}].
Proof.
  split.
  - apply analysis_single_child_invariant.
    + repeat (constructor; [exact I|]). constructor.
    + intros n Hn _. vm_compute in Hn. simplify_eq. reflexivity.
  - vm_compute. reflexivity.
Defined.

(** ** The per-handle invariant of a [conditional] node *)

Lemma handle_or_undefined_ne h hh :
  h ≠ Some hh → handle_or_undefined h ≠ Some hh.
Proof. unfold handle_or_undefined. by destruct (handle_truthy h). Qed.

Lemma handle_edges_connect_other d hh s t i p es :
  d ≠ node_id s →
  handle_edges d hh (filter (connect_keeps s p) es ++ [new_edge i s t (conn_sourceHandle p)])
  = handle_edges d hh es.
Proof.
  intros Hne. unfold handle_edges. rewrite filter_app.
  rewrite filter_absorb by (intros x [Hx _]; apply connect_keeps_other; congruence).
  rewrite filter_single_out by (simpl; intros [? _]; congruence).
  apply app_nil_r.
Qed.

Lemma handle_edges_connect_miss hh s t i p es :
  node_type s = VStr "conditional" →
  conn_sourceHandle p ≠ Some hh →
  handle_edges (node_id s) hh
    (filter (connect_keeps s p) es ++ [new_edge i s t (conn_sourceHandle p)])
  = handle_edges (node_id s) hh es.
Proof.
  intros Hs Hh. unfold handle_edges. rewrite filter_app.
  rewrite filter_absorb.
  2:{ intros x [_ Hx]. unfold connect_keeps. rewrite Hs.
      repeat case_decide; try done. intros [_ Hx']. congruence. }
  rewrite filter_single_out.
  2:{ simpl. intros [_ Hx]. by apply (handle_or_undefined_ne _ _ Hh). }
  apply app_nil_r.
Qed.

Lemma handle_edges_connect_hit hh s t i p es :
  node_type s = VStr "conditional" →
  conn_sourceHandle p = Some hh →
  handle_truthy (Some hh) = true →
  handle_edges (node_id s) hh
    (filter (connect_keeps s p) es ++ [new_edge i s t (conn_sourceHandle p)])
  = [new_edge i s t (conn_sourceHandle p)].
Proof.
  intros Hs Hh Htruthy. unfold handle_edges. rewrite filter_app.
  rewrite filter_exclusive.
  2:{ intros x Hx. unfold connect_keeps. rewrite Hs, Hh.
      rewrite decide_False by done. rewrite decide_True by done. tauto. }
  rewrite filter_single_in; [done|].
  simpl. split; [done|]. rewrite Hh. unfold handle_or_undefined. by rewrite Htruthy.
Qed.

Lemma relationship_field_conditional s h :
  node_type s = VStr "conditional" →
  relationship_field s h =
    if decide (h = Some "true") then Some "trueChildId"
    else if decide (h = Some "false") then Some "falseChildId"
    else None.
Proof.
  intros Hs. unfold relationship_field. rewrite Hs.
  rewrite decide_False by done. by rewrite decide_True.
Qed.

Lemma conditional_inv_connect d s t i p ns es :
  js_find (λ n, node_id n = conn_source p) ns = Some s →
  conditional_inv_on d ns es →
  conditional_inv_on d (relate_nodes s t (conn_sourceHandle p) false ns)
    (filter (connect_keeps s p) es ++ [new_edge i s t (conn_sourceHandle p)]).
Proof.
  intros Hs Hinv n' Hn' Htype.
  rewrite js_find_relate_nodes in Hn'.
  destruct (js_find_Some _ _ _ Hs) as [Hsid _].
  destruct (decide (d = node_id s)) as [->|Hne].
  - rewrite Hsid in Hn'. rewrite Hs in Hn'.
    assert (node_type s = VStr "conditional") as Hsc.
    { destruct (relationship_field s _); simpl in Hn'; simplify_eq;
        by rewrite ?patch_node_type in Htype. }
    destruct (Hinv s) as [Htrue Hfalse]; [by rewrite Hsid|done|].
    rewrite (relationship_field_conditional _ _ Hsc) in Hn'.
    destruct (decide (conn_sourceHandle p = Some "true")) as [Ht|Ht];
      [|destruct (decide (conn_sourceHandle p = Some "false")) as [Hf|Hf]];
      simpl in Hn'; simplify_eq.
    + rewrite (handle_edges_connect_hit "true") by done.
      rewrite (handle_edges_connect_miss "false") by (done || congruence).
      split.
      * simpl. by apply patch_node_prop.
      * unfold mirrors. by rewrite patch_node_prop_ne.
    + rewrite (handle_edges_connect_miss "true") by (done || congruence).
      rewrite (handle_edges_connect_hit "false") by done.
      split.
      * unfold mirrors. by rewrite patch_node_prop_ne.
      * simpl. by apply patch_node_prop.
    + rewrite !handle_edges_connect_miss by done. done.
  - rewrite !handle_edges_connect_other by done.
    assert (∃ n, js_find (λ n, node_id n = d) ns = Some n ∧ n' = n) as (n & Hn & ->).
    { destruct (relationship_field s _) as [k|]; [|by eauto].
      destruct (js_find (λ n, node_id n = d) ns) as [n|] eqn:Hn; [|done].
      simpl in Hn'. simplify_eq. exists n. split; [done|].
      apply patch_node_other. destruct (js_find_Some _ _ _ Hn). congruence. }
    by apply Hinv.
Qed.

Lemma onConnect_conditional_inv net d p w :
  conditional_inv d w → conditional_inv d (onConnect net (nodes w) (edges w) p w).2.
Proof.
  intros Hinv. unfold conditional_inv.
  destruct (onConnect_view net (nodes w) (edges w) p w)
    as [Hv|(s & t & i & Hs & Ht & Hp & Hv)].
  - by rewrite (view_nodes _ _ Hv), (view_edges _ _ Hv).
  - rewrite (view_nodes _ _ Hv), (view_edges _ _ Hv). simpl.
    by apply conditional_inv_connect.
Qed.

(** C2. For every sequence of connect operations, after each operation the
    edge list holds at most one edge per handle [true] / [false] leaving a
    [conditional] node, and the node's [trueChildId] and [falseChildId] are
    the targets of those edges, or read [undefined] where there is none. *)
Theorem conditional_per_handle_invariant (net : nat → Reply) (graphId d : string)
    (evs : list (nat * UiEvent)) (w : World) :
  Forall is_connect evs →
  conditional_inv d w →
  ∀ k, conditional_inv d (run net graphId (take k evs) w).2.
Proof.
  intros Hall Hinv k. unfold conditional_inv.
  apply (run_connects_invariant net graphId (conditional_inv_on d)); [| |done].
  - intros p w0. apply onConnect_conditional_inv.
  - by apply Forall_take.
Qed.

Lemma conditional_per_handle_invariant_witness :
  let w' := (run Examples.net_up "g"
               (take 2 [(0, Examples.connect "D" "E" (Some "true"));
                        (10, Examples.connect "D" "F" (Some "true"))]) Examples.w_def).2 in
  conditional_inv "D" w' ∧
  edges w' = [{| edge_id := "n4"; edge_source := "D"; edge_target := "F";
                 edge_sourceHandle := Some "true" |}].
Proof.
  split.
  - apply conditional_per_handle_invariant.
    + repeat (constructor; [exact I|]). constructor.
    + intros n Hn _. vm_compute in Hn. simplify_eq. split; reflexivity.
  - vm_compute. reflexivity.
Defined.

(** ** Connecting from a [prompt] node *)

(** C5. A connection whose source node has type [prompt] is a silent
    no-op: the handler returns with the world as it was, so no request is
    issued, no edge is created or deleted in the store or in the view, and
    no payload is touched. *)
Theorem connect_from_prompt_is_noop (net : nat → Reply) (graphId : string)
    (params : Connection) (sourceNode : Node) (w : World) :
  js_find (λ n, node_id n = conn_source params) (nodes w) = Some sourceNode →
  node_type sourceNode = VStr "prompt" →
  dispatch net graphId (EConnect params) w = (tt, w).
Proof.
  intros Hs Hprompt. unfold dispatch, get_world. run_step.
  unfold onConnect. rewrite Hs.
  destruct (js_find (λ n, node_id n = conn_target params) (nodes w)); [|done].
  by rewrite decide_True.
Qed.

Lemma connect_from_prompt_is_noop_witness :
  dispatch Examples.net_up "g" (Examples.connect "B" "C" None) Examples.w_abc
  = (tt, Examples.w_abc).
Proof.
  apply (connect_from_prompt_is_noop _ _ _ (Examples.mk_node "B" "prompt")).
  - reflexivity.
  - reflexivity.
Defined.

(** ** Adding a node while a node is selected *)

(** C3. Adding a node while an [analysis] node with an outgoing edge is
    selected appends the automatic edge and leaves the old one in place:
    the selected node ends with two outgoing edges, while its [childId]
    names the new node only.  [onConnect] removes the old edge in the same
    situation. *)
Theorem add_node_keeps_old_analysis_edge :
  let w' := (dispatch Examples.net_up "g" (EAddNode "prompt" "C")
               AddNode.w_selected_analysis).2 in
  outgoing "A" (edges w')
  = [AddNode.e_ab;
     {| edge_id := "n1"; edge_source := "A"; edge_target := "n0";
        edge_sourceHandle := None |}] ∧
  (λ n, prop (node_data n) "childId") <$> js_find (λ n, node_id n = "A") (nodes w')
  = Some (VStr "n0") ∧
  analysis_inv "A" AddNode.w_selected_analysis ∧
  ¬ analysis_inv "A" w'.
Proof.
  split_and!.
  - vm_compute. reflexivity.
  - vm_compute. reflexivity.
  - intros n Hn _. vm_compute in Hn. simplify_eq. reflexivity.
  - intros Hinv.
    pose (n := patch_node "A" {[ "childId" := VStr "n0" ]} AddNode.a_node).
    specialize (Hinv n). by apply Hinv.
Qed.

Lemma js_some_false {A} (P : A → Prop) `{!∀ x, Decision (P x)} (l : list A) :
  ¬ Exists P l → js_some P l = false.
Proof. intros Hno. unfold js_some. by apply bool_decide_eq_false. Qed.

Lemma js_some_true {A} (P : A → Prop) `{!∀ x, Decision (P x)} (l : list A) :
  Exists P l → js_some P l = true.
Proof. intros Hyes. unfold js_some. by apply bool_decide_eq_true. Qed.

Section AddNodeHandle.
Variable net : nat → Reply.
Variable graphId : string.

Lemma createEdge_ok s t h i w :
  net (requests w) = ROk i → db_edges w !! i = None →
  createEdge net s t h w
  = (Some {| edge_id := i; edge_source := s; edge_target := t;
             edge_sourceHandle := handle_or_undefined h |},
     log (EvRequest (QInsertEdge s t) true)
       (with_db_edges (insert i {| row_source_node_id := s; row_target_node_id := t |})
          (tick w))).
Proof.
  intros Hn Hf. unfold createEdge, db_insert_edge, request, get_world. run_step.
  rewrite Hn. simpl. by rewrite Hf.
Qed.

(** With a non-prompt node selected and both inserts accepted by the
    store, [handleAddNode] appends one edge from the selected node to the
    new node, on the handle its scan of the closed-over edges picked. *)
Lemma handleAddNode_edges ns es sel type label nid eid w :
  graphId ≠ "" → label ≠ "" → type ≠ "" →
  node_type sel ≠ VStr "prompt" →
  net (requests w) = ROk nid → db_nodes w !! nid = None →
  net (S (requests w)) = ROk eid → db_edges w !! eid = None →
  ∃ h,
    edges (handleAddNode net graphId ns es (Some sel) type label w).2
    = edges w ++ [{| edge_id := eid; edge_source := node_id sel; edge_target := nid;
                     edge_sourceHandle := handle_or_undefined h |}] ∧
    h = (if decide (node_type sel = VStr "conditional") then
           if negb (js_some (λ e, edge_source e = node_id sel
                                  ∧ edge_sourceHandle e = Some "true") es)
           then Some "true"
           else if negb (js_some (λ e, edge_source e = node_id sel
                                       ∧ edge_sourceHandle e = Some "false") es)
           then Some "false" else None
         else None).
Proof.
  intros Hg Hl Ht Hsel Hn1 Hf1 Hn2 Hf2. eexists. split; [|reflexivity].
  unfold handleAddNode. rewrite decide_False by tauto.
  run_step. unfold db_insert_node, request, get_world. run_step.
  rewrite Hn1. simpl. rewrite Hf1. run_step.
  rewrite decide_False by done. run_step.
  erewrite createEdge_ok; [|exact Hn2|exact Hf2]. simpl. run_step.
  unfold setEdges. simpl.
  by rewrite (view_edges _ _ (updateNodeRelationships_view _ _ _ _ _ _)).
Qed.

End AddNodeHandle.

(** C8. Adding a node while a [conditional] node is selected puts the
    automatic edge on the first free handle, [true] before [false]: on
    [true] when the selected node has no outgoing edge with that handle,
    otherwise on [false] when it has none with that one.  Both inserts are
    taken to succeed, with ids that are new to the store. *)
Theorem add_node_picks_first_free_handle (net : nat → Reply)
    (graphId type label nid eid : string) (sel : Node) (w : World) :
  graphId ≠ "" → label ≠ "" → type ≠ "" →
  selectedNode w = Some sel →
  node_type sel = VStr "conditional" →
  net (requests w) = ROk nid → db_nodes w !! nid = None →
  net (S (requests w)) = ROk eid → db_edges w !! eid = None →
  let w' := (dispatch net graphId (EAddNode type label) w).2 in
  let added h :=
    edges w' = edges w ++ [{| edge_id := eid; edge_source := node_id sel;
                              edge_target := nid; edge_sourceHandle := Some h |}] in
  (¬ has_handle_edge (node_id sel) "true" (edges w) → added "true") ∧
  (has_handle_edge (node_id sel) "true" (edges w) →
   ¬ has_handle_edge (node_id sel) "false" (edges w) → added "false").
Proof.
  intros Hg Hl Ht Hsel Hcond Hn1 Hf1 Hn2 Hf2 w' added.
  assert (node_type sel ≠ VStr "prompt") as Hnp by (rewrite Hcond; done).
  destruct (handleAddNode_edges net graphId (nodes w) (edges w) sel type label
              nid eid w Hg Hl Ht Hnp Hn1 Hf1 Hn2 Hf2) as (h & Hedges & Hh).
  rewrite decide_True in Hh by done.
  assert (edges w' = edges (handleAddNode net graphId (nodes w) (edges w)
                              (Some sel) type label w).2) as Hw'.
  { subst w'. unfold dispatch, get_world. run_step. by rewrite Hsel. }
  unfold has_handle_edge. split.
  - intros Hno. rewrite js_some_false in Hh by done. simpl in Hh. subst h.
    unfold added. by rewrite Hw', Hedges.
  - intros Hyes Hno. rewrite js_some_true in Hh by done.
    rewrite js_some_false in Hh by done. simpl in Hh. subst h.
    unfold added. by rewrite Hw', Hedges.
Qed.

Lemma add_node_picks_first_free_handle_witness :
  edges (dispatch Examples.net_up "g" (EAddNode "prompt" "G")
           AddNode.w_selected_conditional).2
  = [AddNode.e_de;
     {| edge_id := "n1"; edge_source := "D"; edge_target := "n0";
        edge_sourceHandle := Some "false" |}].
Proof.
  refine (proj2 (add_node_picks_first_free_handle Examples.net_up "g" "prompt" "G"
                   "n0" "n1" AddNode.d_node AddNode.w_selected_conditional
                   _ _ _ _ _ _ _ _ _) _ _).
  all: try done.
  - apply Exists_cons_hd. done.
  - intros H. apply Exists_cons in H as [[_ H]|H]; [done|]. by apply Exists_nil in H.
Defined.

(** ** Loading: the type given to a reconstructed node *)

(** C9, counterexample. A stored type such as ["webhook"] is truthy, so
    [||] keeps it and the node is not given type [prompt]. *)
Lemma unrecognised_type_is_kept : ¬ unrecognised_type_defaults_to_prompt.
Proof.
  intros Hclaim.
  specialize (Hclaim "x" (Examples.mk_row "webhook")).
  assert (node_type (flowNode "x" (Examples.mk_row "webhook")) = VStr "webhook") as Hkept
    by reflexivity.
  rewrite Hkept in Hclaim.
  assert (VStr "webhook" = VStr "prompt") as Habs; [|discriminate Habs].
  apply Hclaim. intros [H|[H|H]]; vm_compute in H; discriminate H.
Qed.

(** C9, amended. A fetched row whose stored type is absent, or falsy in
    any other way, is given type [prompt]; every other stored type, one of
    the three known ones or not, is kept as it is. *)
Theorem flowNode_type_defaults_only_when_falsy (i : string) (row : NodeRow) :
  (stored_type row = VUndefined → node_type (flowNode i row) = VStr "prompt") ∧
  (truthy (stored_type row) = false → node_type (flowNode i row) = VStr "prompt") ∧
  (truthy (stored_type row) = true → node_type (flowNode i row) = stored_type row).
Proof.
  unfold flowNode, stored_type, js_or. simpl.
  split_and!.
  - by intros ->.
  - by intros ->.
  - by intros ->.
Qed.

Lemma flowNode_type_defaults_only_when_falsy_witness :
  node_type (flowNode "x" {| row_graph_id := "g"; row_label := "n";
                             row_position_x := 0; row_position_y := 0;
                             row_data := None |}) = VStr "prompt" ∧
  node_type (flowNode "x" (Examples.mk_row "analysis"))
  = stored_type (Examples.mk_row "analysis").
Proof.
  split.
  - apply (proj1 (flowNode_type_defaults_only_when_falsy "x" _)). reflexivity.
  - apply (proj2 (proj2 (flowNode_type_defaults_only_when_falsy "x" _))). reflexivity.
Defined.

(** ** Updating a node payload *)

(** C10. When the fetch and the update of [updateNodeData] both succeed,
    the payload persisted for the node is the payload that was stored with
    the keys of [newData] replaced: a key [newData] does not mention keeps
    the value it had in the store; a key it mentions is stored as the JSON
    encoding of the new value, so it is absent when the new value is
    [undefined]; the update request carries the stored payload merged with
    [newData]; the other columns of the row and all other rows are
    untouched. *)
Theorem updateNodeData_merges_into_stored (net : nat → Reply) (nodeId : string)
    (newData : Payload) (w : World) :
  (updateNodeData net nodeId newData w).1 = true →
  let w' := (updateNodeData net nodeId newData w).2 in
  ∃ row row' persisted,
    db_nodes w !! nodeId = Some row ∧
    db_nodes w' !! nodeId = Some row' ∧
    row_data row' = Some persisted ∧
    (∀ k, newData !! k = None → persisted !! k = default ∅ (row_data row) !! k) ∧
    (∀ k v, newData !! k = Some v → persisted !! k = json_of_value v) ∧
    trace w'
    = trace w ++ [EvRequest (QSelectNodeData nodeId) true;
                  EvRequest (QUpdateNodeData nodeId
                               (spread (decode (default ∅ (row_data row))) newData))
                    true] ∧
    row_graph_id row' = row_graph_id row ∧ row_label row' = row_label row ∧
    row_position_x row' = row_position_x row ∧
    row_position_y row' = row_position_y row ∧
    (∀ j, j ≠ nodeId → db_nodes w' !! j = db_nodes w !! j) ∧
    db_edges w' = db_edges w.
Proof.
  unfold updateNodeData, setNodes, db_select_node_data, request, get_world.
  run_step.
  destruct (net (requests w)) as [|i1]; simpl; [done|].
  destruct (db_nodes w !! nodeId) as [row|] eqn:Hrow; simpl; [|done].
  unfold db_update_node_data, request. run_step.
  destruct (net (S (requests w))) as [|i2]; simpl; [done|].
  intros _. rewrite default_decode.
  exists row, (set_row_data (encode (spread (decode (default ∅ (row_data row)))
                                       newData)) row).
  eexists. split_and!; try done.
  - by rewrite lookup_alter_eq, Hrow.
  - intros k Hk. by apply lookup_encode_spread_None.
  - intros k v Hk. by apply lookup_encode_spread_Some.
  - by rewrite <- app_assoc.
  - intros j Hj. by rewrite lookup_alter_ne.
Qed.

Lemma updateNodeData_merges_into_stored_witness :
  let w' := (updateNodeData Examples.net_up "A" {[ "childId" := VStr "B" ]}
               Examples.w_abc).2 in
  ∃ row' persisted,
    db_nodes w' !! "A" = Some row' ∧ row_data row' = Some persisted ∧
    persisted !! "type" = Some (JStr "analysis") ∧
    persisted !! "childId" = Some (JStr "B").
Proof.
  destruct (updateNodeData_merges_into_stored Examples.net_up "A"
              {[ "childId" := VStr "B" ]} Examples.w_abc)
    as (row & row' & persisted & H1 & H2 & H3 & H4 & H5 & _); [reflexivity|].
  exists row', persisted. split_and!; [done|done| |].
  - rewrite H4 by reflexivity. vm_compute in H1. by simplify_eq.
  - by apply (H5 "childId" (VStr "B")).
Defined.

(** ** Clearing relationship fields *)

Lemma elem_of_relate_nodes s t h r ns n' :
  n' ∈ relate_nodes s t h r ns →
  (relationship_field s h = None ∧ n' ∈ ns) ∨
  ∃ k n, relationship_field s h = Some k ∧ n ∈ ns ∧
         n' = patch_node (node_id s) {[ k := child_value t r ]} n.
Proof.
  unfold relate_nodes. destruct (relationship_field s h) as [k|]; [|by left].
  intros (n & -> & Hn)%list_elem_of_fmap. right. by exists k, n.
Qed.

Lemma cleared_relate_nodes a k s t h ns :
  cleared a k ns → cleared a k (relate_nodes s t h true ns).
Proof.
  intros Hc n' Hn' Hid.
  apply elem_of_relate_nodes in Hn' as [[_ Hn']|(k' & n & Hk' & Hn & ->)];
    [by apply Hc|].
  rewrite patch_node_id in Hid.
  destruct (decide (node_id n = node_id s)) as [Hs|Hs].
  - destruct (decide (k' = k)) as [->|Hk].
    + by rewrite patch_node_prop.
    + rewrite patch_node_prop_ne by done. by apply Hc.
  - rewrite patch_node_other by done. by apply Hc.
Qed.

Lemma relate_nodes_clears k s t h ns :
  relationship_field s h = Some k →
  cleared (node_id s) k (relate_nodes s t h true ns).
Proof.
  intros Hk n' Hn' Hid.
  apply elem_of_relate_nodes in Hn' as [[Hnone _]|(k' & n & Hk' & Hn & ->)];
    [congruence|].
  rewrite patch_node_id in Hid. simplify_eq. by rewrite patch_node_prop.
Qed.

Lemma present_relate_nodes a s t h r ns :
  present a ns → present a (relate_nodes s t h r ns).
Proof.
  intros (n & Hn & Hid). unfold relate_nodes.
  destruct (relationship_field s h) as [k|]; [|by exists n].
  exists (patch_node (node_id s) {[ k := child_value t r ]} n). split.
  - by apply list_elem_of_fmap_2.
  - by rewrite patch_node_id.
Qed.

Lemma clearing_step_cleared S f a k w :
  clearing_step S f → cleared a k (nodes w) → cleared a k (nodes (f w)).
Proof.
  intros Hf Hc. destruct (Hf w) as (_ & _ & [->|(s & t & h & _ & ->)]); [done|].
  by apply cleared_relate_nodes.
Qed.

Lemma clearing_step_present S f a w :
  clearing_step S f → present a (nodes w) → present a (nodes (f w)).
Proof.
  intros Hf Hc. destruct (Hf w) as (_ & _ & [->|(s & t & h & _ & ->)]); [done|].
  by apply present_relate_nodes.
Qed.

(** A loop of clearing steps keeps the edges and the selection, keeps the
    ids of the nodes, and keeps every field cleared once it is. *)
Lemma for_of_clearing {A} S (l : list A) (f : A → M unit) :
  (∀ x, x ∈ l → clearing_step S (λ w, (f x w).2)) →
  ∀ w, edges (for_of l f w).2 = edges w ∧
       selectedNode (for_of l f w).2 = selectedNode w ∧
       (∀ a, present a (nodes w) → present a (nodes (for_of l f w).2)) ∧
       (∀ a k, cleared a k (nodes w) → cleared a k (nodes (for_of l f w).2)).
Proof.
  induction l as [|x l IH]; intros Hf w; [done|].
  assert (clearing_step S (λ w, (f x w).2)) as Hx by apply Hf, list_elem_of_here.
  simpl. run_step.
  destruct (IH (λ y Hy, Hf y (list_elem_of_further _ _ _ Hy)) (f x w).2)
    as (He & Hs & Hp & Hc).
  destruct (Hx w) as (He' & Hs' & _).
  split_and!.
  - congruence.
  - congruence.
  - intros a Ha. apply Hp. by apply (clearing_step_present S (λ w, (f x w).2)).
  - intros a k Ha. apply Hc. by apply (clearing_step_cleared S (λ w, (f x w).2)).
Qed.

(** If the step for [x0] clears field [k] of [a], the field is cleared
    after the loop. *)
Lemma for_of_clears {A} S (l : list A) (f : A → M unit) (x0 : A) (a k : string) :
  (∀ x, x ∈ l → clearing_step S (λ w, (f x w).2)) →
  x0 ∈ l →
  (∀ w, cleared a k (nodes (f x0 w).2)) →
  ∀ w, cleared a k (nodes (for_of l f w).2).
Proof.
  intros Hf Hin Hx0. induction Hin as [x0 l|x0 y l Hin IH]; intros w; simpl; run_step.
  - apply (for_of_clearing S l f); [|done].
    intros x Hx. by apply Hf, list_elem_of_further.
  - apply IH; [|done]. intros x Hx. by apply Hf, list_elem_of_further.
Qed.

(** ** Removing an edge *)

Lemma elem_of_applyEdgeChanges cs : ∀ es e,
  e ∈ applyEdgeChanges cs es →
  e ∈ es ∧ ∀ i, ECRemove i ∈ cs → edge_id e ≠ i.
Proof.
  unfold applyEdgeChanges.
  induction cs as [|c cs IH]; intros es e He; simpl in He.
  - split; [done|]. intros i Hi. by apply not_elem_of_nil in Hi.
  - apply IH in He as [He Hcs].
    assert (e ∈ es ∧ ∀ i, c = ECRemove i → edge_id e ≠ i) as [Hes Hc].
    { destruct c as [j|j]; simpl in He.
      - apply list_elem_of_filter in He as [Hj He]. split; [done|]. congruence.
      - split; [done|]. congruence. }
    split; [done|]. intros i [Heq|Hi]%elem_of_cons; [by apply Hc|by apply Hcs].
Qed.

Section EdgeRemoval.
Variable net : nat → Reply.
Variable graphId : string.

(** The loop of [onEdgesChangeCallback] never looks at what [deleteEdge]
    returned: whatever the store answered, the new edge list is already
    set and the field of each removed edge's source is cleared. *)
Lemma onEdgesChangeCallback_local ns es changes w :
  let w' := (onEdgesChangeCallback net ns es changes w).2 in
  edges w' = applyEdgeChanges changes es ∧
  selectedNode w' = selectedNode w ∧
  (∀ a, present a (nodes w) → present a (nodes w')) ∧
  ∀ i edge s t k,
    ECRemove i ∈ changes →
    js_find (λ e, edge_id e = i) es = Some edge →
    js_find (λ n, node_id n = edge_source edge) ns = Some s →
    js_find (λ n, node_id n = edge_target edge) ns = Some t →
    relationship_field s (handle_or_undefined (edge_sourceHandle edge)) = Some k →
    cleared (node_id s) k (nodes w').
Proof.
  unfold onEdgesChangeCallback, setEdges. run_step.
  match goal with |- context [for_of _ ?f _] => set (body := f) end.
  set (w1 := with_edges _ w).
  assert (∀ x, x ∈ filter is_remove_e changes →
               clearing_step (λ _, True) (λ w0, (body x w0).2)) as Hbody.
  { intros x _ w0. subst body. simpl.
    destruct (js_find (λ e, edge_id e = ec_id x) es) as [edge|]; [|by auto].
    run_step.
    pose proof (deleteEdge_view net (ec_id x) w0) as Hd.
    destruct (js_find (λ n, node_id n = edge_source edge) ns) as [s|];
      [destruct (js_find (λ n, node_id n = edge_target edge) ns) as [t|]|].
    - pose proof (updateNodeRelationships_view net s t
                    (handle_or_undefined (edge_sourceHandle edge)) true
                    (deleteEdge net (ec_id x) w0).2) as Hu.
      rewrite (view_edges _ _ Hu), (view_selected _ _ Hu), (view_nodes _ _ Hu). simpl.
      rewrite (view_edges _ _ Hd), (view_selected _ _ Hd), (view_nodes _ _ Hd).
      split_and!; [done|done|]. right. by eexists s, t, _.
    - simpl. rewrite (view_edges _ _ Hd), (view_selected _ _ Hd), (view_nodes _ _ Hd).
      by auto.
    - simpl. rewrite (view_edges _ _ Hd), (view_selected _ _ Hd), (view_nodes _ _ Hd).
      by auto. }
  destruct (for_of_clearing _ (filter is_remove_e changes) body Hbody w1)
    as (He & Hsel & Hp & _).
  split_and!; [done|done|done|].
  intros i edge s t k Hi Hedge Hs Ht Hk.
  apply (for_of_clears (λ _, True) _ body (ECRemove i)); [done| |].
  - apply list_elem_of_filter. by split.
  - intros w0. subst body. simpl. rewrite Hedge. run_step. rewrite Hs, Ht.
    rewrite (view_nodes _ _ (updateNodeRelationships_view _ _ _ _ _ _)). simpl.
    by apply relate_nodes_clears.
Qed.

End EdgeRemoval.

(** C4, counterexample. With the store unreachable the delete of edge A→B
    fails, and the [childId] of A is cleared all the same. *)
Lemma field_cleared_after_failed_delete : ¬ field_cleared_only_after_delete_succeeds.
Proof.
  intros Hclaim.
  specialize (Hclaim Examples.net_down "g" AddNode.w_selected_analysis "e1"
                AddNode.e_ab AddNode.a_node (Examples.mk_node "B" "prompt") "childId").
  simpl in Hclaim.
  pose proof (onEdgesChangeCallback_local Examples.net_down
                (nodes AddNode.w_selected_analysis) (edges AddNode.w_selected_analysis)
                [ECRemove "e1"] AddNode.w_selected_analysis) as (_ & _ & Hp & Hc).
  assert (EvRequest (QDeleteEdge "e1") true
          ∈ [EvRequest (QDeleteEdge "e1") false; EvRequest (QSelectNodeData "A") false])
    as Hin.
  { apply Hclaim; try reflexivity.
    - discriminate.
    - apply Hp. exists AddNode.a_node. split; [apply list_elem_of_here|done].
    - apply (Hc "e1" AddNode.e_ab AddNode.a_node (Examples.mk_node "B" "prompt"));
        try reflexivity. apply list_elem_of_here. }
  apply elem_of_cons in Hin as [Hin|Hin]; [discriminate Hin|].
  apply elem_of_cons in Hin as [Hin|Hin]; [discriminate Hin|].
  by apply not_elem_of_nil in Hin.
Qed.

(** C4, amended. For every edge-removal change the callback processes,
    the removal from the local edge list proceeds whether the remote
    delete succeeds or fails, and so does the clearing of the relationship
    field on the source node: the answer of the store is not consulted.
    The field is cleared when both endpoints of the edge are in the local
    node list. *)
Theorem edge_removal_clears_field_regardless (net : nat → Reply) (graphId : string)
    (changes : list EdgeChange) (w : World) :
  let w' := (dispatch net graphId (EEdgesChange changes) w).2 in
  edges w' = applyEdgeChanges changes (edges w) ∧
  (∀ i e, ECRemove i ∈ changes → e ∈ edges w' → edge_id e ≠ i) ∧
  ∀ i edge s t k,
    ECRemove i ∈ changes →
    js_find (λ e, edge_id e = i) (edges w) = Some edge →
    js_find (λ n, node_id n = edge_source edge) (nodes w) = Some s →
    js_find (λ n, node_id n = edge_target edge) (nodes w) = Some t →
    relationship_field s (handle_or_undefined (edge_sourceHandle edge)) = Some k →
    present (node_id s) (nodes w') ∧ cleared (node_id s) k (nodes w').
Proof.
  intros w'.
  assert (w' = (onEdgesChangeCallback net (nodes w) (edges w) changes w).2) as ->
    by (subst w'; unfold dispatch, get_world; by run_step).
  destruct (onEdgesChangeCallback_local net (nodes w) (edges w) changes w)
    as (He & _ & Hp & Hc).
  split_and!; [done| |].
  - intros i e Hi Hin. rewrite He in Hin.
    apply elem_of_applyEdgeChanges in Hin as [_ Hin]. by apply Hin.
  - intros i edge s t k Hi Hedge Hs Ht Hk. split; [|by eauto].
    apply Hp. exists s. destruct (js_find_Some _ _ _ Hs) as [_ Hin]. done.
Qed.

Lemma edge_removal_clears_field_regardless_witness :
  let w' := (dispatch Examples.net_down "g" (EEdgesChange [ECRemove "e1"])
               AddNode.w_selected_analysis).2 in
  edges w' = [] ∧ present "A" (nodes w') ∧ cleared "A" "childId" (nodes w').
Proof.
  destruct (edge_removal_clears_field_regardless Examples.net_down "g"
              [ECRemove "e1"] AddNode.w_selected_analysis) as (He & _ & Hc).
  split; [exact He|].
  apply (Hc "e1" AddNode.e_ab AddNode.a_node (Examples.mk_node "B" "prompt") "childId");
    try reflexivity.
  apply list_elem_of_here.
Defined.

(** ** Deleting a node *)

Lemma relationship_field_key s h k :
  relationship_field s h = Some k → k ∈ relationship_keys.
Proof.
  unfold relationship_field, relationship_keys.
  repeat case_decide; intros Hk; simplify_eq; set_solver.
Qed.

Lemma same_but_children_refl n : same_but_children n n.
Proof. by unfold same_but_children. Qed.

Lemma same_but_children_patch n0 n i k v :
  k ∈ relationship_keys →
  same_but_children n0 n → same_but_children n0 (patch_node i {[ k := v ]} n).
Proof.
  intros Hk (Hid & Hty & Hpos & Hdata).
  unfold same_but_children.
  rewrite patch_node_id, patch_node_type, patch_node_position.
  split_and!; [done|done|done|].
  intros k' Hk'. rewrite <- Hdata by done.
  unfold patch_node. case_decide; [|done]. simpl.
  apply lookup_spread_singleton_ne. intros ->. done.
Qed.

Lemma kept_up_to_refl S n : kept_up_to S n n.
Proof. split; [apply same_but_children_refl|done]. Qed.

Lemma kept_up_to_relate_nodes (S : string → Prop) s t h r ns0 ns :
  S (node_id s) →
  Forall2 (kept_up_to S) ns0 ns →
  Forall2 (kept_up_to S) ns0 (relate_nodes s t h r ns).
Proof.
  intros HS Hns. unfold relate_nodes.
  destruct (relationship_field s h) as [k|] eqn:Hk; [|done].
  apply Forall2_fmap_r. eapply Forall2_impl; [exact Hns|].
  intros n0 n [Hsame Hkept]. simpl. split.
  - apply same_but_children_patch; [|done]. by eapply relationship_field_key.
  - intros Hn0. rewrite <- (Hkept Hn0). apply patch_node_other.
    intros Heq. apply Hn0. rewrite <- (Hkept Hn0). by rewrite Heq.
Qed.

Lemma for_of_clearing_kept {A} S (l : list A) (f : A → M unit) ns0 :
  (∀ x, x ∈ l → clearing_step S (λ w, (f x w).2)) →
  ∀ w, Forall2 (kept_up_to S) ns0 (nodes w) →
       Forall2 (kept_up_to S) ns0 (nodes (for_of l f w).2).
Proof.
  induction l as [|x l IH]; intros Hf w Hw; [done|].
  simpl. run_step. apply IH; [intros y Hy; by apply Hf, list_elem_of_further|].
  destruct (Hf x (list_elem_of_here _ _) w) as (_ & _ & [Hn|(s & t & h & HS & Hn)]);
    simpl in Hn; rewrite Hn; [done|].
  by apply kept_up_to_relate_nodes.
Qed.

Section NodeDeletion.
Variable net : nat → Reply.

Lemma deleteNode_local ns es sel nodeId w :
  let w' := (deleteNode net ns es sel nodeId w).2 in
  edges w' = filter (λ e, edge_source e ≠ nodeId ∧ edge_target e ≠ nodeId) es ∧
  selectedNode w'
  = (if decide (node_id <$> sel = Some nodeId) then None else selectedNode w) ∧
  Forall2 (kept_up_to (counterpart nodeId es))
    (filter (λ n, node_id n ≠ nodeId) ns) (nodes w') ∧
  ∀ edge s k,
    edge ∈ es → edge_target edge = nodeId →
    js_find (λ n, node_id n = edge_source edge) ns = Some s →
    relationship_field s (handle_or_undefined (edge_sourceHandle edge)) = Some k →
    (node_id s ≠ nodeId → present (node_id s) (nodes w')) ∧
    cleared (node_id s) k (nodes w').
Proof.
  unfold deleteNode, setEdges, setNodes. run_step.
  match goal with |- context [for_of _ ?f _] => set (body := f) end.
  match goal with |- context [for_of _ body ?w0] => set (w1 := w0) end.
  set (l := filter (λ e, edge_source e = nodeId ∨ edge_target e = nodeId) es).
  assert (∀ x, x ∈ l →
               clearing_step (counterpart nodeId es) (λ w0, (body x w0).2)) as Hbody.
  { intros x [_ Hx]%list_elem_of_filter w0. subst body. simpl. run_step.
    pose proof (deleteEdge_view net (edge_id x) w0) as Hd.
    case_decide as Htgt;
      [destruct (js_find (λ n, node_id n = edge_source x) ns) as [s|] eqn:Hs|].
    - pose proof (updateNodeRelationships_view net s (dummyTargetNode nodeId)
                    (handle_or_undefined (edge_sourceHandle x)) true
                    (deleteEdge net (edge_id x) w0).2) as Hu.
      rewrite (view_edges _ _ Hu), (view_selected _ _ Hu), (view_nodes _ _ Hu). simpl.
      rewrite (view_edges _ _ Hd), (view_selected _ _ Hd), (view_nodes _ _ Hd).
      split_and!; [done|done|]. right. eexists s, _, _. split; [|done].
      exists x. by destruct (js_find_Some _ _ _ Hs).
    - simpl. rewrite (view_edges _ _ Hd), (view_selected _ _ Hd), (view_nodes _ _ Hd).
      by auto.
    - simpl. rewrite (view_edges _ _ Hd), (view_selected _ _ Hd), (view_nodes _ _ Hd).
      by auto. }
  pose proof (db_delete_node_view net nodeId (for_of l body w1).2) as Hdel.
  rewrite (view_edges _ _ Hdel), (view_selected _ _ Hdel), (view_nodes _ _ Hdel).
  destruct (for_of_clearing _ l body Hbody w1) as (He & Hsel & Hp & _).
  assert (nodes w1 = filter (λ n, node_id n ≠ nodeId) ns ∧
          edges w1 = filter (λ e, edge_source e ≠ nodeId ∧ edge_target e ≠ nodeId) es ∧
          selectedNode w1
          = if decide (node_id <$> sel = Some nodeId) then None else selectedNode w)
    as (Hn1 & He1 & Hs1).
  { subst w1. by case_decide. }
  split_and!.
  - congruence.
  - congruence.
  - apply for_of_clearing_kept; [done|]. rewrite Hn1.
    apply Forall_Forall2_diag, Forall_forall. intros n _. apply kept_up_to_refl.
  - intros edge s k Hin Htgt Hs Hk. split.
    + intros Hne. apply Hp. rewrite Hn1. exists s. split; [|done].
      apply list_elem_of_filter. split; [done|]. by destruct (js_find_Some _ _ _ Hs).
    + apply (for_of_clears (counterpart nodeId es) l body edge); [done| |].
      * apply list_elem_of_filter. split; [by right|done].
      * intros w0. subst body. simpl. run_step. rewrite decide_True by done.
        rewrite Hs.
        rewrite (view_nodes _ _ (updateNodeRelationships_view _ _ _ _ _ _)). simpl.
        by apply relate_nodes_clears.
Qed.

End NodeDeletion.

(** The one caller of [deleteNode], [onNodesChangeCallback], goes on to set
    the node list from the [nodes] it closed over: after its loop of
    deletions the node list is again the one of the render before, with
    the other changes applied to it. *)
Lemma onNodesChangeCallback_nodes net ns es sel changes w :
  nodes (onNodesChangeCallback net ns es sel changes w).2
  = applyNodeChanges (filter (λ c, ¬ is_remove_n c) changes) ns.
Proof.
  unfold onNodesChangeCallback, setNodes, debouncedUpdatePositions, get_world, set_timer.
  run_step. by case_decide.
Qed.

(** C6. Node B is removed through the nodes-change callback, in the view
    where A ([analysis]) and D ([conditional], handle [true]) point to B,
    D points to C on handle [false], and B is selected; the store accepts
    every request.  [deleteNode] leaves the view as the claim describes
    it: B is gone, the two edges to B are gone, [childId] of A and
    [trueChildId] of D are cleared, [falseChildId] of D and node C are as
    before, and the selection is cleared.  The callback then sets the node
    list from the nodes it closed over: when it returns B is in the node
    list again and A and D name it again as their child, while the edges
    to B are gone and the store no longer has the row of B. *)
Theorem removed_node_is_back_after_the_callback :
  let w := Deletion.w_graph in
  let children (n : Node) :=
    (node_id n, prop (node_data n) "childId", prop (node_data n) "trueChildId",
     prop (node_data n) "falseChildId") in
  let mid := (deleteNode Examples.net_up (nodes w) (edges w) (selectedNode w) "B" w).2 in
  let w' := (dispatch Examples.net_up "g" (ENodesChange [NCRemove "B"]) w).2 in
  children <$> nodes w
  = [("A", VStr "B", VUndefined, VUndefined); ("D", VUndefined, VStr "B", VStr "C");
     ("B", VUndefined, VUndefined, VUndefined); ("C", VUndefined, VUndefined, VUndefined)] ∧
  nodes mid
  = [patch_node "A" {[ "childId" := VUndefined ]} AddNode.a_node;
     patch_node "D" {[ "trueChildId" := VUndefined ]} Deletion.d_node;
     Examples.mk_node "C" "prompt"] ∧
  children <$> nodes mid
  = [("A", VUndefined, VUndefined, VUndefined); ("D", VUndefined, VUndefined, VStr "C");
     ("C", VUndefined, VUndefined, VUndefined)] ∧
  edges mid = [Deletion.e_dc] ∧
  selectedNode mid = None ∧
  nodes w' = nodes w ∧
  edges w' = [Deletion.e_dc] ∧
  selectedNode w' = None ∧
  present "B" (nodes w') ∧
  ¬ cleared "A" "childId" (nodes w') ∧
  ¬ cleared "D" "trueChildId" (nodes w') ∧
  db_nodes w' !! "B" = None.
Proof.
  assert (nodes (dispatch Examples.net_up "g" (ENodesChange [NCRemove "B"])
                   Deletion.w_graph).2 = nodes Deletion.w_graph) as Hn.
  { unfold dispatch, get_world. run_step. apply onNodesChangeCallback_nodes. }
  cbv zeta. rewrite Hn. split_and!.
  - vm_compute. reflexivity.
  - vm_compute. reflexivity.
  - vm_compute. reflexivity.
  - vm_compute. reflexivity.
  - vm_compute. reflexivity.
  - reflexivity.
  - vm_compute. reflexivity.
  - vm_compute. reflexivity.
  - exists Deletion.b_node. split; [|done].
    apply list_elem_of_further, list_elem_of_further, list_elem_of_here.
  - intros Hc. by specialize (Hc AddNode.a_node (list_elem_of_here _ _) eq_refl).
  - intros Hc.
    by specialize (Hc Deletion.d_node
                     (list_elem_of_further _ _ _ (list_elem_of_here _ _)) eq_refl).
  - vm_compute. reflexivity.
Qed.

(** ** Debounced position writes *)

Lemma filter_no_remove cs :
  Forall (λ c, ¬ is_remove_n c) cs →
  filter is_remove_n cs = [] ∧ filter (λ c, ¬ is_remove_n c) cs = cs.
Proof.
  induction 1 as [|c cs Hc Hcs [IH1 IH2]]; [done|].
  rewrite filter_cons_False by done. rewrite filter_cons_True by done.
  by rewrite IH2.
Qed.

Lemma filter_position_change cs :
  Exists is_position_change cs → (0 < length (filter is_position_change cs))%nat.
Proof.
  induction 1 as [c cs Hc|c cs Hcs IH].
  - rewrite filter_cons_True by done. simpl. lia.
  - rewrite filter_cons. case_decide; simpl; lia.
Qed.

Lemma batches_app tr1 tr2 : batches (tr1 ++ tr2) = (batches tr1 + batches tr2)%nat.
Proof. unfold batches. by rewrite filter_app, length_app. Qed.

Lemma batches_position_writes ns oks : batches (zip_with position_write ns oks) = 0%nat.
Proof.
  unfold batches. rewrite filter_none; [done|].
  intros e (n & ok & -> & _)%elem_of_zip_with. done.
Qed.

Lemma batches_batch ns oks : batches (batch ns oks) = 1%nat.
Proof.
  unfold batch. rewrite !batches_app, batches_position_writes. reflexivity.
Qed.

Section PositionWrites.
Variable net : nat → Reply.

Lemma db_update_node_position_store i x y w :
  let w' := (db_update_node_position net i x y w).2 in
  requests w' = S (requests w) ∧ db_edges w' = db_edges w ∧
  db_nodes w' !! i = written (net (requests w)) x y <$> db_nodes w !! i ∧
  (∀ j, j ≠ i → db_nodes w' !! j = db_nodes w !! j).
Proof.
  unfold db_update_node_position, request. run_step.
  destruct (net (requests w)); simpl; split_and!; try done.
  - by destruct (db_nodes w !! i).
  - apply lookup_alter_eq.
  - intros j Hj. by rewrite lookup_alter_ne.
Qed.

Lemma position_loop (ns : list Node) : ∀ w,
  NoDup (node_id <$> ns) →
  let w' := (for_of ns (λ node,
               db_update_node_position net (node_id node)
                 (pos_x (node_position node)) (pos_y (node_position node)) ;;
               mret tt) w).2 in
  requests w' = (requests w + length ns)%nat ∧ db_edges w' = db_edges w ∧
  (∀ j, j ∉ node_id <$> ns → db_nodes w' !! j = db_nodes w !! j) ∧
  (∀ k n, ns !! k = Some n →
     db_nodes w' !! node_id n
     = written (net (requests w + k)%nat) (pos_x (node_position n))
         (pos_y (node_position n)) <$> db_nodes w !! node_id n).
Proof.
  induction ns as [|n ns IH]; intros w Hnd; simpl.
  - split_and!; try done; lia.
  - run_step. apply NoDup_cons in Hnd as [Hn Hnd].
    destruct (db_update_node_position_store (node_id n) (pos_x (node_position n))
                (pos_y (node_position n)) w) as (Hr & He & Hi & Ho).
    destruct (IH (db_update_node_position net (node_id n) (pos_x (node_position n))
                    (pos_y (node_position n)) w).2 Hnd) as (Hr' & He' & Ho' & Hk').
    split_and!.
    + rewrite Hr', Hr. lia.
    + congruence.
    + intros j Hj. apply not_elem_of_cons in Hj as [Hj1 Hj2].
      rewrite (Ho' j Hj2). by apply Ho.
    + intros [|k] n' Hk; simpl in Hk.
      * simplify_eq. rewrite (Ho' _ Hn), Hi. by rewrite Nat.add_0_r.
      * rewrite (Hk' k n' Hk), Hr.
        replace (S (requests w) + k)%nat with (requests w + S k)%nat by lia.
        f_equal. apply Ho. intros Heq. apply Hn. rewrite <- Heq.
        apply list_elem_of_fmap_2. by eapply list_elem_of_lookup_2.
Qed.

(** What the loop adds to the trace: the write of each node with the
    answer its request got. *)
Lemma position_loop_trace (ns : list Node) : ∀ w,
  let w' := (for_of ns (λ node,
               db_update_node_position net (node_id node)
                 (pos_x (node_position node)) (pos_y (node_position node)) ;;
               mret tt) w).2 in
  requests w' = (requests w + length ns)%nat ∧
  db_edges w' = db_edges w ∧
  trace w' = trace w ++ zip_with position_write ns (answered net (requests w) (length ns)).
Proof.
  induction ns as [|n ns IH]; intros w; simpl.
  - split_and!; [lia|done|by rewrite app_nil_r].
  - run_step.
    set (w1 := (db_update_node_position net (node_id n) (pos_x (node_position n))
                  (pos_y (node_position n)) w).2).
    assert (requests w1 = S (requests w) ∧ db_edges w1 = db_edges w ∧
            trace w1 = trace w ++ [position_write n (accepted (net (requests w)))])
      as (Hr & He & Htr).
    { subst w1. unfold db_update_node_position, request. run_step.
      by destruct (net (requests w)). }
    destruct (IH w1) as (Hr' & He' & Htr').
    split_and!; [rewrite Hr', Hr; lia|congruence|].
    rewrite Htr', Htr, Hr. by rewrite <- app_assoc.
Qed.

End PositionWrites.

Lemma applyNodeChanges_ids cs : ∀ ns,
  Forall (λ c, ¬ is_remove_n c) cs →
  node_id <$> applyNodeChanges cs ns = node_id <$> ns.
Proof.
  unfold applyNodeChanges. induction cs as [|c cs IH]; intros ns Hno; [done|].
  apply Forall_cons in Hno as [Hc Hno]. simpl. rewrite (IH _ Hno).
  destruct c as [i|i [q|]|i]; simpl; try done.
  rewrite <- list_fmap_compose. apply list_fmap_ext. intros k n _. simpl.
  by case_decide.
Qed.

Section Debounce.
Variable net : nat → Reply.
Variable graphId : string.

(** A position-change event moves the nodes at once and re-arms the timer;
    it issues no request. *)
Lemma dispatch_move cs w :
  Forall (λ c, ¬ is_remove_n c) cs → Exists is_position_change cs →
  (dispatch net graphId (ENodesChange cs) w).2
  = with_timer (Some {| timer_due := clock w + 500;
                        timer_nodes := applyNodeChanges cs (nodes w);
                        timer_edges := edges w |})
      (with_nodes (λ _, applyNodeChanges cs (nodes w)) w).
Proof.
  intros Hno Hpos. unfold dispatch, get_world. run_step.
  unfold onNodesChangeCallback.
  destruct (filter_no_remove cs Hno) as [-> ->]. simpl. run_step.
  rewrite decide_True by by apply filter_position_change.
  reflexivity.
Qed.

Lemma elapse_to_quiet t w :
  quiet t w → (elapse_to net t w).2 = with_clock t w.
Proof.
  intros [Hclock Htimer]. unfold elapse_to, get_world, set_clock. run_step.
  destruct (positionUpdateTimeoutRef w) as [tm|].
  - rewrite decide_False by lia. simpl. by rewrite Nat.max_r.
  - simpl. by rewrite Nat.max_r.
Qed.

Lemma step_move t ev w :
  is_move_event (t, ev) → quiet t w →
  armed t (step net graphId (t, ev) w).2 ∧
  outside (step net graphId (t, ev) w).2 = outside w.
Proof.
  intros Hev Hq. unfold step. simpl. run_step.
  rewrite (elapse_to_quiet _ _ Hq).
  destruct ev as [|cs| | |]; try done. destruct Hev as [Hno Hpos].
  rewrite (dispatch_move _ _ Hno Hpos). simpl.
  split; [|done]. by eexists.
Qed.

Lemma run_moves evs : ∀ t w,
  armed t w → rapid t evs → Forall is_move_event evs →
  armed (last_time t evs) (run net graphId evs w).2 ∧
  outside (run net graphId evs w).2 = outside w.
Proof.
  induction evs as [|[t' ev] evs IH]; intros t w Harmed Hrapid Hall; [done|].
  apply Forall_cons in Hall as [Hev Hall]. destruct Hrapid as [[Hle Hlt] Hrapid].
  simpl in *. unfold run. simpl. run_step. fold (run net graphId evs).
  destruct (step_move t' ev w Hev) as [Harmed' Hout'].
  { destruct Harmed as (tm & Htm & Hdue & _ & Hclock).
    split; [lia|]. rewrite Htm. lia. }
  destruct (IH t' _ Harmed' Hrapid Hall) as [Harmed'' Hout''].
  split; [done|]. congruence.
Qed.

Lemma position_writes_trace ns : ∀ w,
  ∃ oks, length oks = length ns ∧
    trace (for_of ns (λ node,
             db_update_node_position net (node_id node)
               (pos_x (node_position node)) (pos_y (node_position node)) ;; mret tt) w).2
    = trace w ++ zip_with position_write ns oks.
Proof.
  induction ns as [|n ns IH]; intros w.
  - exists []. split; [done|]. simpl. by rewrite app_nil_r.
  - simpl. run_step.
    set (w1 := (db_update_node_position net _ _ _ w).2).
    assert (∃ ok, trace w1 = trace w ++ [position_write n ok]) as [ok Hw1].
    { subst w1. unfold db_update_node_position, request. run_step.
      destruct (net (requests w)); [by exists false|by exists true]. }
    destruct (IH w1) as (oks & Hlen & Htr).
    exists (ok :: oks). split; [simpl; by rewrite Hlen|].
    rewrite Htr, Hw1. simpl. by rewrite <- app_assoc.
Qed.

Lemma updateGraphData_trace ns es w :
  ∃ oks, length oks = length ns ∧
    trace (updateGraphData net ns es w).2 = trace w ++ batch ns oks.
Proof.
  unfold updateGraphData, onUpdateStart, onUpdateEnd. run_step.
  destruct (position_writes_trace ns (log EvUpdateStart w)) as (oks & Hlen & Htr).
  exists oks. split; [done|]. rewrite Htr. simpl. unfold batch.
  by rewrite <- !app_assoc.
Qed.

(** When the armed timer is due, it fires once: one batch with the nodes
    it was armed with, and the reference is cleared. *)
Lemma elapse_to_fires t T w :
  armed t w → (t + 500 ≤ T)%nat →
  let w' := (elapse_to net T w).2 in
  positionUpdateTimeoutRef w' = None ∧ nodes w' = nodes w ∧
  ∃ oks, length oks = length (nodes w) ∧ trace w' = trace w ++ batch (nodes w) oks.
Proof.
  intros (tm & Htm & Hdue & Hnodes & Hclock) HT w'.
  split_and!.
  - subst w'. unfold elapse_to, get_world, set_clock. run_step. rewrite Htm.
    rewrite decide_True by lia. run_step. unfold timer_callback. run_step.
    reflexivity.
  - subst w'. apply elapse_to_graph.
  - subst w'. unfold elapse_to, get_world, set_clock. run_step. rewrite Htm.
    rewrite decide_True by lia. run_step. unfold timer_callback, set_timer. run_step.
    rewrite Hnodes.
    destruct (updateGraphData_trace (nodes w) (timer_edges tm)
                (with_clock (clock w `max` timer_due tm) w)) as (oks & Hlen & Htr).
    exists oks. split; [done|]. by rewrite Htr.
Qed.

(** The batch the timer writes when it fires: one request per node of
    the list it was armed with, each node's row taking the node's position
    when its request is accepted. *)
Lemma elapse_to_fires_store t T w :
  armed t w → (t + 500 ≤ T)%nat →
  let w' := (elapse_to net T w).2 in
  requests w' = (requests w + length (nodes w))%nat ∧
  trace w' = trace w ++ batch (nodes w) (answered net (requests w) (length (nodes w))) ∧
  db_edges w' = db_edges w ∧
  (NoDup (node_id <$> nodes w) →
   (∀ j, j ∉ node_id <$> nodes w → db_nodes w' !! j = db_nodes w !! j) ∧
   (∀ k n, nodes w !! k = Some n →
      db_nodes w' !! node_id n
      = written (net (requests w + k)%nat) (pos_x (node_position n))
          (pos_y (node_position n)) <$> db_nodes w !! node_id n)).
Proof.
  intros (tm & Htm & Hdue & Hnodes & Hclock) HT w'. subst w'.
  unfold elapse_to, get_world, set_clock. run_step. rewrite Htm.
  rewrite decide_True by lia. run_step. unfold timer_callback, set_timer. run_step.
  rewrite Hnodes. unfold updateGraphData, onUpdateStart, onUpdateEnd. run_step.
  set (w0 := log EvUpdateStart (with_clock (clock w `max` timer_due tm) w)).
  destruct (position_loop_trace net (nodes w) w0) as (Hr & He & Htr).
  split_and!.
  - by rewrite Hr.
  - rewrite Htr. subst w0. simpl. unfold batch. by rewrite <- !app_assoc.
  - by rewrite He.
  - intros Hnd. destruct (position_loop net (nodes w) w0 Hnd) as (_ & _ & Ho & Hk).
    split; [exact Ho|exact Hk].
Qed.

Lemma run_app evs1 evs2 w :
  (run net graphId (evs1 ++ evs2) w).2
  = (run net graphId evs2 (run net graphId evs1 w).2).2.
Proof.
  revert w. induction evs1 as [|tev evs1 IH]; intros w; [done|].
  unfold run in *. simpl. run_step. apply IH.
Qed.

(** A nodes-change event that removes nothing is applied to the node list
    at once. *)
Lemma step_move_nodes t cs w :
  Forall (λ c, ¬ is_remove_n c) cs →
  nodes (step net graphId (t, ENodesChange cs) w).2 = applyNodeChanges cs (nodes w).
Proof.
  intros Hno. unfold step. simpl. run_step.
  destruct (elapse_to_graph net t w) as [Hn _]. rewrite <- Hn.
  set (w1 := (elapse_to net t w).2).
  unfold dispatch, get_world. run_step. unfold onNodesChangeCallback.
  destruct (filter_no_remove cs Hno) as [-> ->]. simpl. run_step.
  by case_decide.
Qed.

Lemma run_moves_ids evs : ∀ w,
  Forall is_move_event evs →
  node_id <$> nodes (run net graphId evs w).2 = node_id <$> nodes w.
Proof.
  induction evs as [|[t ev] evs IH]; intros w Hall; [done|].
  apply Forall_cons in Hall as [Hev Hall].
  unfold run. simpl. run_step. fold (run net graphId evs). rewrite (IH _ Hall).
  destruct ev as [|cs| | |]; try done. destruct Hev as [Hno _].
  rewrite (step_move_nodes _ _ _ Hno). by apply applyNodeChanges_ids.
Qed.

End Debounce.

Lemma rapid_take k : ∀ t evs, rapid t evs → rapid t (take k evs).
Proof.
  induction k as [|k IH]; intros t [|tev evs] Hr; try done.
  destruct Hr as [Hgap Hr]. simpl. split; [done|]. by apply IH.
Qed.

Section DebounceRun.
Variable net : nat → Reply.
Variable graphId : string.

(** From an idle timer, a rapid run of position-change events leaves the
    timer armed by its last event and has written nothing. *)
Lemma run_moves_from_idle t1 ev1 evs w :
  positionUpdateTimeoutRef w = None → (clock w ≤ t1)%nat →
  Forall is_move_event ((t1, ev1) :: evs) → rapid t1 evs →
  armed (last_time t1 evs) (run net graphId ((t1, ev1) :: evs) w).2 ∧
  outside (run net graphId ((t1, ev1) :: evs) w).2 = outside w.
Proof.
  intros Hidle Hclock Hall Hrapid.
  apply Forall_cons in Hall as [Hev Hall].
  unfold run. simpl. run_step. fold (run net graphId evs).
  destruct (step_move net graphId t1 ev1 w Hev) as [Harmed Hout].
  { split; [done|]. by rewrite Hidle. }
  destruct (run_moves net graphId evs t1 _ Harmed Hrapid Hall) as [Harmed' Hout'].
  split; [done|]. congruence.
Qed.

End DebounceRun.

(** C7. A run of position-change events, each less than 500ms after the
    one before, started with no timer pending: nothing is written or
    requested while the events keep coming; once 500ms have passed after
    the last event exactly one batch has been written, with one request
    per node of the node list as the last event left it; every event of
    the run is applied to the in-memory node list at once; and, node ids
    being distinct, the stored row of each node whose request the store
    accepted holds the position the last event left the node at, the rows
    of the other nodes and all edge rows being as they were. *)
Theorem rapid_moves_persist_once (net : nat → Reply) (graphId : string)
    (t1 : nat) (cs1 : list NodeChange) (evs : list (nat * UiEvent)) (T : nat)
    (w : World) :
  positionUpdateTimeoutRef w = None →
  (clock w ≤ t1)%nat →
  Forall is_move_event ((t1, ENodesChange cs1) :: evs) →
  rapid t1 evs →
  (last_time t1 evs + 500 ≤ T)%nat →
  let all := (t1, ENodesChange cs1) :: evs in
  let w1 := (run net graphId all w).2 in
  let w2 := (elapse_to net T w1).2 in
  (∀ k, outside (run net graphId (take k all) w).2 = outside w) ∧
  requests w2 = (requests w + length (nodes w1))%nat ∧
  trace w2
  = trace w ++ batch (nodes w1) (answered net (requests w) (length (nodes w1))) ∧
  batches (trace w2) = S (batches (trace w)) ∧
  nodes w2 = nodes w1 ∧
  positionUpdateTimeoutRef w2 = None ∧
  (∀ k t cs, all !! k = Some (t, ENodesChange cs) →
     nodes (run net graphId (take (S k) all) w).2
     = applyNodeChanges cs (nodes (run net graphId (take k all) w).2)) ∧
  db_edges w2 = db_edges w ∧
  (NoDup (node_id <$> nodes w) →
   (∀ j, j ∉ node_id <$> nodes w → db_nodes w2 !! j = db_nodes w !! j) ∧
   (∀ k n, nodes w1 !! k = Some n →
      (net (requests w + k)%nat = RErr ∨ db_nodes w !! node_id n = None →
       db_nodes w2 !! node_id n = db_nodes w !! node_id n) ∧
      (∀ row, net (requests w + k)%nat ≠ RErr → db_nodes w !! node_id n = Some row →
         db_nodes w2 !! node_id n
         = Some {| row_graph_id := row_graph_id row; row_label := row_label row;
                   row_position_x := pos_x (node_position n);
                   row_position_y := pos_y (node_position n);
                   row_data := row_data row |}))).
Proof.
  intros Hidle Hclock Hall Hrapid HT all w1 w2.
  destruct (run_moves_from_idle net graphId t1 _ evs w Hidle Hclock Hall Hrapid)
    as [Harmed Hout].
  fold all in Harmed, Hout. fold w1 in Harmed, Hout.
  destruct (elapse_to_fires net _ T w1 Harmed HT) as (Hnone & Hnodes & _).
  destruct (elapse_to_fires_store net _ T w1 Harmed HT) as (Hreq & Htr & Hde & Hdn).
  fold w2 in Hnone, Hnodes, Hreq, Htr, Hde, Hdn.
  assert (db_nodes w1 = db_nodes w ∧ db_edges w1 = db_edges w ∧
          requests w1 = requests w ∧ trace w1 = trace w) as (Hn1 & He1 & Hr1 & Htr1)
    by (unfold outside in Hout; by simplify_eq).
  rewrite Hr1, Htr1 in Htr. rewrite Hr1 in Hreq. rewrite He1 in Hde.
  assert (node_id <$> nodes w1 = node_id <$> nodes w) as Hids
    by (subst w1; by apply run_moves_ids).
  split_and!.
  - intros [|k]; [done|]. subst all. rewrite firstn_cons.
    destruct (run_moves_from_idle net graphId t1 (ENodesChange cs1) (take k evs) w)
      as [_ Hout']; try done.
    + apply Forall_cons in Hall as [Hev Hall]. apply Forall_cons. split; [done|].
      by apply Forall_take.
    + by apply rapid_take.
  - done.
  - done.
  - by rewrite Htr, batches_app, batches_batch, Nat.add_1_r.
  - done.
  - done.
  - intros k t cs Hk.
    rewrite (take_S_r _ _ _ Hk), run_app.
    unfold run at 1. simpl. run_step.
    apply step_move_nodes.
    assert (is_move_event (t, ENodesChange cs)) as [Hno _]; [|done].
    eapply Forall_forall; [exact Hall|]. by eapply list_elem_of_lookup_2.
  - done.
  - intros Hnd. rewrite <- Hids in Hnd. destruct (Hdn Hnd) as [Ho Hk].
    rewrite Hids, Hn1 in Ho. split; [exact Ho|].
    intros k n Hkn. rewrite (Hk k n Hkn), Hr1, Hn1. split.
    + intros [Herr|Hmiss]; [|by rewrite Hmiss].
      rewrite Herr. simpl. by destruct (db_nodes w !! node_id n).
    + intros row Hok Hrow. rewrite Hrow.
      by destruct (net (requests w + k)%nat).
Qed.

Lemma rapid_moves_persist_once_witness :
  let w1 := (run Examples.net_up "g"
               ((0, ENodesChange [Dragging.move "A" 10 10]) :: Dragging.drag)
               Examples.w_abc).2 in
  let w2 := (elapse_to Examples.net_up 900 w1).2 in
  batches (trace w2) = 1 ∧ nodes w2 = nodes w1 ∧
  (node_position <$> nodes w2)
  = [{| pos_x := 30; pos_y := 35 |}; {| pos_x := 7; pos_y := 8 |}; Examples.origin] ∧
  ((λ r, (row_position_x r, row_position_y r)) <$> db_nodes Examples.w_abc !! "A")
  = Some (0, 0)%Z ∧
  ((λ r, (row_position_x r, row_position_y r)) <$> db_nodes w2 !! "A")
  = Some (30, 35)%Z.
Proof.
  destruct (rapid_moves_persist_once Examples.net_up "g" 0
              [Dragging.move "A" 10 10] Dragging.drag 900 Examples.w_abc)
    as (_ & _ & _ & Hb & Hn & _ & _ & _ & Hdb).
  - reflexivity.
  - simpl. lia.
  - repeat (apply Forall_cons; split;
            [split; [repeat (apply Forall_cons; split; [by intros []|]); constructor
                    |apply Exists_cons_hd; exact I]|]).
    constructor.
  - simpl. lia.
  - simpl. lia.
  - destruct Hdb as [_ Hk]; [apply (bool_decide_unpack _); vm_compute; exact I|].
    split_and!; [exact Hb|exact Hn|vm_compute; reflexivity|reflexivity|].
    destruct (Hk 0%nat _ eq_refl) as [_ Hrow].
    assert (Examples.net_up (requests Examples.w_abc + 0) ≠ RErr) as Hok
      by (vm_compute; discriminate).
    exact (f_equal (fmap (M:=option) (λ r, (row_position_x r, row_position_y r)))
             (Hrow _ Hok eq_refl)).
Defined.

(** * Further properties *)

(** ** Adding a node *)

(** X1. [handleAddNode] with an empty graph id, label or type does nothing: no
    request is issued and the world is as it was. *)
Theorem handleAddNode_rejects_empty_input (net : nat → Reply) (graphId : string)
    (ns : list Node) (es : list Edge) (sel : option Node) (type label : string)
    (w : World) :
  graphId = "" ∨ label = "" ∨ type = "" →
  handleAddNode net graphId ns es sel type label w = (tt, w).
Proof. intros Hempty. unfold handleAddNode. by rewrite decide_True. Qed.

Lemma handleAddNode_rejects_empty_input_witness :
  dispatch Examples.net_up "g" (EAddNode "prompt" "") AddNode.w_selected_analysis
  = (tt, AddNode.w_selected_analysis).
Proof.
  unfold dispatch, get_world. rewrite bind_run. simpl.
  apply handleAddNode_rejects_empty_input. right. left. reflexivity.
Defined.

Section AddNodeMore.
Variable net : nat → Reply.
Variable graphId : string.

Lemma db_insert_node_ok label x y d i w :
  net (requests w) = ROk i → db_nodes w !! i = None →
  db_insert_node net graphId label x y d w
  = (Some i,
     log (EvRequest (QInsertNode graphId label x y d) true)
       (with_db_nodes
          (insert i {| row_graph_id := graphId; row_label := label;
                       row_position_x := x; row_position_y := y;
                       row_data := Some (encode d) |})
          (tick w))).
Proof.
  intros Hn Hf. unfold db_insert_node, request, get_world. run_step.
  rewrite Hn. simpl. by rewrite Hf.
Qed.

Lemma db_insert_node_failed label x y d w :
  (net (requests w) = RErr ∨
   ∃ i, net (requests w) = ROk i ∧ is_Some (db_nodes w !! i)) →
  (db_insert_node net graphId label x y d w).1 = None ∧
  view (db_insert_node net graphId label x y d w).2 = view w ∧
  tables (db_insert_node net graphId label x y d w).2 = tables w.
Proof.
  unfold db_insert_node, request, get_world. run_step.
  intros [Hn|(i & Hn & [row Hrow])]; rewrite Hn; simpl; [done|].
  by rewrite Hrow.
Qed.

End AddNodeMore.

(** X2. When the store refuses the new node, [handleAddNode] stops there: the
    view and the tables of the store are as they were. *)
Theorem handleAddNode_failed_insert_changes_nothing (net : nat → Reply)
    (graphId : string) (ns : list Node) (es : list Edge) (sel : option Node)
    (type label : string) (w : World) :
  (net (requests w) = RErr ∨
   ∃ i, net (requests w) = ROk i ∧ is_Some (db_nodes w !! i)) →
  let w' := (handleAddNode net graphId ns es sel type label w).2 in
  view w' = view w ∧ tables w' = tables w.
Proof.
  intros Hfail w'. subst w'. unfold handleAddNode.
  case_decide; [done|]. run_step.
  match goal with
  | |- context [db_insert_node net graphId label ?x ?y ?d w] =>
      destruct (db_insert_node_failed net graphId label x y d w Hfail) as (Hr & Hv & Ht);
      destruct (db_insert_node net graphId label x y d w) as [r w1]
  end.
  simpl in *. subst r. done.
Qed.

Lemma handleAddNode_failed_insert_changes_nothing_witness :
  let w' := (handleAddNode Examples.net_down "g" (nodes AddNode.w_selected_analysis)
               (edges AddNode.w_selected_analysis) (Some AddNode.a_node)
               "prompt" "C" AddNode.w_selected_analysis).2 in
  view w' = view AddNode.w_selected_analysis ∧
  tables w' = tables AddNode.w_selected_analysis.
Proof.
  apply handleAddNode_failed_insert_changes_nothing. left. reflexivity.
Defined.

(** X3. With no node selected, or a [prompt] node selected, a successful
    [handleAddNode] only adds the node: the node list becomes the
    closed-over list with the new node at its end, no edge is created in
    the view or in the store, and one request has been issued. *)
Theorem handleAddNode_without_source_adds_node_only (net : nat → Reply)
    (graphId : string) (ns : list Node) (es : list Edge) (sel : option Node)
    (type label nid : string) (w : World) :
  graphId ≠ "" → label ≠ "" → type ≠ "" →
  (sel = None ∨ ∃ s, sel = Some s ∧ node_type s = VStr "prompt") →
  net (requests w) = ROk nid → db_nodes w !! nid = None →
  let w' := (handleAddNode net graphId ns es sel type label w).2 in
  nodes w' = ns ++ [added_node type label nid] ∧
  edges w' = edges w ∧
  db_edges w' = db_edges w ∧
  requests w' = S (requests w) ∧
  is_Some (db_nodes w' !! nid).
Proof.
  intros Hg Hl Ht Hsel Hn Hf w'. subst w'. unfold handleAddNode.
  rewrite decide_False by tauto. run_step.
  erewrite db_insert_node_ok; [|exact Hn|exact Hf]. simpl. run_step.
  destruct Hsel as [->|(s & -> & Hs)].
  - simpl. split_and!; try done. by rewrite lookup_insert_eq.
  - rewrite decide_True by done. simpl.
    split_and!; try done. by rewrite lookup_insert_eq.
Qed.

Lemma handleAddNode_without_source_adds_node_only_witness :
  let w' := (handleAddNode Examples.net_up "g" (nodes Examples.w_abc)
               (edges Examples.w_abc) (Some (Examples.mk_node "B" "prompt"))
               "analysis" "N" Examples.w_abc).2 in
  nodes w' = nodes Examples.w_abc ++ [added_node "analysis" "N" "n0"] ∧
  edges w' = [] ∧ db_edges w' = ∅.
Proof.
  destruct (handleAddNode_without_source_adds_node_only Examples.net_up "g"
              (nodes Examples.w_abc) (edges Examples.w_abc)
              (Some (Examples.mk_node "B" "prompt")) "analysis" "N" "n0" Examples.w_abc)
    as (Hn & He & Hd & _); try done.
  right. by eexists.
Defined.

Section AddNodeThird.
Variable net : nat → Reply.
Variable graphId : string.

(** The node list after a [handleAddNode] whose two inserts the store
    accepts, with a non-prompt node selected. *)
Lemma handleAddNode_nodes ns es sel type label nid eid w :
  graphId ≠ "" → label ≠ "" → type ≠ "" →
  node_type sel ≠ VStr "prompt" →
  net (requests w) = ROk nid → db_nodes w !! nid = None →
  net (S (requests w)) = ROk eid → db_edges w !! eid = None →
  ∃ h,
    nodes (handleAddNode net graphId ns es (Some sel) type label w).2
    = relate_nodes sel (added_node type label nid) h false
        (ns ++ [added_node type label nid]) ∧
    h = (if decide (node_type sel = VStr "conditional") then
           if negb (js_some (λ e, edge_source e = node_id sel
                                  ∧ edge_sourceHandle e = Some "true") es)
           then Some "true"
           else if negb (js_some (λ e, edge_source e = node_id sel
                                       ∧ edge_sourceHandle e = Some "false") es)
           then Some "false" else None
         else None).
Proof.
  intros Hg Hl Ht Hsel Hn1 Hf1 Hn2 Hf2. eexists. split; [|reflexivity].
  unfold handleAddNode. rewrite decide_False by tauto. run_step.
  erewrite db_insert_node_ok; [|exact Hn1|exact Hf1]. simpl. run_step.
  rewrite decide_False by done. run_step.
  erewrite createEdge_ok; [|exact Hn2|exact Hf2]. simpl. run_step.
  unfold setEdges. simpl.
  by rewrite (view_nodes _ _ (updateNodeRelationships_view _ _ _ _ _ _)).
Qed.

End AddNodeThird.

(** X4. A [conditional] node whose two handles are taken can still be given a
    child by [handleAddNode]: the automatic edge is created without a
    handle, and the new child is written to no payload field, in the view
    or in the store. *)
Theorem handleAddNode_third_child_is_untracked (net : nat → Reply)
    (graphId type label nid eid : string) (sel : Node) (w : World) :
  graphId ≠ "" → label ≠ "" → type ≠ "" →
  selectedNode w = Some sel →
  node_type sel = VStr "conditional" →
  has_handle_edge (node_id sel) "true" (edges w) →
  has_handle_edge (node_id sel) "false" (edges w) →
  net (requests w) = ROk nid → db_nodes w !! nid = None →
  net (S (requests w)) = ROk eid → db_edges w !! eid = None →
  let w' := (dispatch net graphId (EAddNode type label) w).2 in
  edges w' = edges w ++ [{| edge_id := eid; edge_source := node_id sel;
                            edge_target := nid; edge_sourceHandle := None |}] ∧
  nodes w' = nodes w ++ [added_node type label nid] ∧
  (∀ j, j ≠ nid → db_nodes w' !! j = db_nodes w !! j).
Proof.
  intros Hg Hl Ht Hsel Hcond Htrue Hfalse Hn1 Hf1 Hn2 Hf2 w'.
  assert (node_type sel ≠ VStr "prompt") as Hnp by (rewrite Hcond; done).
  assert (w' = (handleAddNode net graphId (nodes w) (edges w)
                  (Some sel) type label w).2) as ->.
  { subst w'. unfold dispatch, get_world. run_step. by rewrite Hsel. }
  destruct (handleAddNode_edges net graphId (nodes w) (edges w) sel type label
              nid eid w Hg Hl Ht Hnp Hn1 Hf1 Hn2 Hf2) as (h & Hedges & Hh).
  destruct (handleAddNode_nodes net graphId (nodes w) (edges w) sel type label
              nid eid w Hg Hl Ht Hnp Hn1 Hf1 Hn2 Hf2) as (h' & Hnodes & Hh').
  rewrite <- Hh in Hh'. subst h'.
  rewrite decide_True in Hh by done.
  unfold has_handle_edge in Htrue, Hfalse.
  rewrite !js_some_true in Hh by done. simpl in Hh. subst h.
  split_and!.
  - by rewrite Hedges.
  - rewrite Hnodes. unfold relate_nodes.
    by rewrite (relationship_field_conditional _ _ Hcond).
  - intros j Hj. unfold handleAddNode. rewrite decide_False by tauto. run_step.
    erewrite db_insert_node_ok; [|exact Hn1|exact Hf1]. simpl. run_step.
    rewrite decide_False by done. run_step.
    rewrite decide_True by done. rewrite !js_some_true by done. simpl.
    erewrite createEdge_ok; [|exact Hn2|exact Hf2]. simpl. run_step.
    unfold updateNodeRelationships. rewrite Hcond. simpl.
    by rewrite lookup_insert_ne.
Qed.

Lemma handleAddNode_third_child_is_untracked_witness :
  let w' := (dispatch Examples.net_up "g" (EAddNode "prompt" "G") ThirdChild.w_full).2 in
  edges w' = edges ThirdChild.w_full
             ++ [{| edge_id := "n1"; edge_source := "D"; edge_target := "n0";
                    edge_sourceHandle := None |}] ∧
  nodes w' = nodes ThirdChild.w_full ++ [added_node "prompt" "G" "n0"].
Proof.
  destruct (handleAddNode_third_child_is_untracked Examples.net_up "g" "prompt" "G"
              "n0" "n1" Deletion.d_node ThirdChild.w_full) as (He & Hn & _);
    try done.
  - apply Exists_cons_hd. done.
  - apply Exists_cons_tl, Exists_cons_hd. done.
Defined.

(** ** Connecting *)

(** X5. A connection whose source or target is not in the node list does
    nothing at all. *)
Theorem onConnect_unknown_endpoint_is_noop (net : nat → Reply) (ns : list Node)
    (es : list Edge) (params : Connection) (w : World) :
  js_find (λ n, node_id n = conn_source params) ns = None ∨
  js_find (λ n, node_id n = conn_target params) ns = None →
  onConnect net ns es params w = (tt, w).
Proof.
  intros [Hs|Ht]; unfold onConnect.
  - by rewrite Hs.
  - destruct (js_find (λ n, node_id n = conn_source params) ns); [|done].
    by rewrite Ht.
Qed.

Lemma onConnect_unknown_endpoint_is_noop_witness :
  onConnect Examples.net_up (nodes Examples.w_abc) (edges Examples.w_abc)
    {| conn_source := "A"; conn_target := "Z"; conn_sourceHandle := None |}
    Examples.w_abc
  = (tt, Examples.w_abc).
Proof. apply onConnect_unknown_endpoint_is_noop. right. reflexivity. Defined.

Section DeleteLoop.
Variable net : nat → Reply.

Lemma deleteEdge_store i w :
  let w' := (deleteEdge net i w).2 in
  requests w' = S (requests w) ∧ db_nodes w' = db_nodes w ∧
  (∀ j, db_edges w !! j = None → db_edges w' !! j = None) ∧
  (net (requests w) ≠ RErr → db_edges w' = delete i (db_edges w)).
Proof.
  unfold deleteEdge, db_delete_edge, request. run_step.
  destruct (net (requests w)); simpl; split_and!; try done.
  intros j Hj. rewrite lookup_delete. by case_decide.
Qed.

(** The loop [for (const edge of l) await deleteEdge(edge.id)]: one
    request per edge; rows are only ever removed; and each edge whose
    delete the store accepts is gone. *)
Lemma delete_loop (l : list Edge) : ∀ w,
  let w' := (for_of l (λ edge, deleteEdge net (edge_id edge) ;; mret tt) w).2 in
  requests w' = (requests w + length l)%nat ∧ db_nodes w' = db_nodes w ∧
  view w' = view w ∧
  (∀ j, db_edges w !! j = None → db_edges w' !! j = None) ∧
  (∀ k e, l !! k = Some e → net (requests w + k)%nat ≠ RErr →
          db_edges w' !! edge_id e = None).
Proof.
  induction l as [|e l IH]; intros w; simpl.
  - split_and!; try done; lia.
  - run_step.
    destruct (deleteEdge_store (edge_id e) w) as (Hr & Hn & Hmono & Hok).
    destruct (IH (deleteEdge net (edge_id e) w).2) as (Hr' & Hn' & Hv' & Hmono' & Hok').
    split_and!.
    + rewrite Hr', Hr. lia.
    + congruence.
    + by rewrite Hv', deleteEdge_view.
    + intros j Hj. by apply Hmono', Hmono.
    + intros [|k] e' Hk Hnet; simpl in Hk.
      * simplify_eq. apply Hmono'. rewrite Nat.add_0_r in Hnet.
        rewrite (Hok Hnet). apply lookup_delete_eq.
      * apply (Hok' k e' Hk). rewrite Hr.
        by replace (S (requests w) + k)%nat with (requests w + S k)%nat by lia.
Qed.

End DeleteLoop.

(** X6. [onConnect] from an [analysis] node deletes the node's edges in the
    store before it creates the new one.  When the deletes succeed and the
    create fails, the view still shows the old edges, which the store no
    longer has. *)
Theorem onConnect_failed_create_loses_stored_edges (net : nat → Reply)
    (params : Connection) (s t : Node) (w : World) :
  js_find (λ n, node_id n = conn_source params) (nodes w) = Some s →
  js_find (λ n, node_id n = conn_target params) (nodes w) = Some t →
  node_type s = VStr "analysis" →
  let old := outgoing (node_id s) (edges w) in
  (∀ k, (k < length old)%nat → net (requests w + k)%nat ≠ RErr) →
  net (requests w + length old)%nat = RErr →
  let w' := (onConnect net (nodes w) (edges w) params w).2 in
  view w' = view w ∧
  db_nodes w' = db_nodes w ∧
  ∀ e, e ∈ old → e ∈ edges w' ∧ db_edges w' !! edge_id e = None.
Proof.
  intros Hs Ht Han old Hdel Hins w'. subst w'.
  unfold onConnect. rewrite Hs, Ht.
  rewrite decide_False by (rewrite Han; done). run_step.
  rewrite (decide_True _ _ Han).
  rewrite decide_False by (rewrite Han; intros [? _]; done). simpl.
  fold (outgoing (node_id s) (edges w)). fold old.
  destruct (delete_loop net old w) as (Hr & Hn & Hv & Hmono & Hok).
  set (w1 := (for_of old _ w).2) in *.
  unfold createEdge, db_insert_edge, request, get_world. run_step.
  rewrite Hr, Hins. simpl.
  split_and!; [done|done|].
  intros e He. split.
  - rewrite (view_edges _ _ Hv). unfold old, outgoing in He.
    by apply list_elem_of_filter in He as [_ He].
  - apply list_elem_of_lookup in He as [k Hk].
    apply (Hok k e Hk). apply Hdel. by eapply lookup_lt_Some.
Qed.

Lemma onConnect_failed_create_loses_stored_edges_witness :
  let w' := (onConnect FailedCreate.net_once (nodes AddNode.w_selected_analysis)
               (edges AddNode.w_selected_analysis)
               {| conn_source := "A"; conn_target := "B"; conn_sourceHandle := None |}
               AddNode.w_selected_analysis).2 in
  AddNode.e_ab ∈ edges w' ∧ db_edges w' !! "e1" = None ∧
  db_edges AddNode.w_selected_analysis !! "e1"
  = Some {| row_source_node_id := "A"; row_target_node_id := "B" |}.
Proof.
  destruct (onConnect_failed_create_loses_stored_edges FailedCreate.net_once
              {| conn_source := "A"; conn_target := "B"; conn_sourceHandle := None |}
              AddNode.a_node (Examples.mk_node "B" "prompt")
              AddNode.w_selected_analysis) as (_ & _ & Hold); try done.
  - intros [|k] Hk; [done|]. simpl in Hk. lia.
  - destruct (Hold AddNode.e_ab) as [Hin Hgone]; [apply list_elem_of_here|].
    split_and!; [exact Hin|exact Hgone|reflexivity].
Defined.

(** ** Writing to the store *)

(** The effects of [updateNodeData] under every answer of the store. *)
Lemma updateNodeData_effects (net : nat → Reply) (nodeId : string)
    (newData : Payload) (w : World) :
  let w' := (updateNodeData net nodeId newData w).2 in
  nodes w' = patch_node nodeId newData <$> nodes w ∧
  edges w' = edges w ∧
  db_edges w' = db_edges w ∧
  (∀ j, j ≠ nodeId → db_nodes w' !! j = db_nodes w !! j) ∧
  (is_Some (db_nodes w' !! nodeId) ↔ is_Some (db_nodes w !! nodeId)) ∧
  (∀ row row' k,
     db_nodes w !! nodeId = Some row → db_nodes w' !! nodeId = Some row' →
     newData !! k = None →
     default ∅ (row_data row') !! k = default ∅ (row_data row) !! k) ∧
  ((updateNodeData net nodeId newData w).1 = false → tables w' = tables w).
Proof.
  intros w'.
  pose proof (updateNodeData_view net nodeId newData w) as Hv. fold w' in Hv.
  split; [by rewrite (view_nodes _ _ Hv)|].
  split; [by rewrite (view_edges _ _ Hv)|].
  subst w'. clear Hv.
  unfold updateNodeData, setNodes, db_select_node_data, request, get_world.
  run_step.
  assert (∀ w0 : World,
            db_nodes w0 = db_nodes w → db_edges w0 = db_edges w →
            db_edges w0 = db_edges w ∧
            (∀ j, j ≠ nodeId → db_nodes w0 !! j = db_nodes w !! j) ∧
            (is_Some (db_nodes w0 !! nodeId) ↔ is_Some (db_nodes w !! nodeId)) ∧
            (∀ row row' k,
               db_nodes w !! nodeId = Some row → db_nodes w0 !! nodeId = Some row' →
               newData !! k = None →
               default ∅ (row_data row') !! k = default ∅ (row_data row) !! k) ∧
            tables w0 = tables w) as Hsame.
  { intros w0 Hn He. unfold tables. rewrite Hn, He. split_and!; try done.
    intros row row' k H1 H2 _. by simplify_eq. }
  destruct (net (requests w)) as [|i1]; simpl.
  { destruct (Hsame (log (EvRequest (QSelectNodeData nodeId) false)
                       (tick (with_nodes (fmap (patch_node nodeId newData)) w))))
      as (? & ? & ? & ? & ?); done. }
  destruct (db_nodes w !! nodeId) as [row|] eqn:Hrow; simpl.
  2:{ destruct (Hsame (log (EvRequest (QSelectNodeData nodeId) false)
                         (tick (with_nodes (fmap (patch_node nodeId newData)) w))))
        as (? & ? & ? & ? & ?); done. }
  unfold db_update_node_data, request. run_step.
  destruct (net (S (requests w))) as [|i2]; simpl.
  { match goal with
    | |- db_edges ?w0 = _ ∧ _ =>
        destruct (Hsame w0) as (? & ? & ? & ? & ?); done
    end. }
  split_and!; try done.
  - intros j Hj. by rewrite lookup_alter_ne.
  - rewrite lookup_alter_eq, Hrow. simpl. split; eauto.
  - intros row0 row' k Hrow0 Hrow' Hk. simplify_eq.
    rewrite lookup_alter_eq, Hrow in Hrow'. simpl in Hrow'. simplify_eq. simpl.
    rewrite default_decode. by apply lookup_encode_spread_None.
Qed.

(** X7. Whatever the store answers, [updateNodeData] patches the node in the
    view at once and does not take the patch back; in the store it
    touches no edge and no other row, creates and deletes no row, and
    leaves every payload key outside [newData] as it was.  When it returns
    [false] the tables are exactly as before, so the view is then ahead of
    the store. *)
Theorem updateNodeData_is_optimistic (net : nat → Reply) (nodeId : string)
    (newData : Payload) (w : World) :
  let w' := (updateNodeData net nodeId newData w).2 in
  nodes w' = patch_node nodeId newData <$> nodes w ∧
  edges w' = edges w ∧
  db_edges w' = db_edges w ∧
  (∀ j, j ≠ nodeId → db_nodes w' !! j = db_nodes w !! j) ∧
  (is_Some (db_nodes w' !! nodeId) ↔ is_Some (db_nodes w !! nodeId)) ∧
  (∀ row row' k,
     db_nodes w !! nodeId = Some row → db_nodes w' !! nodeId = Some row' →
     newData !! k = None →
     default ∅ (row_data row') !! k = default ∅ (row_data row) !! k) ∧
  ((updateNodeData net nodeId newData w).1 = false → tables w' = tables w).
Proof. apply updateNodeData_effects. Qed.

(** X8. [updateGraphData] attempts one position write per node, in order, and
    a failed write stops none of the others: the row of the [k]-th node
    takes the node's position exactly when the store accepts the [k]-th
    request of the batch, keeping its label and payload, and rows of other
    nodes are untouched.  It returns [true] in every case. *)
Theorem updateGraphData_writes_each_node (net : nat → Reply) (newNodes : list Node)
    (newEdges : list Edge) (w : World) :
  NoDup (node_id <$> newNodes) →
  let w' := (updateGraphData net newNodes newEdges w).2 in
  (updateGraphData net newNodes newEdges w).1 = true ∧
  requests w' = (requests w + length newNodes)%nat ∧
  db_edges w' = db_edges w ∧
  (∀ j, j ∉ node_id <$> newNodes → db_nodes w' !! j = db_nodes w !! j) ∧
  (∀ k n, newNodes !! k = Some n →
     db_nodes w' !! node_id n
     = written (net (requests w + k)%nat) (pos_x (node_position n))
         (pos_y (node_position n)) <$> db_nodes w !! node_id n).
Proof.
  intros Hnd w'. subst w'.
  unfold updateGraphData, onUpdateStart, onUpdateEnd. run_step.
  split; [done|].
  apply (position_loop net newNodes (log EvUpdateStart w) Hnd).
Qed.

Lemma updateGraphData_writes_each_node_witness :
  let w' := (updateGraphData PartialBatch.net_late PartialBatch.moved []
               Examples.w_abc).2 in
  ((λ r, (row_position_x r, row_position_y r)) <$> db_nodes w' !! "A") = Some (0, 0)%Z ∧
  ((λ r, (row_position_x r, row_position_y r)) <$> db_nodes w' !! "B") = Some (5, 6)%Z.
Proof.
  destruct (updateGraphData_writes_each_node PartialBatch.net_late PartialBatch.moved []
              Examples.w_abc) as (_ & _ & _ & _ & Hk).
  - simpl. apply NoDup_cons_2; [by intros [|[]%elem_of_nil]%elem_of_cons|].
    apply NoDup_cons_2; [by intros []%elem_of_nil|]. apply NoDup_nil_2.
  - split.
    + etrans; [|reflexivity].
      exact (f_equal (fmap (λ r, (row_position_x r, row_position_y r)))
               (Hk 0%nat _ eq_refl)).
    + etrans; [|reflexivity].
      exact (f_equal (fmap (λ r, (row_position_x r, row_position_y r)))
               (Hk 1%nat _ eq_refl)).
Defined.

Lemma updateNodeData_is_optimistic_witness :
  let r := updateNodeData Examples.net_down "A" {[ "childId" := VStr "B" ]}
             Examples.w_abc in
  r.1 = false ∧ tables r.2 = tables Examples.w_abc ∧
  (λ n, prop (node_data n) "childId") <$> nodes r.2
  = [VStr "B"; VUndefined; VUndefined].
Proof.
  destruct (updateNodeData_is_optimistic Examples.net_down "A"
              {[ "childId" := VStr "B" ]} Examples.w_abc)
    as (Hn & _ & _ & _ & _ & _ & Hfalse).
  split_and!; [reflexivity|by apply Hfalse|].
  etrans; [exact (f_equal (fmap (λ n, prop (node_data n) "childId")) Hn)|].
  vm_compute. reflexivity.
Defined.

(** ** Unmounting *)


(** ** Removing nodes through the nodes-change callback *)

Section NodesChange.
Variable net : nat → Reply.

Lemma deleteNode_loop_edges ns es sel (l : list NodeChange) : ∀ w,
  edges (for_of l (λ change,
           deleteNode net ns es sel (nc_id change) ;; mret tt) w).2
  = match last l with
    | Some c => filter (λ e, edge_source e ≠ nc_id c ∧ edge_target e ≠ nc_id c) es
    | None => edges w
    end.
Proof.
  induction l as [|c l IH]; intros w; [done|].
  simpl. run_step. rewrite IH.
  destruct (deleteNode_local net ns es sel (nc_id c) w) as (He & _).
  rewrite (last_cons c l). by destruct (last l).
Qed.

Lemma deleteNode_loop_selected ns es sel (l : list NodeChange) : ∀ w,
  let w' := (for_of l (λ change,
               deleteNode net ns es sel (nc_id change) ;; mret tt) w).2 in
  (Exists (λ c, node_id <$> sel = Some (nc_id c)) l → selectedNode w' = None) ∧
  (¬ Exists (λ c, node_id <$> sel = Some (nc_id c)) l →
   selectedNode w' = selectedNode w).
Proof.
  induction l as [|c l IH]; intros w.
  - split; [by intros ?%Exists_nil|done].
  - destruct (deleteNode_local net ns es sel (nc_id c) w) as (_ & Hs & _).
    destruct (IH (deleteNode net ns es sel (nc_id c) w).2) as [IHyes IHno].
    assert (∀ w0 : World,
              (for_of (c :: l) (λ change,
                 deleteNode net ns es sel (nc_id change) ;; mret tt) w0).2
              = (for_of l (λ change,
                   deleteNode net ns es sel (nc_id change) ;; mret tt)
                   (deleteNode net ns es sel (nc_id c) w0).2).2) as Hcons.
    { intros w0. simpl. by run_step. }
    cbv zeta. rewrite Hcons. split.
    + intros Hex.
      destruct (decide (Exists (λ c0, node_id <$> sel = Some (nc_id c0)) l)) as [Hl|Hl];
        [by apply IHyes|].
      rewrite (IHno Hl), Hs. apply Exists_cons in Hex as [Hc|Hex]; [|done].
      by rewrite decide_True.
    + intros Hno. rewrite IHno, Hs.
      * rewrite decide_False; [done|]. intros Hc. apply Hno. by apply Exists_cons_hd.
      * intros Hl. apply Hno. by apply Exists_cons_tl.
Qed.

End NodesChange.

(** X10. [onNodesChangeCallback] ends by setting the node list from the nodes
    it closed over, and every [deleteNode] it runs sets the edge list from
    the edges it closed over.  So after a change list with removals the
    removed nodes are still in the node list (only the other changes show),
    and of the edges only those touching the last removed node are gone;
    a selection of a removed node is cleared. *)
Theorem nodes_change_keeps_removed_nodes (net : nat → Reply) (graphId : string)
    (changes : list NodeChange) (w : World) :
  let w' := (dispatch net graphId (ENodesChange changes) w).2 in
  nodes w' = applyNodeChanges (filter (λ c, ¬ is_remove_n c) changes) (nodes w) ∧
  edges w' = match last (filter is_remove_n changes) with
             | Some c => filter (λ e, edge_source e ≠ nc_id c ∧ edge_target e ≠ nc_id c)
                           (edges w)
             | None => edges w
             end ∧
  (∀ sel, selectedNode w = Some sel → NCRemove (node_id sel) ∈ changes →
          selectedNode w' = None).
Proof.
  intros w'.
  assert (w' = (onNodesChangeCallback net (nodes w) (edges w) (selectedNode w)
                  changes w).2) as ->
    by (subst w'; unfold dispatch, get_world; by run_step).
  split; [apply onNodesChangeCallback_nodes|].
  unfold onNodesChangeCallback, setNodes, debouncedUpdatePositions, get_world, set_timer.
  run_step.
  split.
  - case_decide; simpl; apply deleteNode_loop_edges.
  - intros sel Hsel Hin.
    assert (Exists (λ c, node_id <$> selectedNode w = Some (nc_id c))
              (filter is_remove_n changes)) as Hex.
    { apply Exists_exists. exists (NCRemove (node_id sel)). split.
      - apply list_elem_of_filter. by split.
      - by rewrite Hsel. }
    case_decide; simpl;
      by apply (deleteNode_loop_selected net (nodes w) (edges w) (selectedNode w)).
Qed.

Lemma nodes_change_keeps_removed_nodes_witness :
  let w' := (dispatch Examples.net_up "g" (ENodesChange [NCRemove "A"; NCRemove "B"])
               Deletion.w_graph).2 in
  nodes w' = nodes Deletion.w_graph ∧
  edges w' = [Deletion.e_dc] ∧
  selectedNode w' = None.
Proof.
  destruct (nodes_change_keeps_removed_nodes Examples.net_up "g"
              [NCRemove "A"; NCRemove "B"] Deletion.w_graph) as (Hn & He & Hs).
  split_and!; [exact Hn|exact He|].
  apply (Hs Deletion.b_node eq_refl). apply list_elem_of_further, list_elem_of_here.
Defined.

(** ** The keyboard handler of [Flow] *)

(** X11. A key other than Delete or Backspace, or any key with nothing
    selected, does nothing.  Delete or Backspace with a node selected
    clears the selection and removes the edges touching that node from the
    view, and leaves the node list as it is. *)
Theorem onKeyDown_delete_keeps_the_node (net : nat → Reply) (key : string) (w : World) :
  let w' := (onKeyDown net (nodes w) (edges w) (selectedNode w) key w).2 in
  ((selectedNode w = None ∨ (key ≠ "Delete" ∧ key ≠ "Backspace")) → w' = w) ∧
  (∀ sel, selectedNode w = Some sel → (key = "Delete" ∨ key = "Backspace") →
     nodes w' = nodes w ∧
     edges w' = filter (λ e, edge_source e ≠ node_id sel ∧ edge_target e ≠ node_id sel)
                  (edges w) ∧
     selectedNode w' = None).
Proof.
  intros w'. subst w'. unfold onKeyDown. split.
  - intros [->|[Hd Hb]]; [done|].
    destruct (selectedNode w); [|done]. rewrite decide_False; [done|]. tauto.
  - intros sel Hsel Hkey. rewrite Hsel. rewrite decide_True by done.
    split; [by rewrite onNodesChangeCallback_nodes|].
    unfold onNodesChangeCallback, setNodes. run_step.
    run_step. run_step.
    destruct (deleteNode_local net (nodes w) (edges w) (Some sel) (node_id sel) w)
      as (He & Hs & _).
    rewrite He, Hs. by rewrite decide_True.
Qed.

Lemma onKeyDown_delete_keeps_the_node_witness :
  let w' := (onKeyDown Examples.net_up (nodes Deletion.w_graph) (edges Deletion.w_graph)
               (selectedNode Deletion.w_graph) "Delete" Deletion.w_graph).2 in
  nodes w' = nodes Deletion.w_graph ∧ edges w' = [Deletion.e_dc] ∧
  selectedNode w' = None ∧ db_nodes w' !! "B" = None.
Proof.
  destruct (onKeyDown_delete_keeps_the_node Examples.net_up "Delete" Deletion.w_graph)
    as [_ Hdel].
  destruct (Hdel Deletion.b_node eq_refl (or_introl eq_refl)) as (Hn & He & Hs).
  split_and!; [exact Hn|exact He|exact Hs|]. vm_compute. reflexivity.
Defined.

(** ** The store side of [deleteNode] *)

Section DeleteNodeStore.
Variable net : nat → Reply.

Lemma updateNodeData_rows i d w :
  db_edges (updateNodeData net i d w).2 = db_edges w ∧
  ∀ j, is_Some (db_nodes (updateNodeData net i d w).2 !! j) ↔ is_Some (db_nodes w !! j).
Proof.
  destruct (updateNodeData_effects net i d w) as (_ & _ & He & Ho & Hi & _).
  split; [done|]. intros j. destruct (decide (j = i)) as [->|Hj]; [done|].
  by rewrite Ho.
Qed.

Lemma updateNodeRelationships_rows s t h r w :
  db_edges (updateNodeRelationships net s t h r w).2 = db_edges w ∧
  ∀ j, is_Some (db_nodes (updateNodeRelationships net s t h r w).2 !! j)
       ↔ is_Some (db_nodes w !! j).
Proof.
  unfold updateNodeRelationships.
  repeat case_decide; run_step; try done; apply updateNodeData_rows.
Qed.

(** One turn of the loop of [deleteNode]. *)
Lemma deleteNode_turn ns nodeId (edge : Edge) w :
  let f := λ edge : Edge,
    deleteEdge net (edge_id edge) ;;
    if decide (edge_target edge = nodeId) then
      match js_find (λ n, node_id n = edge_source edge) ns with
      | Some sourceNode =>
          updateNodeRelationships net sourceNode (dummyTargetNode nodeId)
            (handle_or_undefined (edge_sourceHandle edge)) true
      | None => mret tt
      end
    else mret tt in
  (∀ j, db_edges w !! j = None → db_edges (f edge w).2 !! j = None) ∧
  (∀ j, is_Some (db_nodes (f edge w).2 !! j) ↔ is_Some (db_nodes w !! j)) ∧
  (store_up net → db_edges (f edge w).2 !! edge_id edge = None).
Proof.
  intros f. subst f. simpl. run_step.
  destruct (deleteEdge_store net (edge_id edge) w) as (_ & Hn & Hmono & Hok).
  set (w1 := (deleteEdge net (edge_id edge) w).2) in *.
  assert (store_up net → db_edges w1 !! edge_id edge = None) as Hgone.
  { intros Hup. rewrite (Hok (Hup _)). apply lookup_delete_eq. }
  case_decide; [destruct (js_find _ ns) as [s|]|]; simpl.
  - destruct (updateNodeRelationships_rows s (dummyTargetNode nodeId)
                (handle_or_undefined (edge_sourceHandle edge)) true w1) as [He Hr].
    rewrite He. split_and!; [done| |done].
    intros j. etrans; [apply Hr|]. by rewrite Hn.
  - split_and!; [done| |done]. intros j. by rewrite Hn.
  - split_and!; [done| |done]. intros j. by rewrite Hn.
Qed.

Lemma deleteNode_loop_store ns nodeId (l : list Edge) :
  let f := λ edge : Edge,
    deleteEdge net (edge_id edge) ;;
    if decide (edge_target edge = nodeId) then
      match js_find (λ n, node_id n = edge_source edge) ns with
      | Some sourceNode =>
          updateNodeRelationships net sourceNode (dummyTargetNode nodeId)
            (handle_or_undefined (edge_sourceHandle edge)) true
      | None => mret tt
      end
    else mret tt in
  ∀ w,
  (∀ j, db_edges w !! j = None → db_edges (for_of l f w).2 !! j = None) ∧
  (∀ j, is_Some (db_nodes (for_of l f w).2 !! j) ↔ is_Some (db_nodes w !! j)) ∧
  (store_up net → ∀ e, e ∈ l → db_edges (for_of l f w).2 !! edge_id e = None).
Proof.
  intros f. induction l as [|e l IH]; intros w.
  - split_and!; try done. intros _ e' He'. by apply not_elem_of_nil in He'.
  - destruct (deleteNode_turn ns nodeId e w) as (Hm & Hr & Hg). fold f in Hm, Hr, Hg.
    destruct (IH (f e w).2) as (Hm' & Hr' & Hg').
    assert ((for_of (e :: l) f w).2 = (for_of l f (f e w).2).2) as ->
      by (simpl; by run_step).
    split_and!.
    + intros j Hj. by apply Hm', Hm.
    + intros j. etrans; [apply Hr'|apply Hr].
    + intros Hup e' [->|He']%elem_of_cons.
      * by apply Hm', Hg.
      * by apply Hg'.
Qed.

End DeleteNodeStore.

(** X12. In the store [deleteNode] creates no row and deletes no node row but
    the one asked for.  When the store answers every request, the row of
    the node and the rows of all edges touching it are gone afterwards and
    the result is [true]. *)
Theorem deleteNode_deletes_rows (net : nat → Reply) (ns : list Node) (es : list Edge)
    (sel : option Node) (nodeId : string) (w : World) :
  let r := deleteNode net ns es sel nodeId w in
  (∀ j, db_edges w !! j = None → db_edges r.2 !! j = None) ∧
  (∀ j, j ≠ nodeId → is_Some (db_nodes r.2 !! j) ↔ is_Some (db_nodes w !! j)) ∧
  (store_up net →
     r.1 = true ∧ db_nodes r.2 !! nodeId = None ∧
     ∀ e, e ∈ es → edge_source e = nodeId ∨ edge_target e = nodeId →
          db_edges r.2 !! edge_id e = None).
Proof.
  intros r. subst r. unfold deleteNode, setEdges, setNodes. run_step.
  set (l := filter (λ e, edge_source e = nodeId ∨ edge_target e = nodeId) es).
  match goal with |- context [for_of l ?f ?w0] => set (w1 := w0) end.
  destruct (deleteNode_loop_store net ns nodeId l w1) as (Hm & Hr & Hg).
  match goal with |- context [for_of l ?f w1] => set (w2 := (for_of l f w1).2) in * end.
  assert (db_edges w1 = db_edges w ∧ db_nodes w1 = db_nodes w) as [He1 Hn1].
  { subst w1. by case_decide. }
  unfold db_delete_node, request. run_step.
  destruct (net (requests w2)) as [|i] eqn:Hnet; simpl.
  - split_and!.
    + intros j Hj. apply Hm. by rewrite He1.
    + intros j _. etrans; [apply Hr|]. by rewrite Hn1.
    + intros Hup. by destruct (Hup (requests w2)).
  - split_and!.
    + intros j Hj. apply Hm. by rewrite He1.
    + intros j Hj. rewrite lookup_delete_ne by done.
      etrans; [apply Hr|]. by rewrite Hn1.
    + intros Hup. split_and!; [done|apply lookup_delete_eq|].
      intros e He Htouch. apply (Hg Hup). apply list_elem_of_filter. by split.
Qed.

Lemma deleteNode_deletes_rows_witness :
  let r := deleteNode Examples.net_up (nodes Deletion.w_graph) (edges Deletion.w_graph)
             (selectedNode Deletion.w_graph) "B" Deletion.w_graph in
  r.1 = true ∧ db_nodes r.2 !! "B" = None ∧
  db_edges r.2 !! "e1" = None ∧ db_edges r.2 !! "e2" = None ∧
  is_Some (db_edges r.2 !! "e3").
Proof.
  destruct (deleteNode_deletes_rows Examples.net_up (nodes Deletion.w_graph)
              (edges Deletion.w_graph) (selectedNode Deletion.w_graph) "B"
              Deletion.w_graph) as (_ & _ & Hup).
  destruct Hup as (Hr & Hn & He); [by intros k|].
  split_and!; [exact Hr|exact Hn| | |].
  - apply (He AddNode.e_ab); [apply list_elem_of_here|by right].
  - apply (He Deletion.e_db); [apply list_elem_of_further, list_elem_of_here|by right].
  - vm_compute. eauto.
Defined.

(** ** Loading a graph *)

(** X13. A load shows all or nothing, and never writes.  Without a user or a
    graph id nothing happens at all.  Otherwise, if any of the three reads
    fails the view stays as it was and the component stays in its loading
    state; if all three succeed the view is rebuilt from the rows of the
    graph and loading ends. *)
Theorem fetchGraph_all_or_nothing (net : nat → Reply) (graphId : string)
    (user : option string) (isLoading : bool) (w : World) :
  let r := fetchGraph net graphId user isLoading w in
  tables r.2 = tables w ∧ trace r.2 = trace w ∧
  (user = None ∨ graphId = "" → r = (isLoading, w)) ∧
  (is_Some user → graphId ≠ "" →
   ((net (requests w) = RErr ∨ net (S (requests w)) = RErr
     ∨ net (S (S (requests w))) = RErr) →
    r.1 = true ∧ view r.2 = view w) ∧
   (net (requests w) ≠ RErr → net (S (requests w)) ≠ RErr →
    net (S (S (requests w))) ≠ RErr →
    r.1 = false ∧
    nodes r.2 = flowNodes (graph_rows graphId w) ∧
    edges r.2 = flowEdges (graph_rows graphId w) (graph_edge_rows graphId w) ∧
    selectedNode r.2 = selectedNode w)).
Proof.
  intros r. subst r. unfold fetchGraph.
  destruct user as [u|].
  2:{ split_and!; try done; by intros [? ?]. }
  case_decide as Hg.
  { split_and!; try done. }
  unfold db_select_graph, request. run_step.
  destruct (net (requests w)) as [|i0] eqn:H0; simpl;
    [|run_step; unfold db_select_nodes, request, get_world; run_step;
      destruct (net (S (requests w))) as [|i1] eqn:H1; simpl;
      [|unfold db_select_edges, request, get_world; run_step;
        destruct (net (S (S (requests w)))) as [|i2] eqn:H2; simpl]].
  all: split_and!; try done; try (by intros [?|?]).
  all: intros _ _; split; try done.
  all: try (by intros ?); try (by intros ? ?); try (by intros [?|[?|?]]).
Qed.

Lemma fetchGraph_all_or_nothing_witness :
  let ok := fetchGraph Examples.net_up "g" (Some "u") true Loading.w_stored in
  let ko := fetchGraph Loading.net_two "g" (Some "u") true Loading.w_stored in
  (ok.1 = false ∧ length (nodes ok.2) = 3%nat ∧ length (edges ok.2) = 2%nat) ∧
  (ko.1 = true ∧ view ko.2 = view Loading.w_stored).
Proof.
  split.
  - destruct (fetchGraph_all_or_nothing Examples.net_up "g" (Some "u") true
                Loading.w_stored) as (_ & _ & _ & Hload).
    destruct Hload as [_ Hok]; [by eexists|done|].
    destruct Hok as (Hr & Hn & He & _); [done|done|done|].
    split_and!; [exact Hr| |].
    + rewrite Hn. vm_compute. reflexivity.
    + rewrite He. vm_compute. reflexivity.
  - destruct (fetchGraph_all_or_nothing Loading.net_two "g" (Some "u") true
                Loading.w_stored) as (_ & _ & _ & Hload).
    destruct Hload as [Hko _]; [by eexists|done|].
    apply Hko. right. right. reflexivity.
Defined.

Lemma prop_spread_Some (a m : Payload) k v :
  m !! k = Some v → prop (spread a m) k = v.
Proof. intros Hk. unfold prop, spread. by erewrite lookup_union_Some_l. Qed.

Lemma js_find_fmap_gen {A B} (P : B → Prop) `{!∀ x, Decision (P x)}
    (f : A → B) (l : list A) :
  js_find P (f <$> l) = f <$> js_find (λ x, P (f x)) l.
Proof.
  induction l as [|y l IH]; simpl; [done|].
  destruct (decide (P (f y))); [done|]. apply IH.
Qed.

Lemma flowNodes_ids nd : node_id <$> flowNodes nd = nd.*1.
Proof.
  unfold flowNodes. rewrite <- list_fmap_compose. by apply list_fmap_ext.
Qed.

Lemma flowEdges_ids nd ed : edge_id <$> flowEdges nd ed = ed.*1.
Proof.
  unfold flowEdges. rewrite <- list_fmap_compose. by apply list_fmap_ext.
Qed.

Lemma graph_rows_NoDup graphId w : NoDup (graph_rows graphId w).*1.
Proof.
  unfold graph_rows.
  eapply sublist_NoDup; [apply (NoDup_fst_map_to_list (db_nodes w))|].
  apply fmap_sublist, sublist_filter.
Qed.

Lemma graph_edge_rows_NoDup graphId w : NoDup (graph_edge_rows graphId w).*1.
Proof.
  unfold graph_edge_rows.
  eapply sublist_NoDup; [apply (NoDup_fst_map_to_list (db_edges w))|].
  apply fmap_sublist, sublist_filter.
Qed.

Lemma elem_of_graph_rows graphId w i row :
  (i, row) ∈ graph_rows graphId w ↔ db_nodes w !! i = Some row ∧ row_graph_id row = graphId.
Proof.
  unfold graph_rows. rewrite list_elem_of_filter, elem_of_map_to_list. simpl. tauto.
Qed.

(** Reading the row of an id out of the rows of a load. *)
Lemma js_find_graph_rows graphId w i :
  js_find (λ n : string * NodeRow, n.1 = i) (graph_rows graphId w)
  = match db_nodes w !! i with
    | Some row => if decide (row_graph_id row = graphId) then Some (i, row) else None
    | None => None
    end.
Proof.
  destruct (js_find (λ n : string * NodeRow, n.1 = i) (graph_rows graphId w))
    as [[i' row']|] eqn:Hfind.
  - apply js_find_Some in Hfind as [Hi Hin]. simpl in Hi. subst i'.
    apply elem_of_graph_rows in Hin as [-> Hg]. by rewrite decide_True.
  - destruct (db_nodes w !! i) as [row|] eqn:Hrow; [|done].
    case_decide as Hg; [|done].
    assert (is_Some (js_find (λ n : string * NodeRow, n.1 = i) (graph_rows graphId w)))
      as [x Hx].
    { apply (js_find_is_Some _ _ (i, row)); [|done]. by apply elem_of_graph_rows. }
    congruence.
Qed.

(** The handle [flowEdge] gives an edge comes from the stored child ids of
    its source. *)
Lemma flowEdge_handle nd i edge h :
  edge_sourceHandle (flowEdge nd i edge) = Some h →
  ∃ src, js_find (λ n : string * NodeRow, n.1 = row_source_node_id edge) nd = Some src ∧
    let stored := decode (default ∅ (row_data src.2)) in
    prop stored "type" = VStr "conditional" ∧
    ((h = "true" ∧ prop stored "trueChildId" = VStr (row_target_node_id edge)) ∨
     (h = "false" ∧ prop stored "falseChildId" = VStr (row_target_node_id edge))).
Proof.
  unfold flowEdge. simpl.
  destruct (js_find _ nd) as [src|]; [|by rewrite decide_False].
  case_decide as Hty; [|done].
  intros Hh. exists src. split; [done|]. simpl. split; [done|].
  destruct (truthy _ && bool_decide _) eqn:Ht.
  - apply andb_prop in Ht as [_ Ht%bool_decide_eq_true]. left. by simplify_eq.
  - destruct (truthy (prop _ "falseChildId") && bool_decide _) eqn:Hf; [|done].
    apply andb_prop in Hf as [_ Hf%bool_decide_eq_true]. right. by simplify_eq.
Qed.

Lemma flowNode_conditional i row :
  prop (decode (default ∅ (row_data row))) "type" = VStr "conditional" →
  node_type (flowNode i row) = VStr "conditional" ∧
  prop (node_data (flowNode i row)) "trueChildId"
  = prop (decode (default ∅ (row_data row))) "trueChildId" ∧
  prop (node_data (flowNode i row)) "falseChildId"
  = prop (decode (default ∅ (row_data row))) "falseChildId".
Proof.
  intros Hty. unfold flowNode. rewrite Hty. simpl.
  split; [done|]. split.
  - apply prop_spread_Some. apply lookup_insert_eq.
  - apply prop_spread_Some. rewrite lookup_insert_ne by done. apply lookup_insert_eq.
Qed.

(** X14. What a load puts in the view is well formed: node ids are distinct,
    edge ids are distinct, every node is the reconstruction of a stored
    row of the graph, every edge is a stored edge row, and the source of
    every edge is a loaded node. *)
Theorem loaded_graph_is_well_formed (graphId : string) (w : World) :
  let ns := flowNodes (graph_rows graphId w) in
  let es := flowEdges (graph_rows graphId w) (graph_edge_rows graphId w) in
  NoDup (node_id <$> ns) ∧
  NoDup (edge_id <$> es) ∧
  (∀ n, n ∈ ns → ∃ row, db_nodes w !! node_id n = Some row ∧
                        row_graph_id row = graphId ∧ n = flowNode (node_id n) row) ∧
  (∀ e, e ∈ es →
     db_edges w !! edge_id e
     = Some {| row_source_node_id := edge_source e; row_target_node_id := edge_target e |}
     ∧ ∃ n, n ∈ ns ∧ node_id n = edge_source e).
Proof.
  intros ns es. subst ns es. split_and!.
  - rewrite flowNodes_ids. apply graph_rows_NoDup.
  - rewrite flowEdges_ids. apply graph_edge_rows_NoDup.
  - intros n ([i row] & -> & Hin)%list_elem_of_fmap. simpl.
    apply elem_of_graph_rows in Hin as [Hrow Hg]. by exists row.
  - intros e ([i row] & -> & Hin)%list_elem_of_fmap. simpl.
    unfold graph_edge_rows in Hin.
    apply list_elem_of_filter in Hin as [Hsrc Hin]. simpl in Hsrc.
    apply elem_of_map_to_list in Hin. split; [by destruct row|].
    apply list_elem_of_fmap in Hsrc as ([j nrow] & Hj & Hjin). simpl in Hj.
    exists (flowNode j nrow). split; [|by simpl].
    unfold flowNodes. by apply (list_elem_of_fmap_2 (λ r, flowNode r.1 r.2) _ (j, nrow)).
Qed.

(** X15. On load the handle of an edge is recomputed from the stored child ids
    of its source, so in the loaded view a handle always agrees with the
    payload: an edge on handle [true] (or [false]) leaves a [conditional]
    node whose [trueChildId] (or [falseChildId]) is the target of the
    edge, and no other handle occurs. *)
Theorem loaded_handles_mirror_payload (graphId : string) (w : World) (e : Edge)
    (h : string) :
  let ns := flowNodes (graph_rows graphId w) in
  let es := flowEdges (graph_rows graphId w) (graph_edge_rows graphId w) in
  e ∈ es → edge_sourceHandle e = Some h →
  ∃ n, js_find (λ n, node_id n = edge_source e) ns = Some n ∧
       node_type n = VStr "conditional" ∧
       ((h = "true" ∧ prop (node_data n) "trueChildId" = VStr (edge_target e)) ∨
        (h = "false" ∧ prop (node_data n) "falseChildId" = VStr (edge_target e))).
Proof.
  intros ns es ([i row] & -> & Hin)%list_elem_of_fmap Hh.
  apply (flowEdge_handle _ i row) in Hh as ([j nrow] & Hfind & Hty & Hchild).
  simpl in *.
  exists (flowNode j nrow). split.
  - subst ns. unfold flowNodes.
    rewrite (js_find_fmap_gen (λ n, node_id n = row_source_node_id row)). simpl.
    by rewrite Hfind.
  - destruct (flowNode_conditional j nrow Hty) as (Hnt & Htrue & Hfalse).
    split; [done|]. rewrite Htrue, Hfalse. done.
Qed.

Lemma loaded_handles_mirror_payload_witness :
  let ns := flowNodes (graph_rows "g" Loading.w_stored) in
  ∃ n, js_find (λ n, node_id n = "D") ns = Some n ∧
       node_type n = VStr "conditional" ∧
       (("false" = "true" ∧ prop (node_data n) "trueChildId" = VStr "C") ∨
        ("false" = "false" ∧ prop (node_data n) "falseChildId" = VStr "C")).
Proof.
  apply (loaded_handles_mirror_payload "g" Loading.w_stored
           {| edge_id := "e3"; edge_source := "D"; edge_target := "C";
              edge_sourceHandle := Some "false" |} "false").
  - apply (bool_decide_unpack _). vm_compute. exact I.
  - reflexivity.
Defined.

(** ** Connecting, then loading again *)

Section RoundTrip.
Variable net : nat → Reply.

Lemma updateNodeData_ok i d row w :
  net (requests w) ≠ RErr → net (S (requests w)) ≠ RErr →
  db_nodes w !! i = Some row →
  (updateNodeData net i d w).1 = true ∧
  db_nodes (updateNodeData net i d w).2
  = alter (set_row_data (encode (spread (decode (default ∅ (row_data row))) d))) i
      (db_nodes w) ∧
  db_edges (updateNodeData net i d w).2 = db_edges w.
Proof.
  intros H0 H1 Hrow.
  unfold updateNodeData, setNodes, db_select_node_data, request, get_world.
  run_step.
  destruct (net (requests w)) as [|i1]; [done|]. simpl. rewrite Hrow. simpl.
  unfold db_update_node_data, request. run_step. rewrite default_decode.
  by destruct (net (S (requests w))) as [|i2].
Qed.

Lemma updateNodeRelationships_ok s t h r k row w :
  store_up net →
  relationship_field s h = Some k →
  db_nodes w !! node_id s = Some row →
  db_nodes (updateNodeRelationships net s t h r w).2
  = alter (set_row_data (encode (spread (decode (default ∅ (row_data row)))
                                     {[ k := child_value t r ]})))
      (node_id s) (db_nodes w) ∧
  db_edges (updateNodeRelationships net s t h r w).2 = db_edges w.
Proof.
  intros Hup Hk Hrow. unfold updateNodeRelationships.
  unfold relationship_field in Hk.
  repeat case_decide; simplify_eq; run_step.
  all: match goal with
       | Hr : db_nodes ?w0 !! _ = Some ?row0
         |- context [updateNodeData net ?i ?d ?w0] =>
           by destruct (updateNodeData_ok i d row0 w0 (Hup _) (Hup _) Hr) as (_ & ? & ?)
       end.
Qed.

(** A connect from a [conditional] node on a handle, with the store
    answering every request and handing out a new edge id. *)
Lemma onConnect_conditional_ok p s t h row w :
  store_up net →
  js_find (λ n, node_id n = conn_source p) (nodes w) = Some s →
  js_find (λ n, node_id n = conn_target p) (nodes w) = Some t →
  node_type s = VStr "conditional" →
  conn_sourceHandle p = Some h → h ≠ "" →
  db_nodes w !! node_id s = Some row →
  (∀ k i, net k = ROk i → db_edges w !! i = None) →
  ∃ i k,
    relationship_field s (Some h) = k ∧
    edges (onConnect net (nodes w) (edges w) p w).2
    = filter (connect_keeps s p) (edges w) ++ [new_edge i s t (Some h)] ∧
    db_edges (onConnect net (nodes w) (edges w) p w).2 !! i
    = Some {| row_source_node_id := node_id s; row_target_node_id := node_id t |} ∧
    db_nodes (onConnect net (nodes w) (edges w) p w).2
    = match k with
      | Some k => alter (set_row_data (encode (spread (decode (default ∅ (row_data row)))
                                                 {[ k := VStr (node_id t) ]})))
                    (node_id s) (db_nodes w)
      | None => db_nodes w
      end.
Proof.
  intros Hup Hs Ht Hty Hh Hne Hrow Hfresh.
  assert (handle_truthy (Some h) = true) as Htruthy.
  { simpl. apply negb_true_iff. by apply String.eqb_neq. }
  unfold onConnect. rewrite Hs, Ht.
  rewrite decide_False by (rewrite Hty; done). run_step.
  rewrite (decide_False (P := node_type s = VStr "analysis")) by (rewrite Hty; done).
  rewrite Hh. rewrite decide_True by done. simpl.
  match goal with |- context [for_of ?l _ w] => set (l2 := l) end.
  destruct (delete_loop net l2 w) as (Hr & Hn & Hv & Hmono & _).
  set (w2 := (for_of l2 _ w).2) in *.
  destruct (net (requests w2)) as [|i] eqn:Hnet; [by destruct (Hup (requests w2))|].
  exists i, (relationship_field s (Some h)). split; [done|].
  erewrite createEdge_ok; [|exact Hnet|by eapply Hmono, Hfresh]. simpl. run_step.
  set (w3 := log _ (with_db_edges _ (tick w2))).
  unfold setEdges. simpl.
  rewrite (view_edges _ _ (updateNodeRelationships_view _ _ _ _ _ _)). simpl.
  rewrite (view_edges _ _ Hv).
  split; [done|].
  destruct (relationship_field s (Some h)) as [k|] eqn:Hk.
  - destruct (updateNodeRelationships_ok s t (Some h) false k row w3 Hup Hk)
      as [Hdn Hde]; [subst w3; simpl; by rewrite Hn|].
    rewrite Hdn, Hde. subst w3. simpl. rewrite Hn.
    split; [apply lookup_insert_eq|done].
  - unfold updateNodeRelationships. unfold relationship_field in Hk.
    repeat case_decide; simplify_eq. subst w3. simpl. rewrite Hn.
    split; [apply lookup_insert_eq|done].
Qed.

End RoundTrip.

(** X16. What [onConnect] persists for a branch of a [conditional] node is what
    a load reads back: with the store answering every request, the edge
    the connect adds to the view is among the edges rebuilt from the rows
    of the graph, on the same handle.  For handle [false] this needs the
    stored [trueChildId] not to name the same target, since a load tries
    [true] first. *)
Theorem connect_then_load_keeps_the_handle (net : nat → Reply) (graphId : string)
    (p : Connection) (s t : Node) (h : string) (row : NodeRow) (w : World) :
  store_up net →
  (∀ k i, net k = ROk i → db_edges w !! i = None) →
  js_find (λ n, node_id n = conn_source p) (nodes w) = Some s →
  js_find (λ n, node_id n = conn_target p) (nodes w) = Some t →
  node_type s = VStr "conditional" →
  conn_sourceHandle p = Some h → h = "true" ∨ h = "false" →
  node_id t ≠ "" →
  db_nodes w !! node_id s = Some row →
  row_graph_id row = graphId →
  prop (decode (default ∅ (row_data row))) "type" = VStr "conditional" →
  (h = "false" → prop (decode (default ∅ (row_data row))) "trueChildId" ≠ VStr (node_id t)) →
  let w1 := (onConnect net (nodes w) (edges w) p w).2 in
  ∃ e, last (edges w1) = Some e ∧
       edge_source e = node_id s ∧ edge_target e = node_id t ∧
       edge_sourceHandle e = Some h ∧
       e ∈ flowEdges (graph_rows graphId w1) (graph_edge_rows graphId w1).
Proof.
  intros Hup Hfresh Hs Ht Hty Hh Hhs Htid Hrow Hg Hstored Hfalse w1.
  assert (h ≠ "") as Hne by (destruct Hhs as [-> | ->]; done).
  destruct (onConnect_conditional_ok net p s t h row w Hup Hs Ht Hty Hh Hne Hrow Hfresh)
    as (i & k & Hk & Hedges & Hde & Hdn).
  fold w1 in Hedges, Hde, Hdn.
  assert (handle_or_undefined (Some h) = Some h) as Hhou.
  { unfold handle_or_undefined. simpl.
    by rewrite (proj2 (negb_true_iff _) (proj2 (String.eqb_neq _ _) Hne)). }
  exists (new_edge i s t (Some h)). split_and!; try done.
  { rewrite Hedges. apply last_snoc. }
  rewrite relationship_field_conditional in Hk by done.
  set (f := if decide (h = "true") then "trueChildId" else "falseChildId").
  assert (k = Some f) as ->.
  { subst f k. destruct Hhs as [-> | ->]; by repeat case_decide. }
  set (row' := set_row_data (encode (spread (decode (default ∅ (row_data row)))
                                       {[ f := VStr (node_id t) ]})) row).
  assert (db_nodes w1 !! node_id s = Some row') as Hrow'.
  { rewrite Hdn. by rewrite lookup_alter_eq, Hrow. }
  assert (js_find (λ n : string * NodeRow, n.1 = node_id s) (graph_rows graphId w1)
          = Some (node_id s, row')) as Hfind.
  { rewrite js_find_graph_rows, Hrow'. by rewrite decide_True. }
  unfold flowEdges.
  apply (list_elem_of_fmap_2' _ _ (i, {| row_source_node_id := node_id s;
                                         row_target_node_id := node_id t |})).
  - unfold graph_edge_rows. apply list_elem_of_filter. split.
    + simpl. apply list_elem_of_fmap. exists (node_id s, row'). split; [done|].
      by apply elem_of_graph_rows.
    + by apply elem_of_map_to_list.
  - unfold new_edge, flowEdge. simpl. rewrite Hfind, Hhou. simpl.
    assert (truthy (VStr (node_id t)) = true) as Htr.
    { simpl. apply negb_true_iff. by apply String.eqb_neq. }
    assert (prop (decode (encode (spread (decode (default ∅ (row_data row)))
                                    {[ f := VStr (node_id t) ]}))) "type"
            = VStr "conditional") as Hty'.
    { rewrite prop_stored_merge_ne; [done|].
      subst f. by case_decide. }
    rewrite decide_True by done.
    destruct Hhs as [-> | ->]; subst f; simpl.
    + rewrite prop_stored_merge_str, Htr. by rewrite bool_decide_eq_true_2.
    + rewrite (prop_stored_merge_ne _ "falseChildId" _ "trueChildId") by done.
      rewrite (bool_decide_eq_false_2 _ (Hfalse eq_refl)), andb_false_r.
      rewrite prop_stored_merge_str, Htr. by rewrite bool_decide_eq_true_2.
Qed.

Lemma connect_then_load_keeps_the_handle_witness :
  let w1 := (onConnect Examples.net_up (nodes Examples.w_def) (edges Examples.w_def)
               {| conn_source := "D"; conn_target := "E";
                  conn_sourceHandle := Some "false" |} Examples.w_def).2 in
  ∃ e, last (edges w1) = Some e ∧
       edge_source e = "D" ∧ edge_target e = "E" ∧
       edge_sourceHandle e = Some "false" ∧
       e ∈ flowEdges (graph_rows "g" w1) (graph_edge_rows "g" w1).
Proof.
  apply (connect_then_load_keeps_the_handle Examples.net_up "g"
           {| conn_source := "D"; conn_target := "E"; conn_sourceHandle := Some "false" |}
           (Examples.mk_node "D" "conditional") (Examples.mk_node "E" "prompt") "false"
           {| row_graph_id := "g"; row_label := "D"; row_position_x := 0;
              row_position_y := 0;
              row_data := Some {[ "type" := JStr "conditional" ]} |});
    try done.
  by right.
Defined.

(** ** Edits reported by the node renderers *)

(** X17. An edit of the prompt text of a node that carries the
    [onPromptChange] callback shows in the view at once and sends the
    store the [prompt] key alone: whatever the store answers, no other key
    of the stored payload, no other row and no edge changes (the label and
    the callback held by the view payload never reach the store); when the
    store answers both requests the stored prompt is the new text. *)
Theorem prompt_edit_persists_only_the_prompt (net : nat → Reply) (data : Payload)
    (id value : string) (w : World) :
  nullish (prop data "onPromptChange") = false →
  let w' := (handlePromptChange net data id value w).2 in
  nodes w' = patch_node id {[ "prompt" := VStr value ]} <$> nodes w ∧
  edges w' = edges w ∧
  db_edges w' = db_edges w ∧
  (∀ j, j ≠ id → db_nodes w' !! j = db_nodes w !! j) ∧
  (∀ row row' k,
     db_nodes w !! id = Some row → db_nodes w' !! id = Some row' → k ≠ "prompt" →
     default ∅ (row_data row') !! k = default ∅ (row_data row) !! k) ∧
  (∀ row, net (requests w) ≠ RErr → net (S (requests w)) ≠ RErr →
     db_nodes w !! id = Some row →
     ∃ row', db_nodes w' !! id = Some row' ∧
             prop (decode (default ∅ (row_data row'))) "prompt" = VStr value).
Proof.
  intros Hcb w'. subst w'. unfold handlePromptChange. rewrite Hcb.
  unfold onPromptChange. rewrite prop_spread_singleton. run_step.
  destruct (updateNodeData_effects net id {[ "prompt" := VStr value ]} w)
    as (Hn & He & Hde & Ho & _ & Hk & _).
  split_and!; try done.
  - intros row row' k Hrow Hrow' Hne. apply (Hk row row' k Hrow Hrow').
    by apply lookup_singleton_ne.
  - intros row H0 H1 Hrow.
    destruct (updateNodeData_ok net id {[ "prompt" := VStr value ]} row w H0 H1 Hrow)
      as (_ & Hdn & _).
    rewrite Hdn, lookup_alter_eq, Hrow. simpl. eexists. split; [done|]. simpl.
    apply prop_stored_merge_str.
Qed.

Lemma prompt_edit_persists_only_the_prompt_witness :
  let data := node_data (flowNode "B" (Examples.mk_row "prompt")) in
  let w' := (handlePromptChange Examples.net_up data "B" "hello" Examples.w_abc).2 in
  ∃ row', db_nodes w' !! "B" = Some row' ∧
          prop (decode (default ∅ (row_data row'))) "prompt" = VStr "hello" ∧
          default ∅ (row_data row') !! "label" = None.
Proof.
  destruct (prompt_edit_persists_only_the_prompt Examples.net_up
              (node_data (flowNode "B" (Examples.mk_row "prompt"))) "B" "hello"
              Examples.w_abc) as (_ & _ & _ & _ & Hk & Hok); [reflexivity|].
  destruct (Hok _ ltac:(done) ltac:(done) eq_refl) as (row' & Hrow' & Hp).
  exists row'. split_and!; [exact Hrow'|exact Hp|].
  rewrite (Hk _ row' "label" eq_refl Hrow') by done. reflexivity.
Defined.

(** *** Callbacks that no payload carries *)

Lemma inert_patch i k v n :
  k ∉ callback_keys → inert n → inert (patch_node i {[ k := v ]} n).
Proof.
  intros Hk (Hl & Hs & Hc & Hp). unfold inert.
  rewrite patch_node_type.
  rewrite !patch_node_prop_ne; [done|..];
    intros ->; apply Hk; unfold callback_keys;
    repeat first [apply list_elem_of_here | apply list_elem_of_further].
Qed.

Lemma relationship_keys_are_no_callbacks k :
  k ∈ relationship_keys → k ∉ callback_keys.
Proof.
  assert (Forall (λ k, k ∉ callback_keys) relationship_keys) as Hall.
  { apply (bool_decide_unpack _). vm_compute. exact I. }
  intros Hk. by eapply Forall_forall in Hall.
Qed.

Lemma inert_relate_nodes s t h r ns :
  Forall inert ns → Forall inert (relate_nodes s t h r ns).
Proof.
  intros Hns. unfold relate_nodes.
  destruct (relationship_field s h) as [k|] eqn:Hk; [|done].
  apply Forall_fmap. eapply Forall_impl; [exact Hns|].
  intros n Hn. simpl. apply inert_patch; [|done].
  by eapply relationship_keys_are_no_callbacks, relationship_field_key.
Qed.

Lemma inert_applyNodeChanges cs : ∀ ns,
  Forall inert ns → Forall inert (applyNodeChanges cs ns).
Proof.
  unfold applyNodeChanges. induction cs as [|c cs IH]; intros ns Hns; [done|].
  simpl. apply IH. destruct c as [i|i [p|]|i]; simpl; try done.
  - apply Forall_forall. intros n [_ Hn]%list_elem_of_filter.
    by eapply Forall_forall in Hns.
  - apply Forall_fmap. eapply Forall_impl; [exact Hns|].
    intros n Hn. simpl. by case_decide.
Qed.

Lemma inert_flowNode i row : inert (flowNode i row).
Proof.
  unfold inert, flowNode. simpl.
  repeat case_decide; split_and!; try done.
Qed.

Lemma inert_added_node type label nid : inert (added_node type label nid).
Proof.
  unfold inert, added_node. simpl.
  case_decide; split_and!; try done. intros Hne. by subst.
Qed.

Section Inert.
Variable net : nat → Reply.
Variable graphId : string.

Lemma for_of_inert {A} (l : list A) (f : A → M unit) :
  (∀ x w, nodes (f x w).2 = nodes w ∨
          ∃ s t h r, nodes (f x w).2 = relate_nodes s t h r (nodes w)) →
  ∀ w, Forall inert (nodes w) → Forall inert (nodes (for_of l f w).2).
Proof.
  intros Hf. induction l as [|x l IH]; intros w Hw; [done|].
  simpl. run_step. apply IH.
  destruct (Hf x w) as [->|(s & t & h & r & ->)]; [done|].
  by apply inert_relate_nodes.
Qed.

Lemma onConnect_inert ns es p w :
  Forall inert (nodes w) → Forall inert (nodes (onConnect net ns es p w).2).
Proof.
  intros Hw.
  destruct (onConnect_view net ns es p w) as [Hv|(s & t & i & _ & _ & _ & Hv)];
    rewrite (view_nodes _ _ Hv); [done|].
  simpl. by apply inert_relate_nodes.
Qed.

Lemma onEdgesChangeCallback_inert ns es changes w :
  Forall inert (nodes w) →
  Forall inert (nodes (onEdgesChangeCallback net ns es changes w).2).
Proof.
  intros Hw. unfold onEdgesChangeCallback, setEdges. run_step.
  apply for_of_inert; [|done].
  intros x w0. simpl.
  destruct (js_find (λ e, edge_id e = ec_id x) es) as [edge|]; [|by left].
  run_step.
  pose proof (deleteEdge_view net (ec_id x) w0) as Hd.
  destruct (js_find (λ n, node_id n = edge_source edge) ns) as [s|];
    [destruct (js_find (λ n, node_id n = edge_target edge) ns) as [t|]|].
  - rewrite (view_nodes _ _ (updateNodeRelationships_view _ _ _ _ _ _)). simpl.
    rewrite (view_nodes _ _ Hd). right. by eexists _, _, _, _.
  - simpl. rewrite (view_nodes _ _ Hd). by left.
  - simpl. rewrite (view_nodes _ _ Hd). by left.
Qed.

Lemma handleAddNode_inert sel type label w :
  Forall inert (nodes w) →
  Forall inert (nodes (handleAddNode net graphId (nodes w) (edges w) sel type label w).2).
Proof.
  intros Hw. unfold handleAddNode. case_decide; [done|]. run_step.
  match goal with
  | |- context [db_insert_node net graphId label ?x ?y ?d w] =>
      pose proof (db_insert_node_view net graphId label x y d w) as Hv;
      destruct (db_insert_node net graphId label x y d w) as [[nid|] w1]
  end; simpl in *; [|by rewrite (view_nodes _ _ Hv)].
  run_step.
  assert (Forall inert (nodes w ++ [added_node type label nid])) as Hnew.
  { apply Forall_app. split; [done|]. apply Forall_singleton, inert_added_node. }
  destruct sel as [s|]; [|done].
  case_decide; [done|]. run_step.
  match goal with
  | |- context [createEdge net ?a ?b ?h ?w0] =>
      pose proof (createEdge_view net a b h w0) as Hc;
      destruct (createEdge net a b h w0) as [[e|] w3]
  end; simpl in *.
  - run_step. unfold setEdges. simpl.
    rewrite (view_nodes _ _ (updateNodeRelationships_view _ _ _ _ _ _)). simpl.
    rewrite (view_nodes _ _ Hc). simpl. by apply inert_relate_nodes.
  - rewrite (view_nodes _ _ Hc). done.
Qed.

Lemma dispatch_inert ev w :
  Forall inert (nodes w) → Forall inert (nodes (dispatch net graphId ev w).2).
Proof.
  intros Hw. unfold dispatch, get_world. run_step.
  destruct ev as [p|cs|cs|type label|node].
  - by apply onConnect_inert.
  - rewrite onNodesChangeCallback_nodes. by apply inert_applyNodeChanges.
  - by apply onEdgesChangeCallback_inert.
  - by apply handleAddNode_inert.
  - done.
Qed.

Lemma run_inert evs : ∀ w,
  Forall inert (nodes w) → Forall inert (nodes (run net graphId evs w).2).
Proof.
  induction evs as [|[t ev] evs IH]; intros w Hw; [done|].
  unfold run. simpl. run_step. fold (run net graphId evs).
  apply IH. unfold step. simpl. run_step.
  apply dispatch_inert. by destruct (elapse_to_graph net t w) as [-> _].
Qed.

End Inert.

(** X18. No node the graph builds carries [onLabelChange], [onStatesChange] or
    [onConditionalChange], and only [prompt] nodes carry [onPromptChange];
    no event changes that.  So in the view a load leaves, and in every
    state reached from it by connects, node and edge changes, added nodes
    and clicks, the renderers' label, state-selection and condition edits
    are dropped for every node, and so are prompt edits on a node that is
    not a [prompt] node: nothing changes in the view or in the store. *)
Theorem renderer_edits_are_dropped (net : nat → Reply) (graphId : string)
    (evs : list (nat * UiEvent)) (w : World) :
  Forall inert (flowNodes (graph_rows graphId w)) ∧
  (Forall inert (nodes w) →
   ∀ n, n ∈ nodes (run net graphId evs w).2 →
   ∀ (onLabelChange : string → string → M unit)
     (onStatesChange : string → list string → M unit)
     (onConditionalChange : string → Payload → M unit)
     (id text : string) (stateIds : list string) (newData : Payload) (w0 : World),
     handleLabelChange onLabelChange (node_data n) id text w0 = (tt, w0) ∧
     handleStatesChange onStatesChange (node_data n) id stateIds w0 = (tt, w0) ∧
     handleConditionalChange onConditionalChange (node_data n) id newData w0 = (tt, w0) ∧
     (node_type n ≠ VStr "prompt" →
      handlePromptChange net (node_data n) id text w0 = (tt, w0))).
Proof.
  split.
  - unfold flowNodes. apply Forall_fmap, Forall_forall. intros r _. apply inert_flowNode.
  - intros Hw n Hn L S C id text stateIds newData w0.
    pose proof (run_inert net graphId evs w Hw) as Hall.
    eapply Forall_forall in Hall as (Hl & Hs & Hc & Hp); [|exact Hn].
    unfold handleLabelChange, handleStatesChange, handleConditionalChange,
      handlePromptChange.
    rewrite Hl, Hs, Hc. split_and!; try done.
    intros Hty. by rewrite (Hp Hty).
Qed.

Lemma renderer_edits_are_dropped_witness :
  let w := (fetchGraph Examples.net_up "g" (Some "u") true Loading.w_stored).2 in
  let w' := (run Examples.net_up "g"
               [(0, Examples.connect "D" "B" (Some "true")); (5, EAddNode "analysis" "N")]
               w).2 in
  Forall (λ n, node_type n ≠ VStr "prompt" →
               handlePromptChange Examples.net_up (node_data n) (node_id n) "text" w'
               = (tt, w')) (nodes w').
Proof.
  intros w w'. apply Forall_forall. intros n Hn Hty.
  destruct (renderer_edits_are_dropped Examples.net_up "g"
              [(0, Examples.connect "D" "B" (Some "true")); (5, EAddNode "analysis" "N")]
              w) as [_ Hdrop].
  destruct (Hdrop (proj1 (renderer_edits_are_dropped Examples.net_up "g" []
                            Loading.w_stored)) n Hn
              (λ _ _, mret tt) (λ _ _, mret tt) (λ _ _, mret tt)
              (node_id n) "text" [] ∅ w') as (_ & _ & _ & Hp).
  by apply Hp.
Defined.

(** ** Removing edges keeps the payload fields in step *)

Lemma filter_all {A} (P : A → Prop) `{!∀ x, Decision (P x)} (l : list A) :
  (∀ x, x ∈ l → P x) → filter P l = l.
Proof.
  induction l as [|y l IH]; intros Hl; [done|].
  rewrite filter_cons_True by (apply Hl, list_elem_of_here).
  f_equal. apply IH. intros x Hx. by apply Hl, list_elem_of_further.
Qed.

Lemma applyEdgeChanges_filter cs : ∀ es,
  applyEdgeChanges cs es = filter (λ e, ECRemove (edge_id e) ∉ cs) es.
Proof.
  unfold applyEdgeChanges. induction cs as [|c cs IH]; intros es; simpl.
  - symmetry. apply filter_all. intros e _. apply not_elem_of_nil.
  - rewrite IH. destruct c as [i|i]; simpl.
    + rewrite list_filter_filter. apply list_filter_iff. intros e.
      rewrite not_elem_of_cons. split.
      * intros [? ?]. split; [congruence|done].
      * intros [? ?]. split; [done|congruence].
    + apply list_filter_iff. intros e. rewrite not_elem_of_cons. split.
      * intros ?. split; [done|done].
      * by intros [_ ?].
Qed.

Lemma js_find_NoDup (es : list Edge) e0 :
  NoDup (edge_id <$> es) → e0 ∈ es →
  js_find (λ e, edge_id e = edge_id e0) es = Some e0.
Proof.
  induction es as [|e es IH]; intros Hnd Hin; [by apply elem_of_nil in Hin|].
  simpl in Hnd. apply NoDup_cons in Hnd as [Hne Hnd]. simpl.
  apply elem_of_cons in Hin as [->|Hin]; [by rewrite decide_True|].
  rewrite decide_False; [by apply IH|].
  intros Heq. apply Hne. rewrite Heq. by apply list_elem_of_fmap_2.
Qed.

Lemma for_of_nodes {A} (l : list A) (f : A → M unit)
    (turn : list Node → A → list Node) :
  (∀ x w, nodes (f x w).2 = turn (nodes w) x) →
  ∀ w, nodes (for_of l f w).2 = fold_left turn l (nodes w).
Proof.
  intros Hf. induction l as [|x l IH]; intros w; [done|].
  simpl. run_step. by rewrite IH, Hf.
Qed.

Lemma unrelate_turn ns es a c cur n1 :
  js_find (λ n, node_id n = a) (unrelate ns es cur c) = Some n1 →
  ∃ n, js_find (λ n, node_id n = a) cur = Some n ∧ after_turns ns es [c] a n n1.
Proof.
  unfold unrelate, after_turns.
  destruct (js_find (λ e, edge_id e = ec_id c) es) as [edge|] eqn:He;
    [destruct (js_find (λ n, node_id n = edge_source edge) ns) as [s|] eqn:Hs;
     [destruct (js_find (λ n, node_id n = edge_target edge) ns) as [t|] eqn:Ht|]|].
  2-4: intros Hn; exists n1; split; [done|]; split_and!; [done|done|]; intros k;
       split_and!; [|done|by right];
       intros (c' & ->%list_elem_of_singleton & edge' & s' & t' & ? & ? & ? & _);
       simplify_eq.
  rewrite js_find_relate_nodes.
  destruct (relationship_field s (handle_or_undefined (edge_sourceHandle edge)))
    as [k0|] eqn:Hk0.
  - intros Hn. destruct (js_find (λ n, node_id n = a) cur) as [n|] eqn:Hcur; [|done].
    simpl in Hn. simplify_eq. exists n. split; [done|].
    rewrite patch_node_id, patch_node_type. split_and!; [done|done|]. intros k.
    destruct (js_find_Some _ _ _ Hcur) as [Hid _].
    destruct (decide (node_id s = a)) as [Hsa|Hsa].
    + destruct (decide (k0 = k)) as [->|Hk].
      * rewrite patch_node_prop by congruence. split_and!; [done| |by left].
        intros Hno. exfalso. apply Hno. exists c. split; [apply list_elem_of_here|].
        by exists edge, s, t.
      * rewrite patch_node_prop_ne by done. split_and!; [|done|by right].
        intros (c' & ->%list_elem_of_singleton & edge' & s' & t' & ? & ? & ? & ? & ?).
        simplify_eq.
    + rewrite patch_node_other by congruence. split_and!; [|done|by right].
      intros (c' & ->%list_elem_of_singleton & edge' & s' & t' & ? & ? & ? & ? & ?).
      simplify_eq.
  - intros Hn. exists n1. split; [done|]. split_and!; [done|done|]. intros k.
    split_and!; [|done|by right].
    intros (c' & ->%list_elem_of_singleton & edge' & s' & t' & ? & ? & ? & ? & ?).
    simplify_eq.
Qed.

Lemma unrelate_turns ns es a l : ∀ cur n',
  js_find (λ n, node_id n = a) (fold_left (unrelate ns es) l cur) = Some n' →
  ∃ n, js_find (λ n, node_id n = a) cur = Some n ∧ after_turns ns es l a n n'.
Proof.
  induction l as [|c l IH]; intros cur n' Hn'; simpl in Hn'.
  - exists n'. split; [done|]. split_and!; [done|done|]. intros k.
    split_and!; [|done|by right]. intros (c & Hc & _). by apply elem_of_nil in Hc.
  - apply IH in Hn' as (n1 & Hn1 & Hid1 & Hty1 & Hk1).
    apply unrelate_turn in Hn1 as (n & Hn & Hid & Hty & Hk).
    exists n. split; [done|]. split_and!; [congruence|congruence|]. intros k.
    destruct (Hk1 k) as (Hhit1 & Hno1 & Hor1). destruct (Hk k) as (Hhit & Hno & Hor).
    split_and!.
    + intros (c' & Hc' & Hf). apply elem_of_cons in Hc' as [->|Hc'].
      * destruct Hor1 as [Hu | Hu]; rewrite Hu; [done|]. apply Hhit. exists c.
        split; [apply list_elem_of_here|done].
      * apply Hhit1. by exists c'.
    + intros Hnone. rewrite Hno1, Hno; [done| |].
      * intros (c' & ->%list_elem_of_singleton & Hf). apply Hnone. exists c.
        split; [apply list_elem_of_here|done].
      * intros (c' & Hc' & Hf). apply Hnone. exists c'.
        split; [by apply list_elem_of_further|done].
    + destruct Hor1 as [Hu | Hu]; rewrite Hu; [by left|done].
Qed.

Section EdgeRemovalNodes.
Variable net : nat → Reply.

Lemma onEdgesChangeCallback_nodes ns es changes w :
  nodes (onEdgesChangeCallback net ns es changes w).2
  = fold_left (unrelate ns es) (filter is_remove_e changes) (nodes w).
Proof.
  unfold onEdgesChangeCallback, setEdges. run_step.
  rewrite (for_of_nodes _ _ (unrelate ns es)); [done|].
  intros x w0. unfold unrelate.
  destruct (js_find (λ e, edge_id e = ec_id x) es) as [edge|]; [|done].
  run_step.
  pose proof (deleteEdge_view net (ec_id x) w0) as Hd.
  destruct (js_find (λ n, node_id n = edge_source edge) ns) as [s|];
    [destruct (js_find (λ n, node_id n = edge_target edge) ns) as [t|]|].
  - rewrite (view_nodes _ _ (updateNodeRelationships_view _ _ _ _ _ _)). simpl.
    by rewrite (view_nodes _ _ Hd).
  - simpl. by rewrite (view_nodes _ _ Hd).
  - simpl. by rewrite (view_nodes _ _ Hd).
Qed.

End EdgeRemovalNodes.

(** The edges of one slot of node [a] (those leaving it that satisfy [P],
    written to field [k]) and the field stay in step when edges are
    removed. *)
Lemma mirrors_after_removal ns es changes a k (P : Edge → Prop)
    `{!∀ e, Decision (P e)} n n' :
  NoDup (edge_id <$> es) →
  (∀ e, e ∈ es → is_Some (js_find (λ n, node_id n = edge_target e) ns)) →
  js_find (λ n, node_id n = a) ns = Some n →
  (∀ e, edge_source e = a →
        (P e ↔ relationship_field n (handle_or_undefined (edge_sourceHandle e)) = Some k)) →
  after_turns ns es (filter is_remove_e changes) a n n' →
  mirrors k n (filter (λ e, edge_source e = a ∧ P e) es) →
  mirrors k n' (filter (λ e, edge_source e = a ∧ P e) (applyEdgeChanges changes es)).
Proof.
  intros Hnd Htgt Hn HP (_ & _ & Hk) Hm. destruct (Hk k) as (Hhit & Hno & Hor).
  rewrite applyEdgeChanges_filter, list_filter_filter.
  rewrite (list_filter_iff _ (λ e, (ECRemove (edge_id e) ∉ changes)
                                   ∧ (edge_source e = a ∧ P e))) by (intros e; tauto).
  rewrite <- list_filter_filter.
  destruct (filter (λ e, edge_source e = a ∧ P e) es) as [|e0 [|e1 L]] eqn:HL;
    simpl in Hm; [|clear Hor|done].
  - simpl. destruct Hor as [Hu | Hu]; by rewrite Hu.
  - assert (e0 ∈ es ∧ edge_source e0 = a ∧ P e0) as (He0 & Hsrc & HP0).
    { assert (e0 ∈ filter (λ e, edge_source e = a ∧ P e) es) as Hin
        by (rewrite HL; apply list_elem_of_here).
      apply list_elem_of_filter in Hin. tauto. }
    destruct (decide (ECRemove (edge_id e0) ∈ changes)) as [Hrm|Hrm].
    + rewrite filter_single_out by tauto. simpl. apply Hhit.
      exists (ECRemove (edge_id e0)). split; [by apply list_elem_of_filter|].
      destruct (Htgt e0 He0) as [t Ht]. exists e0, n, t.
      destruct (js_find_Some _ _ _ Hn) as [Hid _].
      split_and!; [by apply js_find_NoDup|by rewrite Hsrc|done|done|by apply HP].
    + rewrite filter_single_in by done. simpl. rewrite Hno; [done|].
      intros (c & Hc & edge & s & t & He & Hs & Ht & Hid & Hf).
      apply list_elem_of_filter in Hc as [Hrem Hc].
      destruct (js_find_Some _ _ _ He) as [Heid Hin].
      destruct (js_find_Some _ _ _ Hs) as [Hsid _]. simpl in Hsid.
      assert (edge_source edge = a) as Hsrc' by congruence.
      rewrite Hsrc' in Hs. rewrite Hn in Hs. injection Hs as Hs. subst s.
      assert (edge ∈ filter (λ e, edge_source e = a ∧ P e) es) as Hin'.
      { apply list_elem_of_filter. split; [|done]. split; [done|]. by apply HP. }
      rewrite HL in Hin'. apply list_elem_of_singleton in Hin'. subst edge.
      apply Hrm. destruct c as [i|i]; [|done]. simpl in Heid. by rewrite Heid.
Qed.

(** X19. Removing edges through the edges-change callback keeps the payload
    fields in step with the edges, when the edge ids are distinct and
    every edge points to a node of the view: an [analysis] node that had
    at most one outgoing edge, with [childId] naming its target, still
    does, and so does each handle of a [conditional] node with its
    field. *)
Theorem edge_removal_keeps_fields_in_step (net : nat → Reply) (graphId : string)
    (changes : list EdgeChange) (a : string) (w : World) :
  NoDup (edge_id <$> edges w) →
  (∀ e, e ∈ edges w → is_Some (js_find (λ n, node_id n = edge_target e) (nodes w))) →
  let w' := (dispatch net graphId (EEdgesChange changes) w).2 in
  (analysis_inv a w → analysis_inv a w') ∧
  (conditional_inv a w → conditional_inv a w').
Proof.
  intros Hnd Htgt w'.
  assert (w' = (onEdgesChangeCallback net (nodes w) (edges w) changes w).2) as Hw'
    by (subst w'; unfold dispatch, get_world; by run_step).
  destruct (onEdgesChangeCallback_local net (nodes w) (edges w) changes w)
    as (He & _).
  pose proof (onEdgesChangeCallback_nodes net (nodes w) (edges w) changes w) as Hns.
  rewrite <- Hw' in He, Hns. clear Hw'.
  split.
  - intros Hinv n' Hn' Hty'. rewrite Hns in Hn'.
    apply unrelate_turns in Hn' as (n & Hn & Hafter).
    pose proof Hafter as (_ & Hty & _). rewrite Hty in Hty'.
    specialize (Hinv n Hn Hty'). rewrite He. unfold outgoing in *.
    rewrite (list_filter_iff _ (λ e, edge_source e = a ∧ True)) by (intros e; tauto).
    rewrite (list_filter_iff _ (λ e, edge_source e = a ∧ True)) in Hinv
      by (intros e; tauto).
    apply (mirrors_after_removal (nodes w) (edges w) changes a "childId" (λ _, True) n);
      try done.
    intros e _. unfold relationship_field. by rewrite decide_True.
  - intros Hinv n' Hn' Hty'. rewrite Hns in Hn'.
    apply unrelate_turns in Hn' as (n & Hn & Hafter).
    pose proof Hafter as (_ & Hty & _). rewrite Hty in Hty'.
    destruct (Hinv n Hn Hty') as [Ht Hf]. rewrite He. unfold handle_edges in *.
    split.
    + apply (mirrors_after_removal (nodes w) (edges w) changes a "trueChildId"
               (λ e, edge_sourceHandle e = Some "true") n); try done.
      intros e _. unfold relationship_field, handle_or_undefined.
      rewrite Hty'. simpl.
      destruct (edge_sourceHandle e) as [h|]; simpl;
        [destruct (String.eqb_spec h "") as [->|Hne]; simpl|];
        repeat case_decide; split; intros; simplify_eq; done.
    + apply (mirrors_after_removal (nodes w) (edges w) changes a "falseChildId"
               (λ e, edge_sourceHandle e = Some "false") n); try done.
      intros e _. unfold relationship_field, handle_or_undefined.
      rewrite Hty'. simpl.
      destruct (edge_sourceHandle e) as [h|]; simpl;
        [destruct (String.eqb_spec h "") as [->|Hne]; simpl|];
        repeat case_decide; split; intros; simplify_eq; done.
Qed.

Lemma edge_removal_keeps_fields_in_step_witness :
  let w' := (dispatch Examples.net_down "g" (EEdgesChange [ECRemove "e2"])
               Deletion.w_graph).2 in
  conditional_inv "D" w'.
Proof.
  apply (edge_removal_keeps_fields_in_step Examples.net_down "g" [ECRemove "e2"] "D"
           Deletion.w_graph).
  - apply (bool_decide_unpack _). vm_compute. exact I.
  - intros e He. simpl in He.
    repeat (apply elem_of_cons in He as [->|He]; [eexists; vm_compute; reflexivity|]).
    by apply elem_of_nil in He.
  - intros n Hn _. vm_compute in Hn. simplify_eq. split; vm_compute; reflexivity.
Defined.

(** ** Removing a node leaves its parents pointing at it *)

(** X20. The nodes-change callback restores the node list it closed over, so
    the clearing done by [deleteNode] is lost in the view: after the
    removal of the only child of an [analysis] node the edge is gone, the
    child is still in the node list and [childId] still names it, so the
    field no longer mirrors the edges. *)
Theorem node_removal_leaves_childId_dangling (net : nat → Reply) (graphId : string)
    (a : string) (n : Node) (e : Edge) (w : World) :
  js_find (λ n, node_id n = a) (nodes w) = Some n →
  node_type n = VStr "analysis" →
  outgoing a (edges w) = [e] →
  analysis_inv a w →
  let w' := (dispatch net graphId (ENodesChange [NCRemove (edge_target e)]) w).2 in
  nodes w' = nodes w ∧
  outgoing a (edges w') = [] ∧
  prop (node_data n) "childId" = VStr (edge_target e) ∧
  ¬ analysis_inv a w'.
Proof.
  intros Hn Hty Hout Hinv w'.
  assert (w' = (onNodesChangeCallback net (nodes w) (edges w) (selectedNode w)
                  [NCRemove (edge_target e)] w).2) as Hw'
    by (subst w'; unfold dispatch, get_world; by run_step).
  assert (nodes w' = nodes w) as Hns
    by (rewrite Hw'; apply onNodesChangeCallback_nodes).
  assert (edges w' = filter (λ e0, edge_source e0 ≠ edge_target e
                                   ∧ edge_target e0 ≠ edge_target e) (edges w)) as Hes.
  { rewrite Hw'. unfold onNodesChangeCallback, setNodes, debouncedUpdatePositions,
      get_world, set_timer. run_step.
    run_step.
    by destruct (deleteNode_local net (nodes w) (edges w) (selectedNode w)
                   (edge_target e) w) as (He & _). }
  assert (outgoing a (edges w') = []) as Hout'.
  { rewrite Hes. unfold outgoing in *. rewrite list_filter_filter.
    rewrite (list_filter_iff _ (λ e0, (edge_source e0 ≠ edge_target e
                                       ∧ edge_target e0 ≠ edge_target e)
                                      ∧ edge_source e0 = a)) by (intros ?; tauto).
    rewrite <- list_filter_filter, Hout. apply filter_single_out. tauto. }
  pose proof (Hinv n Hn Hty) as Hm. rewrite Hout in Hm. simpl in Hm.
  split_and!; [done|done|done|].
  intros Hinv'. specialize (Hinv' n). unfold analysis_inv, analysis_inv_on in Hinv'.
  rewrite Hns in Hinv'. specialize (Hinv' Hn Hty). rewrite Hout' in Hinv'.
  simpl in Hinv'. congruence.
Qed.

Lemma node_removal_leaves_childId_dangling_witness :
  let w' := (dispatch Examples.net_up "g" (ENodesChange [NCRemove "B"])
               AddNode.w_selected_analysis).2 in
  nodes w' = nodes AddNode.w_selected_analysis ∧
  outgoing "A" (edges w') = [] ∧
  prop (node_data AddNode.a_node) "childId" = VStr "B" ∧
  ¬ analysis_inv "A" w'.
Proof.
  apply (node_removal_leaves_childId_dangling Examples.net_up "g" "A" AddNode.a_node
           AddNode.e_ab AddNode.w_selected_analysis); try reflexivity.
  intros n Hn _. vm_compute in Hn. simplify_eq. reflexivity.
Defined.
